(** * Leap-size control of the embedded Runge-Kutta tau-leaping simulators

    A shallow embedding of [eRungeKutta_TC_FG_rbPL] (reaction-based) and
    [eRungeKutta_TC_FG_sbPL] (species-based), the two post-leap checkers with
    built-in tau calculation of Network3's partitioned-leaping code
    (src/pla/eRungeKutta/extra).

    Conventions of the embedding.
    - A C++ [double] is a primitive binary64 float; [+], [*], [sqrt], unary
      minus and [<] are the IEEE-754 operations (round to nearest even).  The
      loops that compute the projected changes are also written over any
      arithmetic ([calc_dX_over]), to be read over the real numbers where
      the sign of the deviation is concerned.
    - [exit(1)] is the outcome [Exit 1 d], where [d] records what the program
      printed before exiting.  An access outside an array or a read of a
      member that was never initialised is the outcome [Undefined].
    - The live network ([sp], [rxn]) is held by reference in the C++ objects
      and may grow between calls; every operation therefore takes the network
      it sees as an argument.
    - The collaborating objects whose code lives elsewhere (the checker, the
      effective-propensity calculator, the pre-leap tau calculator, the g-value
      getter) are the fields of a record of collaborators.
    - The uncapped [while (!ok)] loop of [getNewTau] takes a fuel argument and
      yields [OutOfFuel] when it is used up.
    - The trace output under the global [debug] flag, the destructors and the
      pass-through [fireRxns] are left out: no property below reads them. *)

From Stdlib Require Import String.
From Stdlib Require Import Floats ZArith List Bool Arith Lia.
Import ListNotations.

Local Open Scope float_scope.
#[local] Set Warnings "-inexact-float,-abstract-large-number".

(** ** Outcomes of a call *)

(** What the program wrote to [cout] before [exit(1)]. *)
Inductive Diagnostic : Type :=
| pp_must_be_ge_p (cls : string) (pp p : float)
| q_must_be_ge_1 (cls : string) (q : float)
| w_must_be_in_0_1 (cls : string) (w : float)
| no_rxns_to_add (oldPop_size projPop_size rxn_size : nat)
| no_species_to_add (oldPop_size old_g_size projPop_size sp_size : nat)
| sizes_not_equal (fn vec1 vec2 : string)
| message (text : string).

Inductive Outcome (A : Type) : Type :=
| Ok (a : A)
| Exit (status : Z) (d : Diagnostic)
| Undefined
| OutOfFuel.

Arguments Ok {A} a.
Arguments Exit {A} status d.
Arguments Undefined {A}.
Arguments OutOfFuel {A}.

Definition bind {A B : Type} (m : Outcome A) (k : A -> Outcome B) : Outcome B :=
  match m with
  | Ok a => k a
  | Exit c d => Exit c d
  | Undefined => Undefined
  | OutOfFuel => OutOfFuel
  end.

Notation "x <- m ;; k" := (bind m (fun x => k))
  (at level 61, m at next level, right associativity).
Notation "' pat <- m ;; k" := (bind m (fun x => match x with pat => k end))
  (at level 61, pat pattern, m at next level, right associativity).

(** [v[i]] as an rvalue. *)
Definition rd {A : Type} (v : list A) (i : nat) : Outcome A :=
  match nth_error v i with
  | Some x => Ok x
  | None => Undefined
  end.

(** [v[i] = x]. *)
Fixpoint wr {A : Type} (v : list A) (i : nat) (x : A) : Outcome (list A) :=
  match v, i with
  | [], _ => Undefined
  | _ :: t, O => Ok (x :: t)
  | h :: t, S i' => t' <- wr t i' x ;; Ok (h :: t')
  end.

(** [m[i][j]] and [m[i][j] = x]. *)
Definition rd2 {A : Type} (m : list (list A)) (i j : nat) : Outcome A :=
  row <- rd m i ;; rd row j.

Definition wr2 {A : Type} (m : list (list A)) (i j : nat) (x : A)
  : Outcome (list (list A)) :=
  row <- rd m i ;; row' <- wr row j x ;; wr m i row'.

(** [for (unsigned int i = lo; i < lo + n; i++) body] over a loop state. *)
Fixpoint for_loop {S : Type} (n lo : nat) (body : nat -> S -> Outcome S) (s : S)
  : Outcome S :=
  match n with
  | O => Ok s
  | Datatypes.S n' => s' <- body lo s ;; for_loop n' (Datatypes.S lo) body s'
  end.

(** ** The live network *)

Record SimpleSpecies : Type := { population : float }.

(** A [SimpleSpecies*]: an address in the species memory. *)
Definition SpeciesPtr : Type := nat.

Record Reaction : Type := { rateSpecies : list SpeciesPtr }.

Record Network : Type := {
  memory : SpeciesPtr -> SimpleSpecies;
  sp : list SpeciesPtr;
  rxn : list Reaction
}.

(** [s->population] *)
Definition pop_of (net : Network) (s : SpeciesPtr) : float :=
  population (memory net s).

(** ** Collaborating objects *)

(** The members of [aEff_Calculator] that the two classes read. *)
Record aEff_Calculator : Type := {
  a_eff : list float;
  X_eff : list float;
  spInRxn : list (list nat);
  stoich : list (list float);
  rateSp : list (list nat)
}.

(** The base-class sub-object [eRungeKutta_FG] as its own constructor leaves
    it; only [aCalc] is used by the derived classes' checking code. *)
Record eRungeKutta_FG : Type := { fg_aCalc : aEff_Calculator }.

Record BinomialCorrector_RK : Type := { bc_p : float }.

(** Calls made on collaborating objects, in program order. *)
Inductive Call : Type :=
| ptc_getNewTau (tau : float)
| aCalc_calc_aEff (tau : float)
| ch_check (scale : float) (postcheck : bool).

(** ** Projected population changes

    The first half of the body of [while (!ok)], the same text in both
    classes: the arrays [mean_dX] and [sdev_dX]. *)

(** The innermost loop; the pair holds [mean_dX[j]] and [sdev_dX[j]]. *)
Definition accumulate (ac : aEff_Calculator) (j v : nat) (acc : float * float)
  : Outcome (float * float) :=
  z_vj <- rd2 (stoich ac) j v ;;
  R_v <- rd2 (spInRxn ac) j v ;;
  a <- rd (a_eff ac) R_v ;;
  Ok (fst acc + z_vj * a, snd acc + z_vj * z_vj * a).

Definition dX_entry (ac : aEff_Calculator) (tau : float) (j : nat)
  : Outcome (float * float) :=
  spj <- rd (spInRxn ac) j ;;
  acc <- for_loop (length spj) 0 (accumulate ac j) (0, 0) ;;
  let mean := fst acc * tau in
  let sdev := snd acc * tau in
  let sdev := sqrt sdev in
  let sdev := if mean <? 0 then - sdev else sdev in
  Ok (mean, sdev).

(** The loop over [j]; the arrays have [X_eff.size()] slots, each written
    before the loops that follow read any of them. *)
Definition dX_step (ac : aEff_Calculator) (tau : float) (j : nat)
  (arrs : list float * list float) : Outcome (list float * list float) :=
  e <- dX_entry ac tau j ;;
  mean_dX <- wr (fst arrs) j (fst e) ;;
  sdev_dX <- wr (snd arrs) j (snd e) ;;
  Ok (mean_dX, sdev_dX).

Definition calc_dX (ac : aEff_Calculator) (tau : float)
  : Outcome (list float * list float) :=
  let n := length (X_eff ac) in
  for_loop n 0 (dX_step ac tau) (repeat 0 n, repeat 0 n).

(** ** The reaction-based controller, [eRungeKutta_TC_FG_rbPL] *)

Module RB.

Record RBChecker : Type := { ch_eps : float }.

(** Code of other translation units, as the class uses it:
    [RBChecker(eps,rxn)], [BinomialCorrector_RK(p,rxn)],
    [ch->check(scale,a_eff,pop,postcheck)], [aCalc->calc_aEff(tau)] and
    [ptc.getNewTau(tau)] (which overwrites its argument). *)
Record Collaborators : Type := {
  new_RBChecker : float -> Network -> Outcome RBChecker;
  new_BinomialCorrector_RK : float -> Network -> Outcome BinomialCorrector_RK;
  RBChecker_check :
    RBChecker -> Network -> float -> list float -> list (list float) -> bool -> bool;
  calc_aEff : Network -> float -> aEff_Calculator -> aEff_Calculator;
  Preleap_TC_getNewTau : Network -> float -> float
}.

(** The data members.  [substantially] has no initialiser in any constructor:
    it is [None] until [check()] assigns it. *)
Record eRungeKutta_TC_FG_rbPL : Type := {
  aCalc : aEff_Calculator;
  p : float;
  pp : float;
  q : float;
  w : float;
  preCalc : bool;
  substantially : option bool;
  ch : RBChecker;
  bc : BinomialCorrector_RK;
  oldPop : list (list float);
  projPop : list (list float)
}.

Definition set_aCalc (x : aEff_Calculator) (t : eRungeKutta_TC_FG_rbPL) :=
  {| aCalc := x; p := p t; pp := pp t; q := q t; w := w t;
     preCalc := preCalc t; substantially := substantially t;
     ch := ch t; bc := bc t; oldPop := oldPop t; projPop := projPop t |}.

Definition set_preCalc (x : bool) (t : eRungeKutta_TC_FG_rbPL) :=
  {| aCalc := aCalc t; p := p t; pp := pp t; q := q t; w := w t;
     preCalc := x; substantially := substantially t;
     ch := ch t; bc := bc t; oldPop := oldPop t; projPop := projPop t |}.

Definition set_substantially (x : option bool) (t : eRungeKutta_TC_FG_rbPL) :=
  {| aCalc := aCalc t; p := p t; pp := pp t; q := q t; w := w t;
     preCalc := preCalc t; substantially := x;
     ch := ch t; bc := bc t; oldPop := oldPop t; projPop := projPop t |}.

Definition set_oldPop (x : list (list float)) (t : eRungeKutta_TC_FG_rbPL) :=
  {| aCalc := aCalc t; p := p t; pp := pp t; q := q t; w := w t;
     preCalc := preCalc t; substantially := substantially t;
     ch := ch t; bc := bc t; oldPop := x; projPop := projPop t |}.

Definition set_projPop (x : list (list float)) (t : eRungeKutta_TC_FG_rbPL) :=
  {| aCalc := aCalc t; p := p t; pp := pp t; q := q t; w := w t;
     preCalc := preCalc t; substantially := substantially t;
     ch := ch t; bc := bc t; oldPop := oldPop t; projPop := x |}.

Definition cls : string := "eRungeKutta_TC_FG_rbPL"%string.

(** [addRxn()].  The loop state is the pair of rows just pushed. *)
Definition addRxn_fill (net : Network) (r : Reaction) (j : nat)
  (rows : list float * list float) : Outcome (list float * list float) :=
  s <- rd (rateSpecies r) j ;;
  o <- wr (fst rows) j (pop_of net s) ;;
  pr <- wr (snd rows) j 0 ;;
  Ok (o, pr).

Definition addRxn (net : Network) (this : eRungeKutta_TC_FG_rbPL)
  : Outcome eRungeKutta_TC_FG_rbPL :=
  let no := length (oldPop this) in
  let np := length (projPop this) in
  let nr := length (rxn net) in
  if ((no <? nr) && (np <? nr) && (no =? np))%nat then
    let u := no in
    r <- rd (rxn net) u ;;
    let n := length (rateSpecies r) in
    rows <- for_loop n 0 (addRxn_fill net r) (repeat 0 n, repeat 0 n) ;;
    Ok (set_projPop (projPop this ++ [snd rows])
          (set_oldPop (oldPop this ++ [fst rows]) this))
  else Exit 1 (no_rxns_to_add no np nr).

(** [while (oldPop.size() != rxn.size() && projPop.size() != rxn.size())
      addRxn();] *)
Definition behind (net : Network) (this : eRungeKutta_TC_FG_rbPL) : bool :=
  (negb (length (oldPop this) =? length (rxn net))
   && negb (length (projPop this) =? length (rxn net)))%nat.

Fixpoint catchUp_loop (fuel : nat) (net : Network) (this : eRungeKutta_TC_FG_rbPL)
  : Outcome eRungeKutta_TC_FG_rbPL :=
  if behind net this then
    match fuel with
    | O => OutOfFuel
    | S fuel' => this' <- addRxn net this ;; catchUp_loop fuel' net this'
    end
  else Ok this.

(** Every pass either exits or lengthens [oldPop], which stays below
    [rxn.size()]: the loop is over within [rxn.size() + 1] passes (see
    [rb_catchUp_total]). *)
Definition catchUp (net : Network) (this : eRungeKutta_TC_FG_rbPL)
  : Outcome eRungeKutta_TC_FG_rbPL :=
  catchUp_loop (S (length (rxn net))) net this.

(** The loop of every constructor: [for (v = 0; v < rxn.size(); v++) addRxn();] *)
Definition add_all (net : Network) (this : eRungeKutta_TC_FG_rbPL)
  : Outcome eRungeKutta_TC_FG_rbPL :=
  for_loop (length (rxn net)) 0 (fun _ t => addRxn net t) this.

Section WithCollaborators.

Context (E : Collaborators).

(** The two public constructors differ only in the base-class constructor
    they call; [base] is the base sub-object either of them built. *)
Definition construct (base : eRungeKutta_FG) (eps p0 pp0 q0 w0 : float)
  (net : Network) : Outcome eRungeKutta_TC_FG_rbPL :=
  if pp0 <? p0 then Exit 1 (pp_must_be_ge_p cls pp0 p0)
  else if q0 <? 1 then Exit 1 (q_must_be_ge_1 cls q0)
  else if (w0 <=? 0) || (1 <=? w0) then Exit 1 (w_must_be_in_0_1 cls w0)
  else
    ch0 <- new_RBChecker E eps net ;;
    bc0 <- new_BinomialCorrector_RK E p0 net ;;
    add_all net
      {| aCalc := fg_aCalc base; p := p0; pp := pp0; q := q0; w := w0;
         preCalc := true; substantially := None;
         ch := ch0; bc := bc0; oldPop := []; projPop := [] |}.

(** The copy constructor. *)
Definition copy (net : Network) (orig : eRungeKutta_TC_FG_rbPL)
  : Outcome eRungeKutta_TC_FG_rbPL :=
  add_all net
    {| aCalc := aCalc orig; p := p orig; pp := pp orig; q := q orig; w := w orig;
       preCalc := true; substantially := None;
       ch := ch orig; bc := bc orig; oldPop := []; projPop := [] |}.

(** "Calculate elements of projPop[][]". *)
Definition project_entry (ac : aEff_Calculator) (old : list (list float))
  (mean_dX sdev_dX : list float) (v j : nat) (proj : list (list float))
  : Outcome (list (list float)) :=
  S_j <- rd2 (rateSp ac) v j ;;
  o <- rd2 old v j ;;
  m <- rd mean_dX S_j ;;
  s <- rd sdev_dX S_j ;;
  wr2 proj v j (o + m + s).

Definition project_row (net : Network) (ac : aEff_Calculator)
  (old : list (list float)) (mean_dX sdev_dX : list float) (v : nat)
  (proj : list (list float)) : Outcome (list (list float)) :=
  r <- rd (rxn net) v ;;
  for_loop (length (rateSpecies r)) 0
    (project_entry ac old mean_dX sdev_dX v) proj.

Definition project (net : Network) (ac : aEff_Calculator)
  (old : list (list float)) (mean_dX sdev_dX : list float)
  (proj : list (list float)) : Outcome (list (list float)) :=
  for_loop (length proj) 0 (project_row net ac old mean_dX sdev_dX) proj.

(** One pass through the body of [while (!ok)]: the controller after it and
    the value of [ok]. *)
Definition trial (net : Network) (this : eRungeKutta_TC_FG_rbPL) (tau : float)
  : Outcome (eRungeKutta_TC_FG_rbPL * bool) :=
  let this := set_aCalc (calc_aEff E net tau (aCalc this)) this in
  dX <- calc_dX (aCalc this) tau ;;
  proj <- project net (aCalc this) (oldPop this) (fst dX) (snd dX) (projPop this) ;;
  let this := set_projPop proj this in
  Ok (this,
      RBChecker_check E (ch this) net 1 (a_eff (aCalc this)) (projPop this) false).

(** "Perform pre-check": [while (!ok) { ...; if (!ok) tau *= p; }] *)
Fixpoint preCheck (fuel : nat) (net : Network) (this : eRungeKutta_TC_FG_rbPL)
  (tau : float) (calls : list Call)
  : Outcome (eRungeKutta_TC_FG_rbPL * float * list Call) :=
  match fuel with
  | O => OutOfFuel
  | S fuel' =>
      r <- trial net this tau ;;
      let calls := calls ++ [aCalc_calc_aEff tau; ch_check 1 false] in
      if snd r then Ok (fst r, tau, calls)
      else preCheck fuel' net (fst r) (tau * p (fst r)) calls
  end.

(** "Get new tau": the controller, the tau the pre-check starts from and the
    calls made. *)
Definition firstTau (net : Network) (this : eRungeKutta_TC_FG_rbPL) (tau : float)
  : Outcome (eRungeKutta_TC_FG_rbPL * float * list Call) :=
  if preCalc this then
    Ok (set_preCalc false this, Preleap_TC_getNewTau E net tau, [ptc_getNewTau tau])
  else
    match substantially this with
    | None => Undefined
    | Some true => Ok (this, tau * q this, [])
    | Some false => Ok (this, tau * pp this, [])
    end.

(** [getNewTau(double& tau)]: the controller afterwards, the value left in
    [tau] and the calls made on the collaborators. *)
Definition getNewTau (fuel : nat) (net : Network) (this : eRungeKutta_TC_FG_rbPL)
  (tau : float) : Outcome (eRungeKutta_TC_FG_rbPL * float * list Call) :=
  this <- catchUp net this ;;
  s <- firstTau net this tau ;;
  preCheck fuel net (fst (fst s)) (snd (fst s)) (snd s).

(** [check()]: the value returned, the controller afterwards and the calls
    made on the checker. *)
Definition check (net : Network) (this : eRungeKutta_TC_FG_rbPL)
  : Outcome (bool * eRungeKutta_TC_FG_rbPL * list Call) :=
  this <- catchUp net this ;;
  let s := RBChecker_check E (ch this) net (w this) (a_eff (aCalc this))
             (oldPop this) true in
  let this := set_substantially (Some s) this in
  if s then Ok (true, this, [ch_check (w this) true])
  else
    let ok := RBChecker_check E (ch this) net 1 (a_eff (aCalc this))
                (oldPop this) true in
    Ok (ok, this, [ch_check (w this) true; ch_check 1 true]).

End WithCollaborators.

(** [update()] *)
Definition update_entry (net : Network) (r : Reaction) (v j : nat)
  (old : list (list float)) : Outcome (list (list float)) :=
  s <- rd (rateSpecies r) j ;;
  wr2 old v j (pop_of net s).

Definition update_row (net : Network) (v : nat) (old : list (list float))
  : Outcome (list (list float)) :=
  r <- rd (rxn net) v ;;
  for_loop (length (rateSpecies r)) 0 (update_entry net r v) old.

Definition update (net : Network) (this : eRungeKutta_TC_FG_rbPL)
  : Outcome eRungeKutta_TC_FG_rbPL :=
  old <- for_loop (length (oldPop this)) 0 (update_row net) (oldPop this) ;;
  let this := set_oldPop old this in
  if negb (length (oldPop this) =? length (rxn net))%nat then
    Exit 1 (sizes_not_equal "update" "oldPop" "rxn")
  else if negb (length (projPop this) =? length (rxn net))%nat then
    Exit 1 (sizes_not_equal "update" "projPop" "rxn")
  else Ok this.

(** The registry size invariant. *)
Definition registry_ok (this : eRungeKutta_TC_FG_rbPL) : Prop :=
  length (oldPop this) = length (projPop this).

(** Controllers a driver can hold: built by a constructor, then passed through
    [getNewTau], [check] and [update] against whatever the network is at the
    time of each call. *)
Inductive reachable (E : Collaborators) : eRungeKutta_TC_FG_rbPL -> Prop :=
| reach_construct base eps p0 pp0 q0 w0 net t :
    construct E base eps p0 pp0 q0 w0 net = Ok t -> reachable E t
| reach_copy net orig t :
    reachable E orig -> copy net orig = Ok t -> reachable E t
| reach_getNewTau fuel net t tau t' tau' calls :
    reachable E t -> getNewTau E fuel net t tau = Ok (t', tau', calls) ->
    reachable E t'
| reach_check net t ok t' calls :
    reachable E t -> check E net t = Ok (ok, t', calls) -> reachable E t'
| reach_update net t t' :
    reachable E t -> update net t = Ok t' -> reachable E t'.

End RB.

(** ** The species-based controller, [eRungeKutta_TC_FG_sbPL] *)

Module SB.

Record SBChecker : Type := { ch_eps : float }.

Inductive g_Getter : Type := the_g_Getter.

(** Code of other translation units, as the class uses it:
    [SBChecker(eps,sp)], [BinomialCorrector_RK(p,rxn)], [g_Getter(sp,rxn)],
    [gGet->get_g(i)], [ch->check(scale,X_eff,pop,g,postcheck)],
    [aCalc->calc_aEff(tau)] and [ptc.getNewTau(tau)]. *)
Record Collaborators : Type := {
  new_SBChecker : float -> Network -> Outcome SBChecker;
  new_BinomialCorrector_RK : float -> Network -> Outcome BinomialCorrector_RK;
  new_g_Getter : Network -> Outcome g_Getter;
  get_g : g_Getter -> Network -> nat -> float;
  SBChecker_check :
    SBChecker -> Network -> float -> list float -> list float -> list float ->
    bool -> bool;
  calc_aEff : Network -> float -> aEff_Calculator -> aEff_Calculator;
  Preleap_TC_getNewTau : Network -> float -> float
}.

Record eRungeKutta_TC_FG_sbPL : Type := {
  aCalc : aEff_Calculator;
  p : float;
  pp : float;
  q : float;
  w : float;
  preCalc : bool;
  substantially : option bool;
  ch : SBChecker;
  bc : BinomialCorrector_RK;
  gGet : g_Getter;
  oldPop : list float;
  old_g : list float;
  projPop : list float
}.

Definition set_aCalc (x : aEff_Calculator) (t : eRungeKutta_TC_FG_sbPL) :=
  {| aCalc := x; p := p t; pp := pp t; q := q t; w := w t;
     preCalc := preCalc t; substantially := substantially t;
     ch := ch t; bc := bc t; gGet := gGet t;
     oldPop := oldPop t; old_g := old_g t; projPop := projPop t |}.

Definition set_preCalc (x : bool) (t : eRungeKutta_TC_FG_sbPL) :=
  {| aCalc := aCalc t; p := p t; pp := pp t; q := q t; w := w t;
     preCalc := x; substantially := substantially t;
     ch := ch t; bc := bc t; gGet := gGet t;
     oldPop := oldPop t; old_g := old_g t; projPop := projPop t |}.

Definition set_substantially (x : option bool) (t : eRungeKutta_TC_FG_sbPL) :=
  {| aCalc := aCalc t; p := p t; pp := pp t; q := q t; w := w t;
     preCalc := preCalc t; substantially := x;
     ch := ch t; bc := bc t; gGet := gGet t;
     oldPop := oldPop t; old_g := old_g t; projPop := projPop t |}.

Definition set_registry (o g pr : list float) (t : eRungeKutta_TC_FG_sbPL) :=
  {| aCalc := aCalc t; p := p t; pp := pp t; q := q t; w := w t;
     preCalc := preCalc t; substantially := substantially t;
     ch := ch t; bc := bc t; gGet := gGet t;
     oldPop := o; old_g := g; projPop := pr |}.

Definition cls : string := "eRungeKutta_TC_FG_sbPL"%string.

Section WithCollaborators.

Context (E : Collaborators).

(** [addSpecies()] *)
Definition addSpecies (net : Network) (this : eRungeKutta_TC_FG_sbPL)
  : Outcome eRungeKutta_TC_FG_sbPL :=
  let no := length (oldPop this) in
  let ng := length (old_g this) in
  let np := length (projPop this) in
  let ns := length (sp net) in
  if ((no <? ns) && (no =? ng) && (no =? np))%nat then
    let i := no in
    s <- rd (sp net) i ;;
    Ok (set_registry (oldPop this ++ [pop_of net s])
          (old_g this ++ [get_g E (gGet this) net i])
          (projPop this ++ [0]) this)
  else Exit 1 (no_species_to_add no ng np ns).

(** [while (oldPop.size() != sp.size() && old_g.size() != sp.size()
           && projPop.size() != sp.size()) addSpecies();] *)
Definition behind (net : Network) (this : eRungeKutta_TC_FG_sbPL) : bool :=
  (negb (length (oldPop this) =? length (sp net))
   && negb (length (old_g this) =? length (sp net))
   && negb (length (projPop this) =? length (sp net)))%nat.

Fixpoint catchUp_loop (fuel : nat) (net : Network) (this : eRungeKutta_TC_FG_sbPL)
  : Outcome eRungeKutta_TC_FG_sbPL :=
  if behind net this then
    match fuel with
    | O => OutOfFuel
    | S fuel' => this' <- addSpecies net this ;; catchUp_loop fuel' net this'
    end
  else Ok this.

(** The loop is over within [sp.size() + 1] passes (see [sb_catchUp_total]). *)
Definition catchUp (net : Network) (this : eRungeKutta_TC_FG_sbPL)
  : Outcome eRungeKutta_TC_FG_sbPL :=
  catchUp_loop (S (length (sp net))) net this.

(** [for (j = 0; j < sp.size(); j++) addSpecies();] *)
Definition add_all (net : Network) (this : eRungeKutta_TC_FG_sbPL)
  : Outcome eRungeKutta_TC_FG_sbPL :=
  for_loop (length (sp net)) 0 (fun _ t => addSpecies net t) this.

Definition construct (base : eRungeKutta_FG) (eps p0 pp0 q0 w0 : float)
  (net : Network) : Outcome eRungeKutta_TC_FG_sbPL :=
  if pp0 <? p0 then Exit 1 (pp_must_be_ge_p cls pp0 p0)
  else if q0 <? 1 then Exit 1 (q_must_be_ge_1 cls q0)
  else if (w0 <=? 0) || (1 <=? w0) then Exit 1 (w_must_be_in_0_1 cls w0)
  else
    ch0 <- new_SBChecker E eps net ;;
    bc0 <- new_BinomialCorrector_RK E p0 net ;;
    g0 <- new_g_Getter E net ;;
    add_all net
      {| aCalc := fg_aCalc base; p := p0; pp := pp0; q := q0; w := w0;
         preCalc := true; substantially := None;
         ch := ch0; bc := bc0; gGet := g0;
         oldPop := []; old_g := []; projPop := [] |}.

Definition copy (net : Network) (orig : eRungeKutta_TC_FG_sbPL)
  : Outcome eRungeKutta_TC_FG_sbPL :=
  add_all net
    {| aCalc := aCalc orig; p := p orig; pp := pp orig; q := q orig; w := w orig;
       preCalc := true; substantially := None;
       ch := ch orig; bc := bc orig; gGet := gGet orig;
       oldPop := []; old_g := []; projPop := [] |}.

(** "Calculate elements of projPop[]". *)
Definition project_entry (old mean_dX sdev_dX : list float) (j : nat)
  (proj : list float) : Outcome (list float) :=
  o <- rd old j ;;
  m <- rd mean_dX j ;;
  s <- rd sdev_dX j ;;
  wr proj j (o + m + s).

Definition project (old mean_dX sdev_dX proj : list float) : Outcome (list float) :=
  for_loop (length proj) 0 (project_entry old mean_dX sdev_dX) proj.

Definition trial (net : Network) (this : eRungeKutta_TC_FG_sbPL) (tau : float)
  : Outcome (eRungeKutta_TC_FG_sbPL * bool) :=
  let this := set_aCalc (calc_aEff E net tau (aCalc this)) this in
  dX <- calc_dX (aCalc this) tau ;;
  proj <- project (oldPop this) (fst dX) (snd dX) (projPop this) ;;
  let this := set_registry (oldPop this) (old_g this) proj this in
  let curr_g := old_g this in
  Ok (this,
      SBChecker_check E (ch this) net 1 (X_eff (aCalc this)) (projPop this)
        curr_g false).

Fixpoint preCheck (fuel : nat) (net : Network) (this : eRungeKutta_TC_FG_sbPL)
  (tau : float) (calls : list Call)
  : Outcome (eRungeKutta_TC_FG_sbPL * float * list Call) :=
  match fuel with
  | O => OutOfFuel
  | S fuel' =>
      r <- trial net this tau ;;
      let calls := calls ++ [aCalc_calc_aEff tau; ch_check 1 false] in
      if snd r then Ok (fst r, tau, calls)
      else preCheck fuel' net (fst r) (tau * p (fst r)) calls
  end.

Definition firstTau (net : Network) (this : eRungeKutta_TC_FG_sbPL) (tau : float)
  : Outcome (eRungeKutta_TC_FG_sbPL * float * list Call) :=
  if preCalc this then
    Ok (set_preCalc false this, Preleap_TC_getNewTau E net tau, [ptc_getNewTau tau])
  else
    match substantially this with
    | None => Undefined
    | Some true => Ok (this, tau * q this, [])
    | Some false => Ok (this, tau * pp this, [])
    end.

Definition getNewTau (fuel : nat) (net : Network) (this : eRungeKutta_TC_FG_sbPL)
  (tau : float) : Outcome (eRungeKutta_TC_FG_sbPL * float * list Call) :=
  this <- catchUp net this ;;
  s <- firstTau net this tau ;;
  preCheck fuel net (fst (fst s)) (snd (fst s)) (snd s).

Definition check (net : Network) (this : eRungeKutta_TC_FG_sbPL)
  : Outcome (bool * eRungeKutta_TC_FG_sbPL * list Call) :=
  this <- catchUp net this ;;
  let s := SBChecker_check E (ch this) net (w this) (X_eff (aCalc this))
             (oldPop this) (old_g this) true in
  let this := set_substantially (Some s) this in
  if s then Ok (true, this, [ch_check (w this) true])
  else
    let ok := SBChecker_check E (ch this) net 1 (X_eff (aCalc this))
                (oldPop this) (old_g this) true in
    Ok (ok, this, [ch_check (w this) true; ch_check 1 true]).

(** [update()]; the loop state is the pair [oldPop], [old_g]. *)
Definition update_entry (net : Network) (g : g_Getter) (j : nat)
  (arrs : list float * list float) : Outcome (list float * list float) :=
  s <- rd (sp net) j ;;
  o <- wr (fst arrs) j (pop_of net s) ;;
  og <- wr (snd arrs) j (get_g E g net j) ;;
  Ok (o, og).

Definition update (net : Network) (this : eRungeKutta_TC_FG_sbPL)
  : Outcome eRungeKutta_TC_FG_sbPL :=
  arrs <- for_loop (length (oldPop this)) 0 (update_entry net (gGet this))
            (oldPop this, old_g this) ;;
  let this := set_registry (fst arrs) (snd arrs) (projPop this) this in
  if negb (length (oldPop this) =? length (sp net))%nat then
    Exit 1 (sizes_not_equal "update" "oldPop" "sp")
  else if negb (length (old_g this) =? length (sp net))%nat then
    Exit 1 (sizes_not_equal "update" "old_g" "sp")
  else if negb (length (projPop this) =? length (sp net))%nat then
    Exit 1 (sizes_not_equal "update" "projPop" "sp")
  else Ok this.

End WithCollaborators.

Definition registry_ok (this : eRungeKutta_TC_FG_sbPL) : Prop :=
  length (oldPop this) = length (old_g this)
  /\ length (oldPop this) = length (projPop this).

Inductive reachable (E : Collaborators) : eRungeKutta_TC_FG_sbPL -> Prop :=
| reach_construct base eps p0 pp0 q0 w0 net t :
    construct E base eps p0 pp0 q0 w0 net = Ok t -> reachable E t
| reach_copy net orig t :
    reachable E orig -> copy E net orig = Ok t -> reachable E t
| reach_getNewTau fuel net t tau t' tau' calls :
    reachable E t -> getNewTau E fuel net t tau = Ok (t', tau', calls) ->
    reachable E t'
| reach_check net t ok t' calls :
    reachable E t -> check E net t = Ok (ok, t', calls) -> reachable E t'
| reach_update net t t' :
    reachable E t -> update E net t = Ok t' -> reachable E t'.

End SB.

(** ** Closed forms of the projected changes

    What [dX_entry] accumulates, written as sums over the reactions that
    species [j] takes part in.  Floating-point addition is not associative:
    the sums run left to right from [0.0], as the loops do. *)

Definition contributions (ac : aEff_Calculator) (j : nat) : list (float * float) :=
  map (fun zr => (fst zr, nth (snd zr) (a_eff ac) 0))
      (combine (nth j (stoich ac) []) (nth j (spInRxn ac) [])).

Definition fsum (l : list float) : float := fold_left PrimFloat.add l 0.

(** [Σ_v stoich[j][v] · a_eff[v]] and [Σ_v stoich[j][v]² · a_eff[v]] *)
Definition drift (ac : aEff_Calculator) (j : nat) : float :=
  fsum (map (fun za => fst za * snd za) (contributions ac j)).

Definition spread (ac : aEff_Calculator) (j : nat) : float :=
  fsum (map (fun za => fst za * fst za * snd za) (contributions ac j)).

Definition mean_of (ac : aEff_Calculator) (tau : float) (j : nat) : float :=
  drift ac j * tau.

(** The deviation as the code has it: the root of [tau] times the sum. *)
Definition sdev_of (ac : aEff_Calculator) (tau : float) (j : nat) : float :=
  if mean_of ac tau j <? 0 then - sqrt (spread ac j * tau)
  else sqrt (spread ac j * tau).

(** The deviation in the words of the specification, section 4.2 step 3b:
    [tau] times the root of the sum, with the sign of the mean. *)
Definition sdev_as_specified (ac : aEff_Calculator) (tau : float) (j : nat) : float :=
  if mean_of ac tau j <? 0 then - (tau * sqrt (spread ac j))
  else tau * sqrt (spread ac j).

(** ** The shrink sequence

    [tau], [tau * p], [tau * p * p], ...: the trial values of the pre-check,
    and the calls a run of [n] passes makes. *)

Fixpoint shrunk (p tau : float) (k : nat) : float :=
  match k with
  | O => tau
  | S k' => shrunk p (tau * p) k'
  end.

Fixpoint trials (p tau : float) (n : nat) : list Call :=
  match n with
  | O => []
  | S n' => aCalc_calc_aEff tau :: ch_check 1 false :: trials p (tau * p) n'
  end.

(** ** The end-to-end scenario of the specification, section 8.6

    One reaction, one species, stoichiometry +1, constant propensity 10,
    eps = 0.1, p = 0.5, pp = 0.9, q = 1.5, w = 0.01, initial tau 1.0,
    population 100. *)

Module Scenario.

Definition net : Network :=
  {| memory := fun _ => {| population := 100 |};
     sp := [0%nat];
     rxn := [ {| rateSpecies := [0%nat] |} ] |}.

Definition base : eRungeKutta_FG :=
  {| fg_aCalc :=
       {| a_eff := [10]; X_eff := [100]; spInRxn := [[0%nat]];
          stoich := [[1]]; rateSp := [[0%nat]] |} |}.

(** Modelled from the spec: the bound of section 8.6, "10% of baseline => 10,
    so 113.16 exceeds 110 => rejected"; the C++ of the checkers is not part
    of the sources at hand. *)
Definition within (eps scale x ref : float) : bool :=
  abs (x - ref) <=? scale * eps * ref.

(** Modelled from the spec: [RBChecker::check], section 4.1, every rate
    species of every reaction within the bound of its live population. *)
Definition rb_check (c : RB.RBChecker) (net : Network) (scale : float)
  (a_eff : list float) (pop : list (list float)) (postcheck : bool) : bool :=
  forallb
    (fun vr =>
       forallb (fun xs => within (RB.ch_eps c) scale (fst xs) (pop_of net (snd xs)))
               (combine (fst vr) (rateSpecies (snd vr))))
    (combine pop (rxn net)).

(** Modelled from the spec: [SBChecker::check], section 4.1, every species
    within the bound of its live population tightened by its g-value. *)
Definition sb_check (c : SB.SBChecker) (net : Network) (scale : float)
  (X_eff pop g : list float) (postcheck : bool) : bool :=
  forallb
    (fun xgs =>
       abs (fst (fst xgs) - pop_of net (snd xgs))
       <=? scale * SB.ch_eps c * pop_of net (snd xgs) / snd (fst xgs))
    (combine (combine pop g) (sp net)).

(** Modelled from the spec: section 6 asks for [eps > 0] and [p] in (0,1);
    the constructors of the checkers are taken to refuse any other [eps], the
    strictest reading. *)
Definition strict_eps {A : Type} (mk : float -> A) (eps : float) : Outcome A :=
  if 0 <? eps then Ok (mk eps) else Exit 1 (message "eps must be > 0.0").

(** Modelled from the spec: [BinomialCorrector_RK(p,rxn)] under the same
    reading, [p] strictly between 0 and 1. *)
Definition strict_p (p : float) : Outcome BinomialCorrector_RK :=
  if (0 <? p) && (p <? 1) then Ok {| bc_p := p |}
  else Exit 1 (message "p must be > 0.0 and < 1.0").

Definition rb : RB.Collaborators :=
  {| RB.new_RBChecker := fun eps _ => strict_eps (fun e => {| RB.ch_eps := e |}) eps;
     RB.new_BinomialCorrector_RK := fun p _ => strict_p p;
     RB.RBChecker_check := rb_check;
     RB.calc_aEff := fun _ _ ac => ac;
     RB.Preleap_TC_getNewTau := fun _ _ => 1 |}.

Definition sb : SB.Collaborators :=
  {| SB.new_SBChecker := fun eps _ => strict_eps (fun e => {| SB.ch_eps := e |}) eps;
     SB.new_BinomialCorrector_RK := fun p _ => strict_p p;
     SB.new_g_Getter := fun _ => Ok SB.the_g_Getter;
     SB.get_g := fun _ _ _ => 1;
     SB.SBChecker_check := sb_check;
     SB.calc_aEff := fun _ _ ac => ac;
     SB.Preleap_TC_getNewTau := fun _ _ => 1 |}.

(** The controllers of the scenario, as constructed. *)
Definition rb0 : Outcome RB.eRungeKutta_TC_FG_rbPL :=
  RB.construct rb base 0.1 0.5 0.9 1.5 0.01 net.

Definition sb0 : Outcome SB.eRungeKutta_TC_FG_sbPL :=
  SB.construct sb base 0.1 0.5 0.9 1.5 0.01 net.

End Scenario.

(** ** Predicates and sample data used in the statements *)

Local Open Scope nat_scope.


(** What [projPop[v][j]] is after the projection loops, in terms of the
    arrays they read. *)
Definition rb_projected (ac : aEff_Calculator) (old : list (list float))
  (mean_dX sdev_dX : list float) (v j : nat) (x : float) : Prop :=
  exists S_j o m s,
    rd2 (rateSp ac) v j = Ok S_j /\ rd2 old v j = Ok o
    /\ nth_error mean_dX S_j = Some m /\ nth_error sdev_dX S_j = Some s
    /\ x = (o + m + s)%float.

(** Members other than the registry arrays. *)
Definition rb_same_config (t t' : RB.eRungeKutta_TC_FG_rbPL) : Prop :=
  RB.p t' = RB.p t /\ RB.pp t' = RB.pp t /\ RB.q t' = RB.q t /\ RB.w t' = RB.w t
  /\ RB.preCalc t' = RB.preCalc t /\ RB.substantially t' = RB.substantially t
  /\ RB.ch t' = RB.ch t /\ RB.bc t' = RB.bc t.

(** The condition of the [if] in [addRxn()]. *)
Definition rb_addRxn_guard (net : Network) (t : RB.eRungeKutta_TC_FG_rbPL) : bool :=
  (length (RB.oldPop t) <? length (rxn net))
  && (length (RB.projPop t) <? length (rxn net))
  && (length (RB.oldPop t) =? length (RB.projPop t)).

(** [substantially], read as "the previous step was substantially accepted". *)
Definition is_true (o : option bool) : bool :=
  match o with Some true => true | _ => false end.

(** The tau the pre-check starts from, in the words of the specification. *)
Definition rb_proposed (E : RB.Collaborators) (net : Network)
  (t : RB.eRungeKutta_TC_FG_rbPL) (tau : float) : float :=
  if RB.preCalc t then RB.Preleap_TC_getNewTau E net tau
  else if is_true (RB.substantially t) then (tau * RB.q t)%float
  else (tau * RB.pp t)%float.

(** The same for the species-based controller. *)
Definition sb_same_config (t t' : SB.eRungeKutta_TC_FG_sbPL) : Prop :=
  SB.p t' = SB.p t /\ SB.pp t' = SB.pp t /\ SB.q t' = SB.q t /\ SB.w t' = SB.w t
  /\ SB.preCalc t' = SB.preCalc t /\ SB.substantially t' = SB.substantially t
  /\ SB.ch t' = SB.ch t /\ SB.bc t' = SB.bc t /\ SB.gGet t' = SB.gGet t.

(** The condition of the [if] in [addSpecies()]. *)
Definition sb_addSpecies_guard (net : Network) (t : SB.eRungeKutta_TC_FG_sbPL) : bool :=
  (length (SB.oldPop t) <? length (sp net))
  && (length (SB.oldPop t) =? length (SB.old_g t))
  && (length (SB.oldPop t) =? length (SB.projPop t)).

(** The tau the pre-check starts from, species-based controller. *)
Definition sb_proposed (E : SB.Collaborators) (net : Network)
  (t : SB.eRungeKutta_TC_FG_sbPL) (tau : float) : float :=
  if SB.preCalc t then SB.Preleap_TC_getNewTau E net tau
  else if is_true (SB.substantially t) then (tau * SB.q t)%float
  else (tau * SB.pp t)%float.




(** A network whose one species has moved from 100 to 93 since the
    controller was built. *)
Definition net_after_leap : Network :=
  {| memory := fun _ => {| population := 93 |};
     sp := [0];
     rxn := [ {| rateSpecies := [0] |} ] |}.

(** A network with a second reaction and species, registered after the
    controller of the scenario was built. *)
Definition net_grown : Network :=
  {| memory := fun s => {| population := match s with O => 100 | _ => 40 end |};
     sp := [0; 1];
     rxn := [ {| rateSpecies := [0] |}; {| rateSpecies := [0; 1] |} ] |}.

(** A controller of the scenario that has proposed a step and had it
    classified as substantially accepted. *)
Definition rb_used : RB.eRungeKutta_TC_FG_rbPL :=
  {| RB.aCalc := fg_aCalc Scenario.base;
     RB.p := 0.5; RB.pp := 0.9; RB.q := 1.5; RB.w := 0.01;
     RB.preCalc := false; RB.substantially := Some true;
     RB.ch := {| RB.ch_eps := 0.1 |}; RB.bc := {| bc_p := 0.5 |};
     RB.oldPop := [[100%float]]; RB.projPop := [[107.23606797749979%float]] |}.

(** * Properties *)

(** ** Outcomes, array accesses and counted loops *)

Lemma bind_Ok {A B : Type} (m : Outcome A) (k : A -> Outcome B) (b : B) :
  bind m k = Ok b -> exists a, m = Ok a /\ k a = Ok b.
Proof.
  destruct m as [a| | |]; simpl; intros H; try discriminate.
  exists a; split; [reflexivity | exact H].
Qed.

Ltac ok_inv H :=
  let a := fresh "a" in
  let Ha := fresh "Ha" in
  apply bind_Ok in H; destruct H as (a & Ha & H).

Lemma rd_Ok {A : Type} (v : list A) (i : nat) (x : A) :
  rd v i = Ok x <-> nth_error v i = Some x.
Proof.
  unfold rd; destruct (nth_error v i); split; intros H;
    try discriminate; inversion H; reflexivity.
Qed.

Lemma rd_lt {A : Type} (v : list A) (i : nat) :
  i < length v -> exists x, rd v i = Ok x.
Proof.
  intros H. unfold rd. destruct (nth_error v i) eqn:Hn.
  - eexists; reflexivity.
  - apply nth_error_None in Hn. lia.
Qed.

Lemma wr_Ok {A : Type} (v : list A) (i : nat) (x : A) (v' : list A) :
  wr v i x = Ok v' ->
  length v' = length v /\ nth_error v' i = Some x
  /\ forall k, k <> i -> nth_error v' k = nth_error v k.
Proof.
  revert i v'. induction v as [|h t IH]; intros [|i] v' H; simpl in H;
    try discriminate.
  - inversion H; subst. repeat split. intros [|k] Hk; [lia | reflexivity].
  - ok_inv H. inversion H; subst. destruct (IH _ _ Ha) as (Hl & Hi & Hk).
    simpl. repeat split; [congruence | exact Hi |].
    intros [|k] Hne; [reflexivity | simpl; apply Hk; lia].
Qed.

Lemma wr_lt {A : Type} (v : list A) (i : nat) (x : A) :
  i < length v -> exists v', wr v i x = Ok v'.
Proof.
  revert i. induction v as [|h t IH]; intros [|i] H; simpl in *; try lia.
  - eexists; reflexivity.
  - destruct (IH i) as (t' & Ht); [lia|]. rewrite Ht. eexists; reflexivity.
Qed.

Lemma wr_no_exit {A : Type} (v : list A) (i : nat) (x : A) :
  (exists v', wr v i x = Ok v') \/ wr v i x = Undefined.
Proof.
  revert i. induction v as [|h t IH]; intros [|i]; simpl; auto.
  - left; eexists; reflexivity.
  - destruct (IH i) as [(t' & Ht)|Ht]; rewrite Ht; simpl; auto.
    left; eexists; reflexivity.
Qed.

Lemma wr2_Ok {A : Type} (m : list (list A)) (i j : nat) (x : A) m' :
  wr2 m i j x = Ok m' ->
  length m' = length m
  /\ (exists row row', nth_error m i = Some row /\ nth_error m' i = Some row'
        /\ length row' = length row /\ nth_error row' j = Some x
        /\ forall k, k <> j -> nth_error row' k = nth_error row k)
  /\ forall k, k <> i -> nth_error m' k = nth_error m k.
Proof.
  unfold wr2. intros H. ok_inv H. rename a into row. ok_inv H. rename a into row'.
  apply rd_Ok in Ha. apply wr_Ok in Ha0. apply wr_Ok in H.
  destruct H as (Hl & Hi & Hk). destruct Ha0 as (Hl' & Hj & Hk').
  repeat split; auto. exists row, row'. auto.
Qed.

(** Invariants of a counted loop that completes. *)
Lemma for_loop_inv {S : Type} (I : nat -> S -> Prop) (body : nat -> S -> Outcome S) :
  forall n lo s s',
    for_loop n lo body s = Ok s' ->
    I lo s ->
    (forall i t t', lo <= i < lo + n -> I i t -> body i t = Ok t' -> I (Datatypes.S i) t') ->
    I (lo + n) s'.
Proof.
  induction n as [|n IH]; intros lo s s' H H0 Hstep; simpl in H.
  - inversion H; subst. rewrite Nat.add_0_r. exact H0.
  - ok_inv H. replace (lo + Datatypes.S n) with (Datatypes.S lo + n) by lia.
    apply (IH (Datatypes.S lo) a s'); auto.
    + apply (Hstep lo s a); auto. lia.
    + intros i t t' Hi. apply Hstep. lia.
Qed.

(** A counted loop completes when every pass does. *)
Lemma for_loop_total {S : Type} (I : nat -> S -> Prop) (body : nat -> S -> Outcome S) :
  forall n lo s,
    I lo s ->
    (forall i t, lo <= i < lo + n -> I i t ->
                 exists t', body i t = Ok t' /\ I (Datatypes.S i) t') ->
    exists s', for_loop n lo body s = Ok s' /\ I (lo + n) s'.
Proof.
  induction n as [|n IH]; intros lo s H0 Hstep; simpl.
  - exists s. rewrite Nat.add_0_r. auto.
  - destruct (Hstep lo s) as (t' & Hb & Ht'); [lia | exact H0 |].
    rewrite Hb. simpl.
    replace (lo + Datatypes.S n) with (Datatypes.S lo + n) by lia.
    apply IH; auto. intros i t Hi. apply Hstep. lia.
Qed.

Lemma nth_error_eq_ext {A : Type} (l l' : list A) :
  (forall n, nth_error l n = nth_error l' n) -> l = l'.
Proof.
  revert l'. induction l as [|h t IH]; intros [|h' t'] H.
  - reflexivity.
  - specialize (H 0). discriminate.
  - specialize (H 0). discriminate.
  - pose proof (H 0) as H0. simpl in H0. inversion H0; subst.
    f_equal. apply IH. intros n. exact (H (Datatypes.S n)).
Qed.

Lemma firstn_snoc {A : Type} (l : list A) (n : nat) (x : A) :
  nth_error l n = Some x -> firstn (Datatypes.S n) l = firstn n l ++ [x].
Proof.
  revert n. induction l as [|h t IH]; intros [|n] H; simpl in *; try discriminate.
  - inversion H; reflexivity.
  - f_equal. apply IH. exact H.
Qed.

Lemma nth_error_zip {A B : Type} (l1 : list A) (l2 : list B) n a b :
  nth_error l1 n = Some a -> nth_error l2 n = Some b ->
  nth_error (combine l1 l2) n = Some (a, b).
Proof.
  revert l2 n. induction l1 as [|h t IH]; intros [|h2 t2] [|n] H1 H2;
    simpl in *; try discriminate.
  - inversion H1; inversion H2; reflexivity.
  - apply IH; assumption.
Qed.

(** ** Signs of binary64 square roots *)





(** Every binary64 value is below zero, above zero, a zero, or NaN. *)
Lemma float_sign_cases (s : float) :
  (s <? 0)%float = true \/ (0 <? s)%float = true
  \/ (s =? 0)%float = true \/ is_nan s = true.
Proof.
  unfold is_nan. rewrite !FloatAxioms.ltb_spec, !FloatAxioms.eqb_spec.
  change (Prim2SF 0) with (S754_zero false).
  destruct (Prim2SF s) as [b|[|]| |[|] m e]; simpl; auto.
Qed.

(** ** The projected changes in closed form *)

Lemma accumulate_Ok ac j v acc acc' :
  accumulate ac j v acc = Ok acc' ->
  exists z a,
    nth_error (contributions ac j) v = Some (z, a)
    /\ acc' = (fst acc + z * a, snd acc + z * z * a)%float.
Proof.
  unfold accumulate, rd2. intros H.
  ok_inv H. rename a into z. ok_inv Ha. rename a into zrow.
  ok_inv H. rename a into R. ok_inv Ha1. rename a into rrow.
  ok_inv H. inversion H; subst; clear H.
  apply rd_Ok in Ha0, Ha, Ha2, Ha1, Ha3.
  exists z, a. split; [|reflexivity].
  unfold contributions.
  rewrite (nth_error_nth _ _ [] Ha0), (nth_error_nth _ _ [] Ha2).
  rewrite nth_error_map, (nth_error_zip _ _ _ _ _ Ha Ha1). simpl.
  rewrite (nth_error_nth _ _ _ Ha3). reflexivity.
Qed.

Lemma fsum_snoc (l : list float) (x : float) :
  fsum (l ++ [x]) = (fsum l + x)%float.
Proof. unfold fsum. rewrite fold_left_app. reflexivity. Qed.

Lemma dX_entry_Ok ac tau j e :
  dX_entry ac tau j = Ok e -> e = (mean_of ac tau j, sdev_of ac tau j).
Proof.
  unfold dX_entry. intros H. ok_inv H. rename a into spj. ok_inv H.
  inversion H; subst; clear H. apply rd_Ok in Ha.
  set (c := contributions ac j).
  pose (I := fun (i : nat) (acc : float * float) =>
            acc = (fsum (map (fun za => fst za * snd za)%float (firstn i c)),
                   fsum (map (fun za => fst za * fst za * snd za)%float (firstn i c)))).
  assert (Hinv : I (0 + length spj) a).
  { refine (for_loop_inv I _ _ _ _ _ Ha0 _ _); [reflexivity|].
    intros i t t' _ Ht Hb. apply accumulate_Ok in Hb.
    destruct Hb as (z & x & Hn & ->). fold c in Hn. unfold I in *.
    rewrite (firstn_snoc _ _ _ Hn), !map_app. cbn [map].
    rewrite !fsum_snoc. subst t. reflexivity. }
  unfold I in Hinv. simpl in Hinv.
  assert (Hall : firstn (length spj) c = c).
  { apply firstn_all2. unfold c, contributions.
    rewrite length_map, length_combine, (nth_error_nth _ _ [] Ha). lia. }
  rewrite Hall in Hinv. subst a. simpl.
  unfold mean_of, sdev_of, drift, spread. fold c. reflexivity.
Qed.

Lemma calc_dX_Ok ac tau mean_dX sdev_dX :
  calc_dX ac tau = Ok (mean_dX, sdev_dX) ->
  length mean_dX = length (X_eff ac) /\ length sdev_dX = length (X_eff ac)
  /\ forall j, j < length (X_eff ac) ->
       nth_error mean_dX j = Some (mean_of ac tau j)
       /\ nth_error sdev_dX j = Some (sdev_of ac tau j).
Proof.
  unfold calc_dX. set (n := length (X_eff ac)). intros H.
  pose (I := fun (i : nat) (arrs : list float * list float) =>
    length (fst arrs) = n /\ length (snd arrs) = n
    /\ forall j, j < i ->
         nth_error (fst arrs) j = Some (mean_of ac tau j)
         /\ nth_error (snd arrs) j = Some (sdev_of ac tau j)).
  assert (Hinv : I (0 + n) (mean_dX, sdev_dX)).
  { refine (for_loop_inv I _ _ _ _ _ H _ _).
    - unfold I; simpl. rewrite !repeat_length. repeat split; intros; lia.
    - intros i [m s] t' _ (Hm & Hs & Hj) Hb. unfold dX_step in Hb. simpl in Hb.
      ok_inv Hb. apply dX_entry_Ok in Ha. subst a. simpl in Hb.
      ok_inv Hb. ok_inv Hb. inversion Hb; subst; clear Hb.
      apply wr_Ok in Ha, Ha0.
      destruct Ha as (Hl1 & Hi1 & Hk1). destruct Ha0 as (Hl2 & Hi2 & Hk2).
      unfold I; simpl in *. repeat split; try congruence.
      + destruct (Nat.eq_dec j i) as [->|Hne]; [exact Hi1|].
        rewrite Hk1 by exact Hne. apply Hj. lia.
      + destruct (Nat.eq_dec j i) as [->|Hne]; [exact Hi2|].
        rewrite Hk2 by exact Hne. apply Hj. lia. }
  exact Hinv.
Qed.

(** ** The reaction-based controller *)

Section RB_facts.

Context (E : RB.Collaborators).

Lemma rd2_same_row {A : Type} (m m' : list (list A)) v j :
  nth_error m' v = nth_error m v -> rd2 m' v j = rd2 m v j.
Proof. unfold rd2, rd. intros ->. reflexivity. Qed.

Lemma rb_project_row_Ok net ac old mean_dX sdev_dX v proj proj' r :
  nth_error (rxn net) v = Some r ->
  RB.project_row net ac old mean_dX sdev_dX v proj = Ok proj' ->
  length proj' = length proj
  /\ (forall k, k <> v -> nth_error proj' k = nth_error proj k)
  /\ forall j, j < length (rateSpecies r) ->
       exists x, rd2 proj' v j = Ok x /\ rb_projected ac old mean_dX sdev_dX v j x.
Proof.
  intros Hr H. unfold RB.project_row in H. ok_inv H. apply rd_Ok in Ha.
  assert (a = r) by congruence. subst a.
  pose (I := fun (i : nat) (cur : list (list float)) =>
    length cur = length proj
    /\ (forall k, k <> v -> nth_error cur k = nth_error proj k)
    /\ forall j, j < i ->
         exists x, rd2 cur v j = Ok x /\ rb_projected ac old mean_dX sdev_dX v j x).
  assert (Hinv : I (0 + length (rateSpecies r)) proj').
  { refine (for_loop_inv I _ _ _ _ _ H _ _).
    - unfold I. repeat split; auto. intros; lia.
    - intros i cur nxt _ (Hl & Hk & Hj) Hb. unfold RB.project_entry in Hb.
      ok_inv Hb. rename a into S_j. ok_inv Hb. rename a into o.
      ok_inv Hb. rename a into m. ok_inv Hb. rename a into s.
      apply rd_Ok in Ha2, Ha3. apply wr2_Ok in Hb.
      destruct Hb as (Hl' & (row & row' & Hrow & Hrow' & Hlr & Hi & Hoth) & Hk').
      unfold I. repeat split.
      + congruence.
      + intros k Hne. rewrite Hk' by exact Hne. apply Hk. exact Hne.
      + intros j Hlt. destruct (Nat.eq_dec j i) as [->|Hne].
        * exists (o + m + s)%float. split.
          -- unfold rd2, rd. rewrite Hrow'. simpl. rewrite Hi. reflexivity.
          -- exists S_j, o, m, s. auto.
        * destruct (Hj j) as (x & Hx & Hp); [lia|]. exists x. split; [|exact Hp].
          unfold rd2, rd in *. rewrite Hrow'. rewrite Hrow in Hx. simpl in *.
          rewrite Hoth by exact Hne. exact Hx. }
  exact Hinv.
Qed.

Lemma rb_project_Ok net ac old mean_dX sdev_dX proj proj' :
  RB.project net ac old mean_dX sdev_dX proj = Ok proj' ->
  length proj' = length proj
  /\ forall v r j,
       v < length proj -> nth_error (rxn net) v = Some r ->
       j < length (rateSpecies r) ->
       exists x, rd2 proj' v j = Ok x /\ rb_projected ac old mean_dX sdev_dX v j x.
Proof.
  unfold RB.project. intros H.
  pose (I := fun (i : nat) (cur : list (list float)) =>
    length cur = length proj
    /\ forall v r j,
         v < i -> nth_error (rxn net) v = Some r -> j < length (rateSpecies r) ->
         exists x, rd2 cur v j = Ok x /\ rb_projected ac old mean_dX sdev_dX v j x).
  assert (Hinv : I (0 + length proj) proj').
  { refine (for_loop_inv I _ _ _ _ _ H _ _).
    - unfold I. split; auto. intros; lia.
    - intros i cur nxt _ (Hl & Hv) Hb.
      assert (Hb' := Hb). unfold RB.project_row in Hb'. ok_inv Hb'.
      apply rd_Ok in Ha. clear Hb'.
      destruct (rb_project_row_Ok _ _ _ _ _ _ _ _ _ Ha Hb) as (Hl' & Hk & Hj).
      unfold I. split; [congruence|].
      intros v r j Hlt Hr Hjr. destruct (Nat.eq_dec v i) as [->|Hne].
      + assert (r = a) by congruence. subst r. apply Hj. exact Hjr.
      + destruct (Hv v r j) as (x & Hx & Hp); [lia | auto | auto |].
        exists x. split; [|exact Hp].
        rewrite (rd2_same_row cur nxt v j); [exact Hx | apply Hk; exact Hne]. }
  exact Hinv.
Qed.

Lemma rb_same_config_refl t : rb_same_config t t.
Proof. unfold rb_same_config. repeat split. Qed.

Lemma rb_same_config_trans t1 t2 t3 :
  rb_same_config t1 t2 -> rb_same_config t2 t3 -> rb_same_config t1 t3.
Proof.
  unfold rb_same_config. intros (a1 & a2 & a3 & a4 & a5 & a6 & a7 & a8)
    (b1 & b2 & b3 & b4 & b5 & b6 & b7 & b8).
  repeat split; congruence.
Qed.

Lemma rb_addRxn_guard_true net t :
  rb_addRxn_guard net t = true <->
  length (RB.oldPop t) < length (rxn net)
  /\ length (RB.oldPop t) = length (RB.projPop t).
Proof.
  unfold rb_addRxn_guard. rewrite !andb_true_iff, !Nat.ltb_lt, Nat.eqb_eq. lia.
Qed.

Lemma rb_addRxn_fill_total net r :
  exists rows,
    for_loop (length (rateSpecies r)) 0 (RB.addRxn_fill net r)
      (repeat 0%float (length (rateSpecies r)), repeat 0%float (length (rateSpecies r)))
    = Ok rows.
Proof.
  set (n := length (rateSpecies r)).
  pose (I := fun (i : nat) (rows : list float * list float) =>
              length (fst rows) = n /\ length (snd rows) = n).
  destruct (for_loop_total I (RB.addRxn_fill net r) n 0 (repeat 0%float n, repeat 0%float n))
    as (rows & Hrows & _).
  - unfold I; simpl. rewrite !repeat_length. auto.
  - intros i [o pr] Hi (Ho & Hp). simpl in *. unfold RB.addRxn_fill. simpl.
    destruct (rd_lt (rateSpecies r) i) as (s & ->); [fold n; lia|]. simpl.
    destruct (wr_lt o i (pop_of net s)) as (o' & Ho'); [lia|]. rewrite Ho'. simpl.
    destruct (wr_lt pr i 0%float) as (pr' & Hp'); [lia|]. rewrite Hp'. simpl.
    exists (o', pr'). split; [reflexivity|]. unfold I; simpl.
    apply wr_Ok in Ho', Hp'. destruct Ho' as (-> & _). destruct Hp' as (-> & _). auto.
  - exists rows. exact Hrows.
Qed.

(** [addRxn()] either appends one row to each array or exits. *)
Lemma rb_addRxn_cases net t :
  (rb_addRxn_guard net t = true
   /\ exists o pr, RB.addRxn net t
        = Ok (RB.set_projPop (RB.projPop t ++ [pr]) (RB.set_oldPop (RB.oldPop t ++ [o]) t)))
  \/ (rb_addRxn_guard net t = false
      /\ RB.addRxn net t
         = Exit 1 (no_rxns_to_add (length (RB.oldPop t)) (length (RB.projPop t))
                     (length (rxn net)))).
Proof.
  unfold RB.addRxn. fold (rb_addRxn_guard net t).
  destruct (rb_addRxn_guard net t) eqn:Hg; [left | right; auto].
  split; [reflexivity|]. apply rb_addRxn_guard_true in Hg. destruct Hg as (Hlt & _).
  destruct (rd_lt (rxn net) (length (RB.oldPop t)) Hlt) as (r & ->). simpl.
  destruct (rb_addRxn_fill_total net r) as (rows & ->). simpl.
  exists (fst rows), (snd rows). reflexivity.
Qed.

Lemma rb_addRxn_Ok net t t' :
  RB.addRxn net t = Ok t' ->
  length (RB.oldPop t) < length (rxn net)
  /\ length (RB.oldPop t) = length (RB.projPop t)
  /\ length (RB.oldPop t') = S (length (RB.oldPop t))
  /\ length (RB.projPop t') = S (length (RB.projPop t))
  /\ RB.aCalc t' = RB.aCalc t /\ rb_same_config t t'.
Proof.
  intros H. destruct (rb_addRxn_cases net t) as [(Hg & o & pr & Heq)|(_ & Heq)];
    rewrite Heq in H; [|discriminate].
  inversion H; subst; clear H. apply rb_addRxn_guard_true in Hg.
  simpl. rewrite !length_app. simpl.
  repeat split; try lia.
Qed.

Lemma rb_behind_false net t :
  RB.behind net t = false <->
  length (RB.oldPop t) = length (rxn net) \/ length (RB.projPop t) = length (rxn net).
Proof.
  unfold RB.behind. rewrite andb_false_iff, !negb_false_iff, !Nat.eqb_eq. tauto.
Qed.

Lemma rb_catchUp_loop_noop fuel net t :
  RB.behind net t = false -> RB.catchUp_loop fuel net t = Ok t.
Proof. intros H. destruct fuel; simpl; rewrite H; reflexivity. Qed.

Lemma rb_catchUp_loop_Ok fuel net t t' :
  RB.catchUp_loop fuel net t = Ok t' ->
  RB.behind net t' = false
  /\ (RB.registry_ok t -> RB.registry_ok t')
  /\ (RB.behind net t = true -> RB.registry_ok t')
  /\ RB.aCalc t' = RB.aCalc t /\ rb_same_config t t'
  /\ firstn (length (RB.oldPop t)) (RB.oldPop t') = RB.oldPop t.
Proof.
  revert t. induction fuel as [|fuel IH]; intros t H; simpl in H;
    destruct (RB.behind net t) eqn:Hb; try discriminate.
  - inversion H; subst. repeat split; auto using rb_same_config_refl; try discriminate.
    apply firstn_all.
  - ok_inv H. destruct (rb_addRxn_cases net t) as [(Hg & o & pr & Heq)|(_ & Heq)];
      rewrite Heq in Ha; [|discriminate].
    inversion Ha; subst a; clear Ha. apply rb_addRxn_guard_true in Hg.
    apply IH in H. destruct H as (H1 & H2 & H3 & H4 & H5 & H6).
    assert (Hok : RB.registry_ok
              (RB.set_projPop (RB.projPop t ++ [pr]) (RB.set_oldPop (RB.oldPop t ++ [o]) t))).
    { unfold RB.registry_ok. simpl. rewrite !length_app. simpl. lia. }
    refine (conj H1 (conj (fun _ => H2 Hok) (conj (fun _ => H2 Hok)
              (conj H4 (conj H5 _))))).
    simpl in H6. rewrite length_app in H6. simpl in H6.
      apply (f_equal (firstn (length (RB.oldPop t)))) in H6.
      rewrite firstn_firstn in H6.
      replace (Init.Nat.min (length (RB.oldPop t)) (length (RB.oldPop t) + 1))
        with (length (RB.oldPop t)) in H6 by lia.
      rewrite H6, firstn_app, Nat.sub_diag, firstn_all. simpl. apply app_nil_r.
  - inversion H; subst. repeat split; auto using rb_same_config_refl; try discriminate.
    apply firstn_all.
Qed.

(** The catch-up loop always ends: with a synchronised registry or by
    [exit(1)], never out of fuel. *)
Lemma rb_catchUp_loop_total fuel net t :
  length (rxn net) - length (RB.oldPop t) < fuel ->
  (exists t', RB.catchUp_loop fuel net t = Ok t')
  \/ (exists d, RB.catchUp_loop fuel net t = Exit 1 d).
Proof.
  revert t. induction fuel as [|fuel IH]; intros t Hf; [lia|].
  simpl. destruct (RB.behind net t) eqn:Hb; [|left; eexists; reflexivity].
  destruct (rb_addRxn_cases net t) as [(Hg & o & pr & Heq)|(_ & Heq)]; rewrite Heq; simpl.
  - apply rb_addRxn_guard_true in Hg. apply IH. simpl. rewrite length_app. simpl. lia.
  - right. eexists; reflexivity.
Qed.

Lemma rb_catchUp_total net t :
  (exists t', RB.catchUp net t = Ok t') \/ (exists d, RB.catchUp net t = Exit 1 d).
Proof. apply rb_catchUp_loop_total. lia. Qed.

(** The loop of the constructors fills an empty registry. *)
Lemma rb_add_all_total net t :
  RB.oldPop t = [] -> RB.projPop t = [] ->
  exists t', RB.add_all net t = Ok t'
    /\ length (RB.oldPop t') = length (rxn net)
    /\ length (RB.projPop t') = length (rxn net)
    /\ RB.aCalc t' = RB.aCalc t /\ rb_same_config t t'.
Proof.
  intros Ho Hp. unfold RB.add_all.
  pose (I := fun (i : nat) (c : RB.eRungeKutta_TC_FG_rbPL) =>
    length (RB.oldPop c) = i /\ length (RB.projPop c) = i
    /\ RB.aCalc c = RB.aCalc t /\ rb_same_config t c).
  destruct (for_loop_total I (fun _ c => RB.addRxn net c) (length (rxn net)) 0 t)
    as (t' & Ht' & Hi).
  - unfold I. rewrite Ho, Hp. auto using rb_same_config_refl.
  - intros i c Hi (H1 & H2 & H3 & H4).
    destruct (rb_addRxn_cases net c) as [(Hg & o & pr & Heq)|(Hg & _)].
    + rewrite Heq. eexists; split; [reflexivity|]. unfold I. simpl.
      rewrite !length_app. simpl. repeat split; try lia; try apply H4. exact H3.
    + exfalso. assert (rb_addRxn_guard net c = true); [|congruence].
      apply rb_addRxn_guard_true. lia.
  - exists t'. destruct Hi as (H1 & H2 & H3 & H4). simpl in *. auto.
Qed.

(** One pass of the pre-check: what it leaves in the controller. *)
Lemma rb_trial_Ok net t tau t' ok :
  RB.trial E net t tau = Ok (t', ok) ->
  RB.aCalc t' = RB.calc_aEff E net tau (RB.aCalc t)
  /\ RB.oldPop t' = RB.oldPop t
  /\ length (RB.projPop t') = length (RB.projPop t)
  /\ rb_same_config t t'
  /\ ok = RB.RBChecker_check E (RB.ch t) net 1 (a_eff (RB.aCalc t')) (RB.projPop t') false
  /\ forall v r j,
       v < length (RB.projPop t) -> nth_error (rxn net) v = Some r ->
       j < length (rateSpecies r) ->
       exists S_j o,
         rd2 (rateSp (RB.aCalc t')) v j = Ok S_j
         /\ rd2 (RB.oldPop t) v j = Ok o
         /\ rd2 (RB.projPop t') v j
            = Ok (o + mean_of (RB.aCalc t') tau S_j + sdev_of (RB.aCalc t') tau S_j)%float.
Proof.
  unfold RB.trial. intros H. ok_inv H. destruct a as [mean_dX sdev_dX].
  ok_inv H. rename a into proj. inversion H; subst; clear H. simpl in *.
  apply calc_dX_Ok in Ha. destruct Ha as (Hlm & Hls & Hent).
  apply rb_project_Ok in Ha0. destruct Ha0 as (Hl & Hproj).
  refine (conj eq_refl (conj eq_refl (conj Hl (conj (rb_same_config_refl _)
            (conj eq_refl _))))).
  intros v r j Hv Hr Hj.
  destruct (Hproj v r j Hv Hr Hj) as (x & Hx & S_j & o & m & s & HS & Ho & Hm & Hs & ->).
  assert (HSlt : S_j < length (X_eff (RB.calc_aEff E net tau (RB.aCalc t)))).
  { rewrite <- Hlm. apply nth_error_Some. congruence. }
  destruct (Hent S_j HSlt) as (Hm' & Hs').
  exists S_j, o. repeat split; auto. rewrite Hx. congruence.
Qed.

Lemma rb_trials_snoc p tau n :
  trials p tau (S n)
  = trials p tau n ++ [aCalc_calc_aEff (shrunk p tau n); ch_check 1 false].
Proof.
  revert tau. induction n as [|n IH]; intros tau; [reflexivity|].
  change (trials p tau (S (S n)))
    with (aCalc_calc_aEff tau :: ch_check 1 false :: trials p (tau * p)%float (S n)).
  rewrite IH. reflexivity.
Qed.

(** The pre-check, when it returns: the tau it returns is the first of the
    shrink sequence that the checker accepted, and the calls it made are one
    [calc_aEff] and one [check] per trial. *)
Lemma rb_preCheck_Ok fuel net t tau calls t' tau' calls' :
  RB.preCheck E fuel net t tau calls = Ok (t', tau', calls') ->
  exists k,
    k < fuel /\ tau' = shrunk (RB.p t) tau k
    /\ calls' = calls ++ trials (RB.p t) tau (S k)
    /\ RB.oldPop t' = RB.oldPop t
    /\ length (RB.projPop t') = length (RB.projPop t)
    /\ rb_same_config t t'
    /\ exists t0, RB.trial E net t0 tau' = Ok (t', true).
Proof.
  revert t tau calls. induction fuel as [|fuel IH]; intros t tau calls H; simpl in H;
    [discriminate|].
  ok_inv H. destruct a as [t1 ok]. simpl in H.
  destruct (rb_trial_Ok _ _ _ _ _ Ha) as (Hac & Hold & Hlen & Hcfg & Hok & _).
  destruct ok.
  - inversion H; subst t' tau' calls'; clear H. exists 0.
    repeat split; auto; try lia; try apply Hcfg. exists t. exact Ha.
  - apply IH in H. destruct H as (k & Hk & Htau & Hcalls & Ho & Hl & Hc & Hlast).
    assert (Hp : RB.p t1 = RB.p t) by apply Hcfg. rewrite Hp in *.
    exists (S k). split; [lia|]. split; [exact Htau|]. split.
    { rewrite Hcalls, <- app_assoc. reflexivity. }
    split; [congruence|]. split; [congruence|].
    split; [exact (rb_same_config_trans _ _ _ Hcfg Hc) | exact Hlast].
Qed.

(** The pre-check returns as soon as a trial is accepted. *)
Lemma rb_preCheck_accept fuel net t tau calls t' :
  RB.trial E net t tau = Ok (t', true) ->
  RB.preCheck E (S fuel) net t tau calls
  = Ok (t', tau, calls ++ [aCalc_calc_aEff tau; ch_check 1 false]).
Proof. intros H. simpl. rewrite H. reflexivity. Qed.

Lemma rb_preCheck_reject fuel net t tau calls t' :
  RB.trial E net t tau = Ok (t', false) ->
  RB.preCheck E (S fuel) net t tau calls
  = RB.preCheck E fuel net t' (tau * RB.p t')%float
      (calls ++ [aCalc_calc_aEff tau; ch_check 1 false]).
Proof. intros H. simpl. rewrite H. reflexivity. Qed.

Lemma rb_firstTau_Ok net t tau t1 tau1 pre :
  RB.firstTau E net t tau = Ok (t1, tau1, pre) ->
  RB.preCalc t1 = false
  /\ RB.oldPop t1 = RB.oldPop t /\ RB.projPop t1 = RB.projPop t
  /\ RB.p t1 = RB.p t /\ RB.aCalc t1 = RB.aCalc t
  /\ RB.substantially t1 = RB.substantially t
  /\ ((RB.preCalc t = true /\ tau1 = RB.Preleap_TC_getNewTau E net tau
       /\ pre = [ptc_getNewTau tau])
      \/ (RB.preCalc t = false /\ RB.substantially t = Some true
          /\ tau1 = (tau * RB.q t)%float /\ pre = [])
      \/ (RB.preCalc t = false /\ RB.substantially t = Some false
          /\ tau1 = (tau * RB.pp t)%float /\ pre = [])).
Proof.
  unfold RB.firstTau. destruct (RB.preCalc t) eqn:Hpc.
  - intros H. inversion H; subst; clear H. simpl.
    refine (conj eq_refl (conj eq_refl (conj eq_refl (conj eq_refl (conj eq_refl
              (conj eq_refl _)))))).
    left. auto.
  - destruct (RB.substantially t) as [[|]|] eqn:Hs; intros H; inversion H; subst; clear H;
      refine (conj Hpc (conj eq_refl (conj eq_refl (conj eq_refl (conj eq_refl
                (conj Hs _))))));
      right; [left | right]; auto.
Qed.
Lemma rb_proposed_same net t t1 tau :
  rb_same_config t t1 -> rb_proposed E net t1 tau = rb_proposed E net t tau.
Proof.
  intros (H1 & H2 & H3 & H4 & H5 & H6 & _). unfold rb_proposed.
  rewrite H2, H3, H5, H6. reflexivity.
Qed.

(** [getNewTau], when it returns. *)
Lemma rb_getNewTau_Ok fuel net t tau t' tau' calls :
  RB.getNewTau E fuel net t tau = Ok (t', tau', calls) ->
  exists t1 k,
    RB.catchUp net t = Ok t1
    /\ k < fuel
    /\ tau' = shrunk (RB.p t) (rb_proposed E net t tau) k
    /\ calls = (if RB.preCalc t then [ptc_getNewTau tau] else [])
               ++ trials (RB.p t) (rb_proposed E net t tau) (S k)
    /\ RB.preCalc t' = false
    /\ RB.substantially t' = RB.substantially t
    /\ RB.oldPop t' = RB.oldPop t1
    /\ length (RB.projPop t') = length (RB.projPop t1)
    /\ (RB.preCalc t = false -> RB.substantially t <> None).
Proof.
  unfold RB.getNewTau. intros H. ok_inv H. rename a into t1.
  ok_inv H. destruct a as [[t2 tau1] pre]. simpl in H.
  destruct (rb_catchUp_loop_Ok _ _ _ _ Ha) as (_ & _ & _ & _ & Hcfg & _).
  destruct (rb_firstTau_Ok _ _ _ _ _ _ Ha0) as (Hpc & Ho & Hpr & Hp & _ & Hs & Hcase).
  destruct (rb_preCheck_Ok _ _ _ _ _ _ _ _ H)
    as (k & Hk & Htau & Hcalls & Ho' & Hl' & Hc' & _).
  assert (Hpt : RB.p t1 = RB.p t) by apply Hcfg.
  assert (Hpct : RB.preCalc t1 = RB.preCalc t) by apply Hcfg.
  assert (Hst : RB.substantially t1 = RB.substantially t) by apply Hcfg.
  assert (Htau1 : tau1 = rb_proposed E net t tau
                  /\ pre = (if RB.preCalc t then [ptc_getNewTau tau] else [])
                  /\ (RB.preCalc t = false -> RB.substantially t <> None)).
  { rewrite <- (rb_proposed_same net t t1 tau Hcfg), <- Hpct, <- Hst. unfold rb_proposed.
    destruct Hcase as [(-> & -> & ->)|[(-> & -> & -> & ->)|(-> & -> & -> & ->)]];
      repeat split; auto; discriminate. }
  destruct Htau1 as (-> & -> & Hnone).
  exists t1, k. rewrite Hp, Hpt in *.
  repeat split; auto; try congruence.
  - destruct Hc' as (_ & _ & _ & _ & -> & _). exact Hpc.
  - destruct Hc' as (_ & _ & _ & _ & _ & -> & _). congruence.
Qed.

(** [check()], when it returns. *)
Lemma rb_check_Ok net t ok t' calls :
  RB.check E net t = Ok (ok, t', calls) ->
  exists t1,
    RB.catchUp net t = Ok t1
    /\ t' = RB.set_substantially
              (Some (RB.RBChecker_check E (RB.ch t1) net (RB.w t1) (a_eff (RB.aCalc t1))
                       (RB.oldPop t1) true)) t1
    /\ ((RB.RBChecker_check E (RB.ch t1) net (RB.w t1) (a_eff (RB.aCalc t1))
           (RB.oldPop t1) true = true
         /\ ok = true /\ calls = [ch_check (RB.w t1) true])
        \/ (RB.RBChecker_check E (RB.ch t1) net (RB.w t1) (a_eff (RB.aCalc t1))
              (RB.oldPop t1) true = false
            /\ ok = RB.RBChecker_check E (RB.ch t1) net 1 (a_eff (RB.aCalc t1))
                      (RB.oldPop t1) true
            /\ calls = [ch_check (RB.w t1) true; ch_check 1 true])).
Proof.
  unfold RB.check. intros H. ok_inv H. rename a into t1. exists t1.
  split; [exact Ha|].
  destruct (RB.RBChecker_check E (RB.ch t1) net (RB.w t1) (a_eff (RB.aCalc t1))
              (RB.oldPop t1) true) eqn:Hs;
    simpl in H; inversion H; subst; clear H; split; auto.
Qed.

Lemma rb_update_row_Ok net v r old old' :
  nth_error (rxn net) v = Some r ->
  RB.update_row net v old = Ok old' ->
  length old' = length old
  /\ (forall k, k <> v -> nth_error old' k = nth_error old k)
  /\ forall j s, nth_error (rateSpecies r) j = Some s ->
       rd2 old' v j = Ok (pop_of net s).
Proof.
  intros Hr H. unfold RB.update_row in H. ok_inv H. apply rd_Ok in Ha.
  assert (a = r) by congruence. subst a.
  pose (I := fun (i : nat) (cur : list (list float)) =>
    length cur = length old
    /\ (forall k, k <> v -> nth_error cur k = nth_error old k)
    /\ forall j s, j < i -> nth_error (rateSpecies r) j = Some s ->
         rd2 cur v j = Ok (pop_of net s)).
  assert (Hinv : I (0 + length (rateSpecies r)) old').
  { refine (for_loop_inv I _ _ _ _ _ H _ _).
    - unfold I. repeat split; auto. intros; lia.
    - intros i cur nxt _ (Hl & Hk & Hj) Hb. unfold RB.update_entry in Hb.
      ok_inv Hb. rename a into s. apply rd_Ok in Ha0. apply wr2_Ok in Hb.
      destruct Hb as (Hl' & (row & row' & Hrow & Hrow' & Hlr & Hi & Hoth) & Hk').
      unfold I. repeat split.
      + congruence.
      + intros k Hne. rewrite Hk' by exact Hne. apply Hk. exact Hne.
      + intros j s' Hlt Hs'. destruct (Nat.eq_dec j i) as [->|Hne].
        * assert (s' = s) by congruence. subst s'.
          unfold rd2, rd. rewrite Hrow'. simpl. rewrite Hi. reflexivity.
        * assert (Hx : rd2 cur v j = Ok (pop_of net s')) by (apply Hj; [lia|auto]).
          unfold rd2, rd in *. rewrite Hrow'. rewrite Hrow in Hx. simpl in *.
          rewrite Hoth by exact Hne. exact Hx. }
  destruct Hinv as (H1 & H2 & H3). repeat split; auto.
  intros j s Hs. apply H3; [|exact Hs]. simpl. apply nth_error_Some. congruence.
Qed.

Lemma rb_update_rows_Ok net old old' :
  for_loop (length old) 0 (RB.update_row net) old = Ok old' ->
  length old' = length old
  /\ forall v r j s,
       v < length old -> nth_error (rxn net) v = Some r ->
       nth_error (rateSpecies r) j = Some s ->
       rd2 old' v j = Ok (pop_of net s).
Proof.
  intros H.
  pose (I := fun (i : nat) (cur : list (list float)) =>
    length cur = length old
    /\ forall v r j s,
         v < i -> nth_error (rxn net) v = Some r ->
         nth_error (rateSpecies r) j = Some s ->
         rd2 cur v j = Ok (pop_of net s)).
  assert (Hinv : I (0 + length old) old').
  { refine (for_loop_inv I _ _ _ _ _ H _ _).
    - unfold I. split; auto. intros; lia.
    - intros i cur nxt _ (Hl & Hv) Hb.
      assert (Hb' := Hb). unfold RB.update_row in Hb'. ok_inv Hb'.
      apply rd_Ok in Ha. clear Hb'.
      destruct (rb_update_row_Ok _ _ _ _ _ Ha Hb) as (Hl' & Hk & Hj).
      unfold I. split; [congruence|].
      intros v r j s Hlt Hr Hs. destruct (Nat.eq_dec v i) as [->|Hne].
      + assert (r = a) by congruence. subst r. apply Hj. exact Hs.
      + rewrite (rd2_same_row cur nxt v j); [|apply Hk; exact Hne].
        apply (Hv v r j s); auto. lia. }
  exact Hinv.
Qed.

(** [update()], when it returns. *)
Lemma rb_update_Ok net t t' :
  RB.update net t = Ok t' ->
  length (RB.oldPop t') = length (rxn net)
  /\ length (RB.oldPop t) = length (rxn net)
  /\ length (RB.projPop t) = length (rxn net)
  /\ (forall v r j s,
        nth_error (rxn net) v = Some r -> nth_error (rateSpecies r) j = Some s ->
        rd2 (RB.oldPop t') v j = Ok (pop_of net s))
  /\ RB.projPop t' = RB.projPop t /\ RB.aCalc t' = RB.aCalc t
  /\ rb_same_config t t'.
Proof.
  unfold RB.update. intros H. ok_inv H. rename a into old.
  apply rb_update_rows_Ok in Ha. destruct Ha as (Hl & Hv). simpl in H.
  destruct (length old =? length (rxn net)) eqn:H1; simpl in H; [|discriminate].
  destruct (length (RB.projPop t) =? length (rxn net)) eqn:H2; simpl in H;
    [|discriminate].
  inversion H; subst; clear H. simpl.
  apply Nat.eqb_eq in H1, H2.
  refine (conj H1 (conj _ (conj H2 (conj _ (conj eq_refl (conj eq_refl
            (rb_same_config_refl _))))))); [congruence|].
  intros v r j s Hr Hs. apply (Hv v r j s); auto.
  rewrite <- Hl, H1. apply nth_error_Some. congruence.
Qed.

(** The registry size invariant holds of every controller a driver can hold. *)
Lemma rb_reachable_registry_ok t : RB.reachable E t -> RB.registry_ok t.
Proof.
  induction 1 as [base eps p0 pp0 q0 w0 net t H
                 | net orig t _ _ H
                 | fuel net t tau t' tau' calls _ IH H
                 | net t ok t' calls _ IH H
                 | net t t' _ IH H].
  - unfold RB.construct in H.
    destruct (pp0 <? p0)%float; [discriminate|].
    destruct (q0 <? 1)%float; [discriminate|].
    destruct ((w0 <=? 0)%float || (1 <=? w0)%float); [discriminate|].
    ok_inv H. ok_inv H.
    match type of H with RB.add_all net ?c = _ =>
      destruct (rb_add_all_total net c eq_refl eq_refl) as (t1 & Ht1 & Ho & Hp & _)
    end.
    rewrite Ht1 in H. inversion H; subst. unfold RB.registry_ok. congruence.
  - unfold RB.copy in H.
    match type of H with RB.add_all net ?c = _ =>
      destruct (rb_add_all_total net c eq_refl eq_refl) as (t1 & Ht1 & Ho & Hp & _)
    end.
    rewrite Ht1 in H. inversion H; subst. unfold RB.registry_ok. congruence.
  - destruct (rb_getNewTau_Ok _ _ _ _ _ _ _ H)
      as (t1 & k & Hc & _ & _ & _ & _ & _ & Ho & Hl & _).
    destruct (rb_catchUp_loop_Ok _ _ _ _ Hc) as (_ & Hreg & _).
    specialize (Hreg IH). unfold RB.registry_ok in *. congruence.
  - destruct (rb_check_Ok _ _ _ _ _ H) as (t1 & Hc & -> & _).
    destruct (rb_catchUp_loop_Ok _ _ _ _ Hc) as (_ & Hreg & _).
    exact (Hreg IH).
  - destruct (rb_update_Ok _ _ _ H) as (Ho & _ & Hp & _ & Hpp & _).
    unfold RB.registry_ok. congruence.
Qed.

End RB_facts.

(** ** The species-based controller *)

Section SB_facts.

Context (E : SB.Collaborators).

Lemma sb_same_config_refl t : sb_same_config t t.
Proof. unfold sb_same_config. repeat split. Qed.

Lemma sb_same_config_trans t1 t2 t3 :
  sb_same_config t1 t2 -> sb_same_config t2 t3 -> sb_same_config t1 t3.
Proof.
  unfold sb_same_config. intros (a1 & a2 & a3 & a4 & a5 & a6 & a7 & a8 & a9)
    (b1 & b2 & b3 & b4 & b5 & b6 & b7 & b8 & b9).
  repeat split; congruence.
Qed.

Lemma sb_addSpecies_guard_true net t :
  sb_addSpecies_guard net t = true <->
  length (SB.oldPop t) < length (sp net) /\ SB.registry_ok t.
Proof.
  unfold sb_addSpecies_guard, SB.registry_ok.
  rewrite !andb_true_iff, !Nat.ltb_lt, !Nat.eqb_eq. tauto.
Qed.

(** [addSpecies()] either appends one entry to each array or exits. *)
Lemma sb_addSpecies_cases net t :
  (sb_addSpecies_guard net t = true
   /\ exists s, nth_error (sp net) (length (SB.oldPop t)) = Some s
        /\ SB.addSpecies E net t
           = Ok (SB.set_registry (SB.oldPop t ++ [pop_of net s])
                   (SB.old_g t ++ [SB.get_g E (SB.gGet t) net (length (SB.oldPop t))])
                   (SB.projPop t ++ [0%float]) t))
  \/ (sb_addSpecies_guard net t = false
      /\ SB.addSpecies E net t
         = Exit 1 (no_species_to_add (length (SB.oldPop t)) (length (SB.old_g t))
                     (length (SB.projPop t)) (length (sp net)))).
Proof.
  unfold SB.addSpecies. fold (sb_addSpecies_guard net t).
  destruct (sb_addSpecies_guard net t) eqn:Hg; [left | right; auto].
  split; [reflexivity|]. apply sb_addSpecies_guard_true in Hg. destruct Hg as (Hlt & _).
  destruct (rd_lt (sp net) (length (SB.oldPop t)) Hlt) as (s & Hs).
  rewrite Hs. simpl. exists s. split; [apply rd_Ok; exact Hs | reflexivity].
Qed.

Lemma sb_behind_false net t :
  SB.behind net t = false <->
  length (SB.oldPop t) = length (sp net) \/ length (SB.old_g t) = length (sp net)
  \/ length (SB.projPop t) = length (sp net).
Proof.
  unfold SB.behind. rewrite !andb_false_iff, !negb_false_iff, !Nat.eqb_eq. tauto.
Qed.

Lemma sb_catchUp_loop_noop fuel net t :
  SB.behind net t = false -> SB.catchUp_loop E fuel net t = Ok t.
Proof. intros H. destruct fuel; simpl; rewrite H; reflexivity. Qed.

Lemma sb_catchUp_loop_Ok fuel net t t' :
  SB.catchUp_loop E fuel net t = Ok t' ->
  SB.behind net t' = false
  /\ (SB.registry_ok t -> SB.registry_ok t')
  /\ SB.aCalc t' = SB.aCalc t /\ sb_same_config t t'
  /\ firstn (length (SB.oldPop t)) (SB.oldPop t') = SB.oldPop t.
Proof.
  revert t. induction fuel as [|fuel IH]; intros t H; simpl in H;
    destruct (SB.behind net t) eqn:Hb; try discriminate.
  - inversion H; subst.
    refine (conj Hb (conj (fun x => x) (conj eq_refl (conj (sb_same_config_refl _) _)))).
    apply firstn_all.
  - ok_inv H. destruct (sb_addSpecies_cases net t) as [(Hg & s & Hs & Heq)|(_ & Heq)];
      rewrite Heq in Ha; [|discriminate].
    inversion Ha; subst a; clear Ha. apply sb_addSpecies_guard_true in Hg.
    destruct Hg as (Hlt & Hg1 & Hg2).
    apply IH in H. destruct H as (H1 & H2 & H4 & H5 & H6).
    match type of H2 with ?P -> _ => assert (Hok : P) end.
    { unfold SB.registry_ok. simpl. rewrite !length_app. simpl. lia. }
    refine (conj H1 (conj (fun _ => H2 Hok) (conj H4 (conj H5 _)))).
    simpl in H6. rewrite length_app in H6. simpl in H6.
    apply (f_equal (firstn (length (SB.oldPop t)))) in H6.
    rewrite firstn_firstn in H6.
    replace (Init.Nat.min (length (SB.oldPop t)) (length (SB.oldPop t) + 1))
      with (length (SB.oldPop t)) in H6 by lia.
    rewrite H6, firstn_app, Nat.sub_diag, firstn_all. simpl. apply app_nil_r.
  - inversion H; subst.
    refine (conj Hb (conj (fun x => x) (conj eq_refl (conj (sb_same_config_refl _) _)))).
    apply firstn_all.
Qed.

Lemma sb_catchUp_loop_total fuel net t :
  length (sp net) - length (SB.oldPop t) < fuel ->
  (exists t', SB.catchUp_loop E fuel net t = Ok t')
  \/ (exists d, SB.catchUp_loop E fuel net t = Exit 1 d).
Proof.
  revert t. induction fuel as [|fuel IH]; intros t Hf; [lia|].
  simpl. destruct (SB.behind net t) eqn:Hb; [|left; eexists; reflexivity].
  destruct (sb_addSpecies_cases net t) as [(Hg & s & _ & Heq)|(_ & Heq)];
    rewrite Heq; simpl.
  - apply sb_addSpecies_guard_true in Hg. apply IH. simpl. rewrite length_app. simpl. lia.
  - right. eexists; reflexivity.
Qed.

Lemma sb_catchUp_total net t :
  (exists t', SB.catchUp E net t = Ok t') \/ (exists d, SB.catchUp E net t = Exit 1 d).
Proof. apply sb_catchUp_loop_total. lia. Qed.

Lemma sb_add_all_total net t :
  SB.oldPop t = [] -> SB.old_g t = [] -> SB.projPop t = [] ->
  exists t', SB.add_all E net t = Ok t'
    /\ length (SB.oldPop t') = length (sp net)
    /\ length (SB.old_g t') = length (sp net)
    /\ length (SB.projPop t') = length (sp net)
    /\ SB.aCalc t' = SB.aCalc t /\ sb_same_config t t'.
Proof.
  intros Ho Hg Hp. unfold SB.add_all.
  pose (I := fun (i : nat) (c : SB.eRungeKutta_TC_FG_sbPL) =>
    length (SB.oldPop c) = i /\ length (SB.old_g c) = i /\ length (SB.projPop c) = i
    /\ SB.aCalc c = SB.aCalc t /\ sb_same_config t c).
  destruct (for_loop_total I (fun _ c => SB.addSpecies E net c) (length (sp net)) 0 t)
    as (t' & Ht' & Hi).
  - unfold I. rewrite Ho, Hg, Hp. auto 6 using sb_same_config_refl.
  - intros i c Hi (H1 & H2 & H3 & H4 & H5).
    destruct (sb_addSpecies_cases net c) as [(_ & s & _ & Heq)|(Hgd & _)].
    + rewrite Heq. eexists; split; [reflexivity|]. unfold I. simpl.
      rewrite !length_app. simpl.
      refine (conj _ (conj _ (conj _ (conj H4 H5)))); lia.
    + exfalso. assert (sb_addSpecies_guard net c = true); [|congruence].
      apply sb_addSpecies_guard_true. unfold SB.registry_ok. lia.
  - exists t'. destruct Hi as (H1 & H2 & H3 & H4 & H5). simpl in *. auto 6.
Qed.

Lemma sb_project_Ok old mean_dX sdev_dX proj proj' :
  SB.project old mean_dX sdev_dX proj = Ok proj' ->
  length proj' = length proj
  /\ forall j, j < length proj ->
       exists o m s,
         nth_error old j = Some o /\ nth_error mean_dX j = Some m
         /\ nth_error sdev_dX j = Some s
         /\ nth_error proj' j = Some (o + m + s)%float.
Proof.
  unfold SB.project. intros H.
  pose (I := fun (i : nat) (cur : list float) =>
    length cur = length proj
    /\ forall j, j < i ->
         exists o m s,
           nth_error old j = Some o /\ nth_error mean_dX j = Some m
           /\ nth_error sdev_dX j = Some s
           /\ nth_error cur j = Some (o + m + s)%float).
  assert (Hinv : I (0 + length proj) proj').
  { refine (for_loop_inv I _ _ _ _ _ H _ _).
    - unfold I. split; auto. intros; lia.
    - intros i cur nxt _ (Hl & Hj) Hb. unfold SB.project_entry in Hb.
      ok_inv Hb. rename a into o. ok_inv Hb. rename a into m.
      ok_inv Hb. rename a into s. apply rd_Ok in Ha, Ha0, Ha1.
      apply wr_Ok in Hb. destruct Hb as (Hl' & Hi & Hk).
      unfold I. split; [congruence|].
      intros j Hlt. destruct (Nat.eq_dec j i) as [->|Hne].
      + exists o, m, s. auto.
      + destruct (Hj j) as (o' & m' & s' & H1 & H2 & H3 & H4); [lia|].
        exists o', m', s'. rewrite Hk by exact Hne. auto. }
  exact Hinv.
Qed.

Lemma sb_trial_Ok net t tau t' ok :
  SB.trial E net t tau = Ok (t', ok) ->
  SB.aCalc t' = SB.calc_aEff E net tau (SB.aCalc t)
  /\ SB.oldPop t' = SB.oldPop t /\ SB.old_g t' = SB.old_g t
  /\ length (SB.projPop t') = length (SB.projPop t)
  /\ sb_same_config t t'
  /\ ok = SB.SBChecker_check E (SB.ch t) net 1 (X_eff (SB.aCalc t')) (SB.projPop t')
            (SB.old_g t) false
  /\ forall j, j < length (SB.projPop t) ->
       exists o,
         nth_error (SB.oldPop t) j = Some o
         /\ nth_error (SB.projPop t') j
            = Some (o + mean_of (SB.aCalc t') tau j + sdev_of (SB.aCalc t') tau j)%float.
Proof.
  unfold SB.trial. intros H. ok_inv H. destruct a as [mean_dX sdev_dX].
  ok_inv H. rename a into proj. inversion H; subst; clear H. simpl in *.
  apply calc_dX_Ok in Ha. destruct Ha as (Hlm & Hls & Hent).
  apply sb_project_Ok in Ha0. destruct Ha0 as (Hl & Hproj).
  refine (conj eq_refl (conj eq_refl (conj eq_refl (conj Hl
            (conj (sb_same_config_refl _) (conj eq_refl _)))))).
  intros j Hj. destruct (Hproj j Hj) as (o & m & s & Ho & Hm & Hs & Hp).
  assert (Hjlt : j < length (X_eff (SB.calc_aEff E net tau (SB.aCalc t)))).
  { rewrite <- Hlm. apply nth_error_Some. congruence. }
  destruct (Hent j Hjlt) as (Hm' & Hs').
  exists o. split; [exact Ho|]. rewrite Hp. congruence.
Qed.

Lemma sb_preCheck_Ok fuel net t tau calls t' tau' calls' :
  SB.preCheck E fuel net t tau calls = Ok (t', tau', calls') ->
  exists k,
    k < fuel /\ tau' = shrunk (SB.p t) tau k
    /\ calls' = calls ++ trials (SB.p t) tau (S k)
    /\ SB.oldPop t' = SB.oldPop t /\ SB.old_g t' = SB.old_g t
    /\ length (SB.projPop t') = length (SB.projPop t)
    /\ sb_same_config t t'
    /\ exists t0, SB.trial E net t0 tau' = Ok (t', true).
Proof.
  revert t tau calls. induction fuel as [|fuel IH]; intros t tau calls H; simpl in H;
    [discriminate|].
  ok_inv H. destruct a as [t1 ok]. simpl in H.
  destruct (sb_trial_Ok _ _ _ _ _ Ha) as (Hac & Hold & Hg & Hlen & Hcfg & Hok & _).
  destruct ok.
  - inversion H; subst t' tau' calls'; clear H. exists 0.
    repeat split; auto; try lia; try apply Hcfg. exists t. exact Ha.
  - apply IH in H. destruct H as (k & Hk & Htau & Hcalls & Ho & Hg' & Hl & Hc & Hlast).
    assert (Hp : SB.p t1 = SB.p t) by apply Hcfg. rewrite Hp in *.
    exists (S k). split; [lia|]. split; [exact Htau|]. split.
    { rewrite Hcalls, <- app_assoc. reflexivity. }
    split; [congruence|]. split; [congruence|]. split; [congruence|].
    split; [exact (sb_same_config_trans _ _ _ Hcfg Hc) | exact Hlast].
Qed.

Lemma sb_firstTau_Ok net t tau t1 tau1 pre :
  SB.firstTau E net t tau = Ok (t1, tau1, pre) ->
  SB.preCalc t1 = false
  /\ SB.oldPop t1 = SB.oldPop t /\ SB.old_g t1 = SB.old_g t
  /\ SB.projPop t1 = SB.projPop t
  /\ SB.p t1 = SB.p t
  /\ SB.substantially t1 = SB.substantially t
  /\ tau1 = sb_proposed E net t tau
  /\ pre = (if SB.preCalc t then [ptc_getNewTau tau] else [])
  /\ (SB.preCalc t = false -> SB.substantially t <> None).
Proof.
  unfold SB.firstTau, sb_proposed. destruct (SB.preCalc t) eqn:Hpc.
  - intros H. inversion H; subst; clear H. simpl. repeat split; auto. discriminate.
  - destruct (SB.substantially t) as [[|]|] eqn:Hs; intros H; inversion H; subst; clear H;
      simpl; repeat split; auto; discriminate.
Qed.

Lemma sb_proposed_same net t t1 tau :
  sb_same_config t t1 -> sb_proposed E net t1 tau = sb_proposed E net t tau.
Proof.
  intros (H1 & H2 & H3 & H4 & H5 & H6 & _). unfold sb_proposed.
  rewrite H2, H3, H5, H6. reflexivity.
Qed.

Lemma sb_getNewTau_Ok fuel net t tau t' tau' calls :
  SB.getNewTau E fuel net t tau = Ok (t', tau', calls) ->
  exists t1 k,
    SB.catchUp E net t = Ok t1
    /\ k < fuel
    /\ tau' = shrunk (SB.p t) (sb_proposed E net t tau) k
    /\ calls = (if SB.preCalc t then [ptc_getNewTau tau] else [])
               ++ trials (SB.p t) (sb_proposed E net t tau) (S k)
    /\ SB.preCalc t' = false
    /\ SB.substantially t' = SB.substantially t
    /\ SB.oldPop t' = SB.oldPop t1 /\ SB.old_g t' = SB.old_g t1
    /\ length (SB.projPop t') = length (SB.projPop t1)
    /\ (SB.preCalc t = false -> SB.substantially t <> None).
Proof.
  unfold SB.getNewTau. intros H. ok_inv H. rename a into t1.
  ok_inv H. destruct a as [[t2 tau1] pre]. simpl in H.
  destruct (sb_catchUp_loop_Ok _ _ _ _ Ha) as (_ & _ & _ & Hcfg & _).
  destruct (sb_firstTau_Ok _ _ _ _ _ _ Ha0)
    as (Hpc & Ho & Hg & Hpr & Hp & Hs & Htau1 & Hpre & Hnone).
  destruct (sb_preCheck_Ok _ _ _ _ _ _ _ _ H)
    as (k & Hk & Htau & Hcalls & Ho' & Hg' & Hl' & Hc' & _).
  assert (Hpt : SB.p t1 = SB.p t) by apply Hcfg.
  assert (Hpct : SB.preCalc t1 = SB.preCalc t) by apply Hcfg.
  assert (Hst : SB.substantially t1 = SB.substantially t) by apply Hcfg.
  rewrite (sb_proposed_same net t t1 tau Hcfg) in Htau1.
  rewrite Hpct in Hpre, Hnone. rewrite Hst in Hnone. subst tau1 pre.
  exists t1, k. rewrite Hp, Hpt in *.
  repeat split; auto; try congruence.
  - destruct Hc' as (_ & _ & _ & _ & -> & _). exact Hpc.
  - destruct Hc' as (_ & _ & _ & _ & _ & -> & _). congruence.
Qed.

Lemma sb_check_Ok net t ok t' calls :
  SB.check E net t = Ok (ok, t', calls) ->
  exists t1,
    SB.catchUp E net t = Ok t1
    /\ t' = SB.set_substantially
              (Some (SB.SBChecker_check E (SB.ch t1) net (SB.w t1) (X_eff (SB.aCalc t1))
                       (SB.oldPop t1) (SB.old_g t1) true)) t1
    /\ ((SB.SBChecker_check E (SB.ch t1) net (SB.w t1) (X_eff (SB.aCalc t1))
           (SB.oldPop t1) (SB.old_g t1) true = true
         /\ ok = true /\ calls = [ch_check (SB.w t1) true])
        \/ (SB.SBChecker_check E (SB.ch t1) net (SB.w t1) (X_eff (SB.aCalc t1))
              (SB.oldPop t1) (SB.old_g t1) true = false
            /\ ok = SB.SBChecker_check E (SB.ch t1) net 1 (X_eff (SB.aCalc t1))
                      (SB.oldPop t1) (SB.old_g t1) true
            /\ calls = [ch_check (SB.w t1) true; ch_check 1 true])).
Proof.
  unfold SB.check. intros H. ok_inv H. rename a into t1. exists t1.
  split; [exact Ha|].
  destruct (SB.SBChecker_check E (SB.ch t1) net (SB.w t1) (X_eff (SB.aCalc t1))
              (SB.oldPop t1) (SB.old_g t1) true) eqn:Hs;
    simpl in H; inversion H; subst; clear H; split; auto.
Qed.

Lemma sb_update_Ok net t t' :
  SB.update E net t = Ok t' ->
  length (SB.oldPop t') = length (sp net)
  /\ length (SB.old_g t') = length (sp net)
  /\ length (SB.oldPop t) = length (sp net)
  /\ length (SB.old_g t) = length (sp net)
  /\ length (SB.projPop t) = length (sp net)
  /\ (forall j s, nth_error (sp net) j = Some s ->
        nth_error (SB.oldPop t') j = Some (pop_of net s)
        /\ nth_error (SB.old_g t') j = Some (SB.get_g E (SB.gGet t) net j))
  /\ SB.projPop t' = SB.projPop t /\ SB.aCalc t' = SB.aCalc t
  /\ sb_same_config t t'.
Proof.
  unfold SB.update. intros H. ok_inv H. destruct a as [o g].
  pose (I := fun (i : nat) (arrs : list float * list float) =>
    length (fst arrs) = length (SB.oldPop t) /\ length (snd arrs) = length (SB.old_g t)
    /\ forall j s, j < i -> nth_error (sp net) j = Some s ->
         nth_error (fst arrs) j = Some (pop_of net s)
         /\ nth_error (snd arrs) j = Some (SB.get_g E (SB.gGet t) net j)).
  assert (Hinv : I (0 + length (SB.oldPop t)) (o, g)).
  { refine (for_loop_inv I _ _ _ _ _ Ha _ _).
    - unfold I. simpl. repeat split; auto; intros; lia.
    - intros i [co cg] nxt _ (Hl1 & Hl2 & Hj) Hb. unfold SB.update_entry in Hb.
      simpl in *. ok_inv Hb. rename a into s. ok_inv Hb. ok_inv Hb.
      inversion Hb; subst; clear Hb. apply rd_Ok in Ha0.
      apply wr_Ok in Ha1, Ha2.
      destruct Ha1 as (Hla & Hia & Hka). destruct Ha2 as (Hlb & Hib & Hkb).
      unfold I. simpl. split; [congruence|]. split; [congruence|].
      intros j s' Hlt Hs'. destruct (Nat.eq_dec j i) as [->|Hne].
      + assert (s' = s) by congruence. subst s'. auto.
      + rewrite Hka, Hkb by exact Hne. apply Hj; [lia | exact Hs']. }
  destruct Hinv as (Hl1 & Hl2 & Hent). simpl in *.
  destruct (length o =? length (sp net)) eqn:H1; simpl in H; [|discriminate].
  destruct (length g =? length (sp net)) eqn:H2; simpl in H; [|discriminate].
  destruct (length (SB.projPop t) =? length (sp net)) eqn:H3; simpl in H;
    [|discriminate].
  inversion H; subst; clear H. simpl. apply Nat.eqb_eq in H1, H2, H3.
  refine (conj H1 (conj H2 (conj _ (conj _ (conj H3 (conj _ (conj eq_refl
            (conj eq_refl (sb_same_config_refl _))))))))); try congruence.
  intros j s Hs. apply Hent; [|exact Hs].
  rewrite <- Hl1, H1. apply nth_error_Some. congruence.
Qed.

Lemma sb_reachable_registry_ok t : SB.reachable E t -> SB.registry_ok t.
Proof.
  induction 1 as [base eps p0 pp0 q0 w0 net t H
                 | net orig t _ _ H
                 | fuel net t tau t' tau' calls _ IH H
                 | net t ok t' calls _ IH H
                 | net t t' _ IH H].
  - unfold SB.construct in H.
    destruct (pp0 <? p0)%float; [discriminate|].
    destruct (q0 <? 1)%float; [discriminate|].
    destruct ((w0 <=? 0)%float || (1 <=? w0)%float); [discriminate|].
    ok_inv H. ok_inv H. ok_inv H.
    match type of H with SB.add_all E net ?c = _ =>
      destruct (sb_add_all_total net c eq_refl eq_refl eq_refl)
        as (t1 & Ht1 & Ho & Hg & Hp & _)
    end.
    rewrite Ht1 in H. inversion H; subst. unfold SB.registry_ok. split; congruence.
  - unfold SB.copy in H.
    match type of H with SB.add_all E net ?c = _ =>
      destruct (sb_add_all_total net c eq_refl eq_refl eq_refl)
        as (t1 & Ht1 & Ho & Hg & Hp & _)
    end.
    rewrite Ht1 in H. inversion H; subst. unfold SB.registry_ok. split; congruence.
  - destruct (sb_getNewTau_Ok _ _ _ _ _ _ _ H)
      as (t1 & k & Hc & _ & _ & _ & _ & _ & Ho & Hg & Hl & _).
    destruct (sb_catchUp_loop_Ok _ _ _ _ Hc) as (_ & Hreg & _).
    destruct (Hreg IH) as (R1 & R2). unfold SB.registry_ok in *. split; congruence.
  - destruct (sb_check_Ok _ _ _ _ _ H) as (t1 & Hc & -> & _).
    destruct (sb_catchUp_loop_Ok _ _ _ _ Hc) as (_ & Hreg & _).
    exact (Hreg IH).
  - destruct (sb_update_Ok _ _ _ H) as (Ho & Hg & _ & _ & Hp & _ & Hpp & _).
    unfold SB.registry_ok. split; congruence.
Qed.

End SB_facts.

(** ** Where the pre-check starts, whatever its outcome *)

Lemma bind_ext {A B : Type} (m : Outcome A) (k k' : A -> Outcome B) :
  (forall a, m = Ok a -> k a = k' a) -> bind m k = bind m k'.
Proof. destruct m; simpl; auto. Qed.

Lemma rb_getNewTau_first E fuel net t tau :
  RB.preCalc t = true ->
  RB.getNewTau E fuel net t tau
  = (t1 <- RB.catchUp net t ;;
     RB.preCheck E fuel net (RB.set_preCalc false t1)
       (RB.Preleap_TC_getNewTau E net tau) [ptc_getNewTau tau]).
Proof.
  intros Hp. unfold RB.getNewTau. apply bind_ext. intros t1 Hc.
  apply rb_catchUp_loop_Ok in Hc. destruct Hc as (_ & _ & _ & _ & Hcfg & _).
  destruct Hcfg as (_ & _ & _ & _ & Hpc & _).
  unfold RB.firstTau. rewrite Hpc, Hp. reflexivity.
Qed.

Lemma rb_getNewTau_later E fuel net t tau b :
  RB.preCalc t = false -> RB.substantially t = Some b ->
  RB.getNewTau E fuel net t tau
  = (t1 <- RB.catchUp net t ;;
     RB.preCheck E fuel net t1 (tau * (if b then RB.q t else RB.pp t))%float []).
Proof.
  intros Hp Hs. unfold RB.getNewTau. apply bind_ext. intros t1 Hc.
  apply rb_catchUp_loop_Ok in Hc. destruct Hc as (_ & _ & _ & _ & Hcfg & _).
  destruct Hcfg as (_ & Hpp & Hq & _ & Hpc & Hsub & _).
  unfold RB.firstTau. rewrite Hpc, Hp, Hsub, Hs, Hpp, Hq. destruct b; reflexivity.
Qed.

Lemma sb_getNewTau_first E fuel net t tau :
  SB.preCalc t = true ->
  SB.getNewTau E fuel net t tau
  = (t1 <- SB.catchUp E net t ;;
     SB.preCheck E fuel net (SB.set_preCalc false t1)
       (SB.Preleap_TC_getNewTau E net tau) [ptc_getNewTau tau]).
Proof.
  intros Hp. unfold SB.getNewTau. apply bind_ext. intros t1 Hc.
  apply sb_catchUp_loop_Ok in Hc. destruct Hc as (_ & _ & _ & Hcfg & _).
  destruct Hcfg as (_ & _ & _ & _ & Hpc & _).
  unfold SB.firstTau. rewrite Hpc, Hp. reflexivity.
Qed.

Lemma sb_getNewTau_later E fuel net t tau b :
  SB.preCalc t = false -> SB.substantially t = Some b ->
  SB.getNewTau E fuel net t tau
  = (t1 <- SB.catchUp E net t ;;
     SB.preCheck E fuel net t1 (tau * (if b then SB.q t else SB.pp t))%float []).
Proof.
  intros Hp Hs. unfold SB.getNewTau. apply bind_ext. intros t1 Hc.
  apply sb_catchUp_loop_Ok in Hc. destruct Hc as (_ & _ & _ & Hcfg & _).
  destruct Hcfg as (_ & Hpp & Hq & _ & Hpc & Hsub & _).
  unfold SB.firstTau. rewrite Hpc, Hp, Hsub, Hs, Hpp, Hq. destruct b; reflexivity.
Qed.

(** More fuel does not change what the pre-check returns. *)
Lemma rb_preCheck_fuel E fuel net t tau calls r :
  RB.preCheck E fuel net t tau calls = Ok r ->
  forall more, RB.preCheck E (fuel + more) net t tau calls = Ok r.
Proof.
  revert t tau calls. induction fuel as [|fuel IH]; intros t tau calls H more;
    simpl in H; [discriminate|].
  simpl. destruct (RB.trial E net t tau) as [[t1 ok]| | |]; simpl in *;
    try discriminate.
  destruct ok; [exact H | apply IH; exact H].
Qed.

Lemma sb_preCheck_fuel E fuel net t tau calls r :
  SB.preCheck E fuel net t tau calls = Ok r ->
  forall more, SB.preCheck E (fuel + more) net t tau calls = Ok r.
Proof.
  revert t tau calls. induction fuel as [|fuel IH]; intros t tau calls H more;
    simpl in H; [discriminate|].
  simpl. destruct (SB.trial E net t tau) as [[t1 ok]| | |]; simpl in *;
    try discriminate.
  destruct ok; [exact H | apply IH; exact H].
Qed.

Lemma rb_getNewTau_fuel E fuel net t tau r :
  RB.getNewTau E fuel net t tau = Ok r ->
  forall more, RB.getNewTau E (fuel + more) net t tau = Ok r.
Proof.
  unfold RB.getNewTau. intros H more. ok_inv H. ok_inv H.
  rewrite Ha. simpl. rewrite Ha0. simpl. apply rb_preCheck_fuel. exact H.
Qed.

Lemma sb_getNewTau_fuel E fuel net t tau r :
  SB.getNewTau E fuel net t tau = Ok r ->
  forall more, SB.getNewTau E (fuel + more) net t tau = Ok r.
Proof.
  unfold SB.getNewTau. intros H more. ok_inv H. ok_inv H.
  rewrite Ha. simpl. rewrite Ha0. simpl. apply sb_preCheck_fuel. exact H.
Qed.

(** * The claims *)

(** ** C1: the projection of the pre-leap retry loop *)

(** C1, as stated, fails in the scenario of section 8.6.  From the freshly
    constructed reaction-based controller, [getNewTau] rejects tau = 1.0,
    shrinks once and accepts tau = 0.5; the projected population it leaves in
    [projPop] is 100 + 5 + sqrt(0.5 * 10) = 107.236..., whereas baseline + mean
    + deviation with the deviation of the claim, tau * sqrt(sum), is
    100 + 5 + 0.5 * sqrt(10) = 106.581...: the two deviations differ. *)
Lemma C1_scenario_projection_is_107 :
  exists t t',
    Scenario.rb0 = Ok t
    /\ RB.getNewTau Scenario.rb 2 Scenario.net t 1%float
       = Ok (t', 0.5%float,
             [ptc_getNewTau 1; aCalc_calc_aEff 1; ch_check 1 false;
              aCalc_calc_aEff 0.5; ch_check 1 false])
    /\ RB.projPop t' = [[107.23606797749979%float]]
    /\ (100 + mean_of (RB.aCalc t') 0.5 0 + sdev_as_specified (RB.aCalc t') 0.5 0)%float
       = 106.58113883008419%float
    /\ (sdev_of (RB.aCalc t') 0.5 0 =? sdev_as_specified (RB.aCalc t') 0.5 0)%float
       = false
    /\ (106.59 <? 107.23606797749979)%float = true.
Proof.
  eexists. eexists. split; [vm_compute; reflexivity|].
  split; [vm_compute; reflexivity|].
  repeat split; vm_compute; reflexivity.
Qed.

(** C1, amended: in one pass of the retry loop at trial value [tau], every
    entry of [projPop] that the pass writes is the baseline entry plus the mean
    plus the deviation of the species it tracks, where mean = (sum of
    stoich * a_eff) * tau and the deviation is sqrt((sum of stoich^2 * a_eff)
    * tau), negated when the mean is below zero; the effective propensities
    are those computed for [tau].  In the scenario of section 8.6 the value
    after the one shrink to tau = 0.5 is 107.236.... *)
Theorem C1_projection :
  (forall E net t tau t' ok,
      RB.trial E net t tau = Ok (t', ok) ->
      RB.aCalc t' = RB.calc_aEff E net tau (RB.aCalc t)
      /\ forall v r j,
           v < length (RB.projPop t) -> nth_error (rxn net) v = Some r ->
           j < length (rateSpecies r) ->
           exists S_j o,
             rd2 (rateSp (RB.aCalc t')) v j = Ok S_j
             /\ rd2 (RB.oldPop t) v j = Ok o
             /\ rd2 (RB.projPop t') v j
                = Ok (o + mean_of (RB.aCalc t') tau S_j
                        + sdev_of (RB.aCalc t') tau S_j)%float)
  /\ (forall E net t tau t' ok,
        SB.trial E net t tau = Ok (t', ok) ->
        SB.aCalc t' = SB.calc_aEff E net tau (SB.aCalc t)
        /\ forall j, j < length (SB.projPop t) ->
             exists o,
               nth_error (SB.oldPop t) j = Some o
               /\ nth_error (SB.projPop t') j
                  = Some (o + mean_of (SB.aCalc t') tau j
                            + sdev_of (SB.aCalc t') tau j)%float)
  /\ (forall ac tau j,
        mean_of ac tau j = (drift ac j * tau)%float
        /\ sdev_of ac tau j
           = (if (mean_of ac tau j <? 0)%float then - sqrt (spread ac j * tau)
              else sqrt (spread ac j * tau))%float)
  /\ (100 + mean_of (fg_aCalc Scenario.base) 0.5 0
          + sdev_of (fg_aCalc Scenario.base) 0.5 0)%float
     = 107.23606797749979%float.
Proof.
  split; [|split; [|split]].
  - intros E net t tau t' ok H.
    destruct (rb_trial_Ok E _ _ _ _ _ H) as (Hac & _ & _ & _ & _ & Hp). auto.
  - intros E net t tau t' ok H.
    destruct (sb_trial_Ok E _ _ _ _ _ H) as (Hac & _ & _ & _ & _ & _ & Hp). auto.
  - intros ac tau j. split; reflexivity.
  - vm_compute. reflexivity.
Qed.

(** The scenario of section 8.6 at tau = 0.5 is an instance of
    [C1_projection]. *)
Lemma C1_projection_witness :
  exists t t',
    RB.trial Scenario.rb Scenario.net t 0.5%float = Ok (t', true)
    /\ exists S_j o,
         rd2 (rateSp (RB.aCalc t')) 0 0 = Ok S_j
         /\ rd2 (RB.oldPop t) 0 0 = Ok o
         /\ rd2 (RB.projPop t') 0 0
            = Ok (o + mean_of (RB.aCalc t') 0.5 S_j
                    + sdev_of (RB.aCalc t') 0.5 S_j)%float.
Proof.
  pose (t := {| RB.aCalc := fg_aCalc Scenario.base; RB.p := 0.5%float;
                RB.pp := 0.9%float; RB.q := 1.5%float; RB.w := 0.01%float;
                RB.preCalc := false; RB.substantially := None;
                RB.ch := {| RB.ch_eps := 0.1%float |}; RB.bc := {| bc_p := 0.5%float |};
                RB.oldPop := [[100%float]]; RB.projPop := [[0%float]] |}).
  exists t. eexists. split; [vm_compute; reflexivity|].
  refine (proj2 (proj1 C1_projection Scenario.rb Scenario.net t 0.5%float _ true _)
            0 {| rateSpecies := [0] |} 0 _ _ _).
  - vm_compute. reflexivity.
  - simpl. lia.
  - reflexivity.
  - simpl. lia.
Defined.

(** ** C2: validation at construction *)








(** ** C3: the tau the retry loop starts from *)

(** C3: a constructed controller has [preCalc] set, and [getNewTau] clears
    it; [check] and [update] leave it alone.  With [preCalc] set, [getNewTau]
    is the catch-up followed by the retry loop started from the tau of
    [ptc.getNewTau]; with [preCalc] clear it is the catch-up followed by the
    retry loop started from the incoming tau times [q] if [substantially] is
    true and times [pp] if it is false.  When [getNewTau] returns, the
    first trial of the retry loop was made at the tau of [ptc.getNewTau] if
    [preCalc] was set (and that call came first), and otherwise at the incoming
    tau times [q] if [substantially] was true and times [pp] if it was false,
    with no call on [ptc]; every later trial is the previous one times [p]. *)
Theorem C3_initial_tau :
  (forall E base eps p0 pp0 q0 w0 net t,
      RB.construct E base eps p0 pp0 q0 w0 net = Ok t -> RB.preCalc t = true)
  /\ (forall E fuel net t tau,
        RB.preCalc t = true ->
        RB.getNewTau E fuel net t tau
        = (t1 <- RB.catchUp net t ;;
           RB.preCheck E fuel net (RB.set_preCalc false t1)
             (RB.Preleap_TC_getNewTau E net tau) [ptc_getNewTau tau]))
  /\ (forall E fuel net t tau b,
        RB.preCalc t = false -> RB.substantially t = Some b ->
        RB.getNewTau E fuel net t tau
        = (t1 <- RB.catchUp net t ;;
           RB.preCheck E fuel net t1 (tau * (if b then RB.q t else RB.pp t))%float []))
  /\ (forall E fuel net t tau t' tau' calls,
        RB.getNewTau E fuel net t tau = Ok (t', tau', calls) ->
        RB.preCalc t' = false
        /\ (RB.preCalc t = true ->
            exists k, k < fuel
              /\ calls = ptc_getNewTau tau
                         :: trials (RB.p t) (RB.Preleap_TC_getNewTau E net tau) (S k)
              /\ tau' = shrunk (RB.p t) (RB.Preleap_TC_getNewTau E net tau) k)
        /\ (RB.preCalc t = false ->
            exists k b, k < fuel /\ RB.substantially t = Some b
              /\ calls = trials (RB.p t) (tau * (if b then RB.q t else RB.pp t))%float (S k)
              /\ tau' = shrunk (RB.p t) (tau * (if b then RB.q t else RB.pp t))%float k))
  /\ (forall E net t ok t' calls,
        RB.check E net t = Ok (ok, t', calls) -> RB.preCalc t' = RB.preCalc t)
  /\ (forall net t t',
        RB.update net t = Ok t' ->
        RB.preCalc t' = RB.preCalc t /\ RB.substantially t' = RB.substantially t)
  /\ (forall E base eps p0 pp0 q0 w0 net t,
        SB.construct E base eps p0 pp0 q0 w0 net = Ok t -> SB.preCalc t = true)
  /\ (forall E fuel net t tau,
        SB.preCalc t = true ->
        SB.getNewTau E fuel net t tau
        = (t1 <- SB.catchUp E net t ;;
           SB.preCheck E fuel net (SB.set_preCalc false t1)
             (SB.Preleap_TC_getNewTau E net tau) [ptc_getNewTau tau]))
  /\ (forall E fuel net t tau b,
        SB.preCalc t = false -> SB.substantially t = Some b ->
        SB.getNewTau E fuel net t tau
        = (t1 <- SB.catchUp E net t ;;
           SB.preCheck E fuel net t1 (tau * (if b then SB.q t else SB.pp t))%float []))
  /\ (forall E fuel net t tau t' tau' calls,
        SB.getNewTau E fuel net t tau = Ok (t', tau', calls) ->
        SB.preCalc t' = false
        /\ (SB.preCalc t = true ->
            exists k, k < fuel
              /\ calls = ptc_getNewTau tau
                         :: trials (SB.p t) (SB.Preleap_TC_getNewTau E net tau) (S k)
              /\ tau' = shrunk (SB.p t) (SB.Preleap_TC_getNewTau E net tau) k)
        /\ (SB.preCalc t = false ->
            exists k b, k < fuel /\ SB.substantially t = Some b
              /\ calls = trials (SB.p t) (tau * (if b then SB.q t else SB.pp t))%float (S k)
              /\ tau' = shrunk (SB.p t) (tau * (if b then SB.q t else SB.pp t))%float k))
  /\ (forall E net t ok t' calls,
        SB.check E net t = Ok (ok, t', calls) -> SB.preCalc t' = SB.preCalc t)
  /\ (forall E net t t',
        SB.update E net t = Ok t' ->
        SB.preCalc t' = SB.preCalc t /\ SB.substantially t' = SB.substantially t).
Proof.
  repeat apply conj.
  - intros E base eps p0 pp0 q0 w0 net t H.
    destruct (pp0 <? p0)%float eqn:H1; [unfold RB.construct in H; rewrite H1 in H; discriminate|].
    destruct (q0 <? 1)%float eqn:H2;
      [unfold RB.construct in H; rewrite H1, H2 in H; discriminate|].
    destruct ((w0 <=? 0)%float || (1 <=? w0)%float) eqn:H3;
      [unfold RB.construct in H; rewrite H1, H2, H3 in H; discriminate|].
    apply orb_false_iff in H3. destruct H3 as (H3 & H4).
    unfold RB.construct in H. rewrite H1, H2, H3, H4 in H. simpl in H.
    ok_inv H. ok_inv H.
    match type of H with RB.add_all net ?c0 = _ =>
      destruct (rb_add_all_total net c0 eq_refl eq_refl) as (t1 & Ht & _ & _ & _ & Hcfg)
    end.
    assert (t1 = t) by congruence. subst t1.
    destruct Hcfg as (_ & _ & _ & _ & Hpc & _). exact Hpc.
  - intros E fuel net t tau. apply rb_getNewTau_first.
  - intros E fuel net t tau b. apply rb_getNewTau_later.
  - intros E fuel net t tau t' tau' calls H.
    destruct (rb_getNewTau_Ok E _ _ _ _ _ _ _ H)
      as (t1 & k & _ & Hk & Htau & Hcalls & Hpc & _ & _ & _ & Hnone).
    split; [exact Hpc|]. unfold rb_proposed in *. split; intros Hp; rewrite Hp in *.
    + exists k. auto.
    + destruct (RB.substantially t) as [b|] eqn:Hs; [|exfalso; apply (Hnone eq_refl eq_refl)].
      exists k, b. destruct b; simpl in *; auto.
  - intros E net t ok t' calls H.
    destruct (rb_check_Ok E _ _ _ _ _ H) as (t1 & Hc & -> & _).
    destruct (rb_catchUp_loop_Ok _ _ _ _ Hc) as (_ & _ & _ & _ & Hcfg & _).
    simpl. apply Hcfg.
  - intros net t t' H.
    destruct (rb_update_Ok _ _ _ H) as (_ & _ & _ & _ & _ & _ & Hcfg).
    split; apply Hcfg.
  - intros E base eps p0 pp0 q0 w0 net t H.
    destruct (pp0 <? p0)%float eqn:H1; [unfold SB.construct in H; rewrite H1 in H; discriminate|].
    destruct (q0 <? 1)%float eqn:H2;
      [unfold SB.construct in H; rewrite H1, H2 in H; discriminate|].
    destruct ((w0 <=? 0)%float || (1 <=? w0)%float) eqn:H3;
      [unfold SB.construct in H; rewrite H1, H2, H3 in H; discriminate|].
    apply orb_false_iff in H3. destruct H3 as (H3 & H4).
    unfold SB.construct in H. rewrite H1, H2, H3, H4 in H. simpl in H.
    ok_inv H. ok_inv H. ok_inv H.
    match type of H with SB.add_all E net ?c0 = _ =>
      destruct (sb_add_all_total E net c0 eq_refl eq_refl eq_refl)
        as (t1 & Ht & _ & _ & _ & _ & Hcfg)
    end.
    assert (t1 = t) by congruence. subst t1.
    destruct Hcfg as (_ & _ & _ & _ & Hpc & _). exact Hpc.
  - intros E fuel net t tau. apply sb_getNewTau_first.
  - intros E fuel net t tau b. apply sb_getNewTau_later.
  - intros E fuel net t tau t' tau' calls H.
    destruct (sb_getNewTau_Ok E _ _ _ _ _ _ _ H)
      as (t1 & k & _ & Hk & Htau & Hcalls & Hpc & _ & _ & _ & _ & Hnone).
    split; [exact Hpc|]. unfold sb_proposed in *. split; intros Hp; rewrite Hp in *.
    + exists k. auto.
    + destruct (SB.substantially t) as [b|] eqn:Hs; [|exfalso; apply (Hnone eq_refl eq_refl)].
      exists k, b. destruct b; simpl in *; auto.
  - intros E net t ok t' calls H.
    destruct (sb_check_Ok E _ _ _ _ _ H) as (t1 & Hc & -> & _).
    destruct (sb_catchUp_loop_Ok _ _ _ _ _ Hc) as (_ & _ & _ & Hcfg & _).
    simpl. apply Hcfg.
  - intros E net t t' H.
    destruct (sb_update_Ok _ _ _ _ H) as (_ & _ & _ & _ & _ & _ & _ & _ & Hcfg).
    split; apply Hcfg.
Qed.

(** In the scenario of section 8.6 the first [getNewTau] asks [ptc] (which
    answers 1.0) and shrinks once, by [C3_initial_tau]. *)
Lemma C3_initial_tau_witness :
  exists t t' calls,
    Scenario.rb0 = Ok t
    /\ RB.getNewTau Scenario.rb 5 Scenario.net t 7%float = Ok (t', 0.5%float, calls)
    /\ RB.preCalc t' = false
    /\ exists k, k < 5
         /\ calls = ptc_getNewTau 7 :: trials (RB.p t) 1 (S k)
         /\ 0.5%float = shrunk (RB.p t) 1 k.
Proof.
  eexists. eexists. eexists. split; [vm_compute; reflexivity|].
  match goal with |- ?G /\ _ => assert (H : G) by (vm_compute; reflexivity) end.
  split; [exact H|].
  destruct (proj1 (proj2 (proj2 (proj2 C3_initial_tau))) Scenario.rb _ _ _ _ _ _ _ H)
    as (Hpc & Hfirst & _).
  split; [exact Hpc|]. exact (Hfirst eq_refl).
Defined.

(** ** C4: the post-leap classification *)

(** C4: [check()] returns whenever its catch-up does.  After the catch-up it evaluates the checker at scale [w]
    against [oldPop] with [postcheck = true]; [substantially] becomes exactly
    that result.  If it is true, [check()] returns true and that was the only
    call on the checker; otherwise a second call at scale 1.0, same arguments,
    decides the value returned. *)
Theorem C4_classification :
  (forall E net t t1,
      RB.catchUp net t = Ok t1 -> exists ok t' calls, RB.check E net t = Ok (ok, t', calls))
  /\ (forall E net t t1,
        SB.catchUp E net t = Ok t1 ->
        exists ok t' calls, SB.check E net t = Ok (ok, t', calls))
  /\ (forall E net t ok t' calls,
      RB.check E net t = Ok (ok, t', calls) ->
      exists t1,
        RB.catchUp net t = Ok t1
        /\ RB.substantially t'
           = Some (RB.RBChecker_check E (RB.ch t1) net (RB.w t1) (a_eff (RB.aCalc t1))
                     (RB.oldPop t1) true)
        /\ (RB.substantially t' = Some true ->
            ok = true /\ calls = [ch_check (RB.w t1) true])
        /\ (RB.substantially t' = Some false ->
            ok = RB.RBChecker_check E (RB.ch t1) net 1 (a_eff (RB.aCalc t1))
                   (RB.oldPop t1) true
            /\ calls = [ch_check (RB.w t1) true; ch_check 1 true]))
  /\ (forall E net t ok t' calls,
        SB.check E net t = Ok (ok, t', calls) ->
        exists t1,
          SB.catchUp E net t = Ok t1
          /\ SB.substantially t'
             = Some (SB.SBChecker_check E (SB.ch t1) net (SB.w t1) (X_eff (SB.aCalc t1))
                       (SB.oldPop t1) (SB.old_g t1) true)
          /\ (SB.substantially t' = Some true ->
              ok = true /\ calls = [ch_check (SB.w t1) true])
          /\ (SB.substantially t' = Some false ->
              ok = SB.SBChecker_check E (SB.ch t1) net 1 (X_eff (SB.aCalc t1))
                     (SB.oldPop t1) (SB.old_g t1) true
              /\ calls = [ch_check (SB.w t1) true; ch_check 1 true])).
Proof.
  repeat apply conj.
  - intros E net t t1 Hc. unfold RB.check. rewrite Hc. simpl.
    destruct (RB.RBChecker_check E (RB.ch t1) net (RB.w t1) (a_eff (RB.aCalc t1))
                (RB.oldPop t1) true); eexists; eexists; eexists; reflexivity.
  - intros E net t t1 Hc. unfold SB.check. rewrite Hc. simpl.
    destruct (SB.SBChecker_check E (SB.ch t1) net (SB.w t1) (X_eff (SB.aCalc t1))
                (SB.oldPop t1) (SB.old_g t1) true); eexists; eexists; eexists; reflexivity.
  - intros E net t ok t' calls H.
    destruct (rb_check_Ok E _ _ _ _ _ H) as (t1 & Hc & -> & Hcase).
    exists t1. split; [exact Hc|]. simpl. split; [reflexivity|].
    destruct Hcase as [(Hs & -> & ->)|(Hs & -> & ->)]; rewrite Hs;
      split; intros Hx; try discriminate; auto.
  - intros E net t ok t' calls H.
    destruct (sb_check_Ok E _ _ _ _ _ H) as (t1 & Hc & -> & Hcase).
    exists t1. split; [exact Hc|]. simpl. split; [reflexivity|].
    destruct Hcase as [(Hs & -> & ->)|(Hs & -> & ->)]; rewrite Hs;
      split; intros Hx; try discriminate; auto.
Qed.

(** In the scenario of section 8.6 the step is substantially accepted after
    one call on the checker, by [C4_classification]. *)
Lemma C4_classification_witness :
  exists t t' calls t1,
    Scenario.rb0 = Ok t
    /\ RB.check Scenario.rb Scenario.net t = Ok (true, t', calls)
    /\ RB.catchUp Scenario.net t = Ok t1
    /\ RB.substantially t' = Some true
    /\ calls = [ch_check (RB.w t1) true].
Proof.
  eexists. eexists. eexists.
  match goal with |- exists t1, ?A /\ ?G /\ _ =>
    assert (H0 : A) by (vm_compute; reflexivity);
    assert (H : G) by (vm_compute; reflexivity)
  end.
  destruct (proj1 (proj2 (proj2 C4_classification)) Scenario.rb _ _ _ _ _ H)
    as (t1 & Hc & Hs & Hyes & _).
  exists t1. split; [exact H0|]. split; [exact H|]. split; [exact Hc|].
  split; [reflexivity|]. exact (proj2 (Hyes eq_refl)).
Defined.

(** ** C5: the registry size invariant *)

(** C5: every controller a driver can hold (constructed or copied, then passed
    through [getNewTau], [check] and [update] in any order and against any
    network) has parallel arrays of equal length; [addRxn]/[addSpecies], the
    catch-up loop and [update] each preserve this when they return; and with
    arrays of unequal length [addRxn]/[addSpecies] exit with status 1 and
    [update] does not return. *)
Theorem C5_registry_invariant :
  (forall E t, RB.reachable E t -> RB.registry_ok t)
  /\ (forall E t, SB.reachable E t -> SB.registry_ok t)
  /\ (forall net t t', RB.addRxn net t = Ok t' -> RB.registry_ok t /\ RB.registry_ok t')
  /\ (forall net t t', RB.catchUp net t = Ok t' -> RB.registry_ok t -> RB.registry_ok t')
  /\ (forall net t t', RB.update net t = Ok t' -> RB.registry_ok t /\ RB.registry_ok t')
  /\ (forall E net t t',
        SB.addSpecies E net t = Ok t' -> SB.registry_ok t /\ SB.registry_ok t')
  /\ (forall E net t t',
        SB.catchUp E net t = Ok t' -> SB.registry_ok t -> SB.registry_ok t')
  /\ (forall E net t t',
        SB.update E net t = Ok t' -> SB.registry_ok t /\ SB.registry_ok t')
  /\ (forall net t,
        length (RB.oldPop t) <> length (RB.projPop t) ->
        RB.addRxn net t
        = Exit 1 (no_rxns_to_add (length (RB.oldPop t)) (length (RB.projPop t))
                    (length (rxn net))))
  /\ (forall E net t,
        length (SB.oldPop t) <> length (SB.old_g t)
        \/ length (SB.oldPop t) <> length (SB.projPop t) ->
        SB.addSpecies E net t
        = Exit 1 (no_species_to_add (length (SB.oldPop t)) (length (SB.old_g t))
                    (length (SB.projPop t)) (length (sp net)))).
Proof.
  repeat apply conj.
  - apply rb_reachable_registry_ok.
  - apply sb_reachable_registry_ok.
  - intros net t t' H. apply rb_addRxn_Ok in H.
    destruct H as (_ & H1 & H2 & H3 & _). unfold RB.registry_ok. lia.
  - intros net t t' H. apply rb_catchUp_loop_Ok in H. apply H.
  - intros net t t' H. apply rb_update_Ok in H.
    destruct H as (H1 & H2 & H3 & _ & H4 & _). unfold RB.registry_ok.
    rewrite H4. lia.
  - intros E net t t' H.
    destruct (sb_addSpecies_cases E net t) as [(Hg & s & _ & Heq)|(_ & Heq)];
      rewrite Heq in H; [|discriminate].
    inversion H; subst; clear H. apply sb_addSpecies_guard_true in Hg.
    destruct Hg as (_ & Hok). split; [exact Hok|].
    destruct Hok as (H1 & H2). unfold SB.registry_ok. simpl.
    rewrite !length_app. simpl. lia.
  - intros E net t t' H. apply sb_catchUp_loop_Ok in H. apply H.
  - intros E net t t' H. apply sb_update_Ok in H.
    destruct H as (H1 & H2 & H3 & H4 & H5 & _ & H6 & _). unfold SB.registry_ok.
    rewrite H6. lia.
  - intros net t Hne.
    destruct (rb_addRxn_cases net t) as [(Hg & _)|(_ & Heq)]; [|exact Heq].
    apply rb_addRxn_guard_true in Hg. lia.
  - intros E net t Hne.
    destruct (sb_addSpecies_cases E net t) as [(Hg & _)|(_ & Heq)]; [|exact Heq].
    apply sb_addSpecies_guard_true in Hg. unfold SB.registry_ok in Hg. lia.
Qed.

(** The controller of the scenario of section 8.6 after one [getNewTau] is
    reachable, so [C5_registry_invariant] applies to it. *)
Lemma C5_registry_invariant_witness :
  exists t t',
    Scenario.rb0 = Ok t
    /\ RB.getNewTau Scenario.rb 5 Scenario.net t 7%float
       = Ok (t', 0.5%float, ptc_getNewTau 7 :: trials 0.5 1 2)
    /\ RB.registry_ok t'.
Proof.
  eexists. eexists.
  match goal with |- ?A /\ ?G /\ _ =>
    assert (H0 : A) by (vm_compute; reflexivity);
    assert (H : G) by (vm_compute; reflexivity)
  end.
  split; [exact H0|]. split; [exact H|].
  apply (proj1 C5_registry_invariant Scenario.rb).
  eapply RB.reach_getNewTau; [|exact H].
  eapply RB.reach_construct. exact H0.
Defined.

(** ** C7: what [update()] changes *)



(** ** C8: idempotence of the catch-up *)

(** C8: on a registry whose [oldPop] is as long as the live network the
    catch-up loop returns the controller unchanged, and so do [getNewTau] and
    [check] as far as the registry goes ([check] leaves both arrays as they
    were, [getNewTau] leaves [oldPop] and the length of [projPop]); running
    the catch-up again on what it returned returns the same controller. *)
Theorem C8_catchUp_idempotent :
  (forall net t, length (RB.oldPop t) = length (rxn net) -> RB.catchUp net t = Ok t)
  /\ (forall net t t', RB.catchUp net t = Ok t' -> RB.catchUp net t' = Ok t')
  /\ (forall E net t ok t' calls,
        length (RB.oldPop t) = length (rxn net) ->
        RB.check E net t = Ok (ok, t', calls) ->
        RB.oldPop t' = RB.oldPop t /\ RB.projPop t' = RB.projPop t)
  /\ (forall E fuel net t tau t' tau' calls,
        length (RB.oldPop t) = length (rxn net) ->
        RB.getNewTau E fuel net t tau = Ok (t', tau', calls) ->
        RB.oldPop t' = RB.oldPop t
        /\ length (RB.projPop t') = length (RB.projPop t))
  /\ (forall E net t, length (SB.oldPop t) = length (sp net) -> SB.catchUp E net t = Ok t)
  /\ (forall E net t t', SB.catchUp E net t = Ok t' -> SB.catchUp E net t' = Ok t')
  /\ (forall E net t ok t' calls,
        length (SB.oldPop t) = length (sp net) ->
        SB.check E net t = Ok (ok, t', calls) ->
        SB.oldPop t' = SB.oldPop t /\ SB.old_g t' = SB.old_g t
        /\ SB.projPop t' = SB.projPop t)
  /\ (forall E fuel net t tau t' tau' calls,
        length (SB.oldPop t) = length (sp net) ->
        SB.getNewTau E fuel net t tau = Ok (t', tau', calls) ->
        SB.oldPop t' = SB.oldPop t /\ SB.old_g t' = SB.old_g t
        /\ length (SB.projPop t') = length (SB.projPop t)).
Proof.
  assert (Rsync : forall net t,
             length (RB.oldPop t) = length (rxn net) -> RB.catchUp net t = Ok t).
  { intros net t H. apply rb_catchUp_loop_noop. apply rb_behind_false. auto. }
  assert (Ssync : forall E net t,
             length (SB.oldPop t) = length (sp net) -> SB.catchUp E net t = Ok t).
  { intros E net t H. apply sb_catchUp_loop_noop. apply sb_behind_false. auto. }
  repeat apply conj.
  - exact Rsync.
  - intros net t t' H. apply rb_catchUp_loop_Ok in H. destruct H as (Hb & _).
    apply rb_catchUp_loop_noop. exact Hb.
  - intros E net t ok t' calls Hs H.
    destruct (rb_check_Ok E _ _ _ _ _ H) as (t1 & Hc & -> & _).
    rewrite (Rsync net t Hs) in Hc. inversion Hc; subst. simpl. auto.
  - intros E fuel net t tau t' tau' calls Hs H.
    destruct (rb_getNewTau_Ok E _ _ _ _ _ _ _ H)
      as (t1 & k & Hc & _ & _ & _ & _ & _ & Ho & Hl & _).
    rewrite (Rsync net t Hs) in Hc. inversion Hc; subst. auto.
  - exact Ssync.
  - intros E net t t' H. apply sb_catchUp_loop_Ok in H. destruct H as (Hb & _).
    apply sb_catchUp_loop_noop. exact Hb.
  - intros E net t ok t' calls Hs H.
    destruct (sb_check_Ok E _ _ _ _ _ H) as (t1 & Hc & -> & _).
    rewrite (Ssync E net t Hs) in Hc. inversion Hc; subst. simpl. auto.
  - intros E fuel net t tau t' tau' calls Hs H.
    destruct (sb_getNewTau_Ok E _ _ _ _ _ _ _ H)
      as (t1 & k & Hc & _ & _ & _ & _ & _ & Ho & Hg & Hl & _).
    rewrite (Ssync E net t Hs) in Hc. inversion Hc; subst. auto.
Qed.

(** The catch-up on the grown network appends one row; a second run changes
    nothing, by [C8_catchUp_idempotent]. *)
Lemma C8_catchUp_idempotent_witness :
  exists t t',
    Scenario.rb0 = Ok t
    /\ RB.catchUp net_grown t = Ok t'
    /\ RB.oldPop t' = [[100%float]; [100%float; 40%float]]
    /\ RB.catchUp net_grown t' = Ok t'.
Proof.
  eexists. eexists.
  match goal with |- ?A /\ ?G /\ _ =>
    assert (H0 : A) by (vm_compute; reflexivity);
    assert (H : G) by (vm_compute; reflexivity)
  end.
  split; [exact H0|]. split; [exact H|]. split; [reflexivity|].
  exact (proj1 (proj2 C8_catchUp_idempotent) _ _ _ H).
Defined.

(** ** C10: the copy constructor *)

(** C10: copying a controller always succeeds and gives a controller with
    [preCalc] set and [p], [pp], [q], [w] of the original, whatever the
    original's [preCalc] and [substantially]; [getNewTau] on the copy is the
    catch-up followed by the retry loop started from the tau of
    [ptc.getNewTau], and whenever it returns its first call was
    [ptc.getNewTau]. *)
Theorem C10_copy_resets_first_call :
  (forall E net orig,
      exists c,
        RB.copy net orig = Ok c
        /\ RB.preCalc c = true
        /\ RB.p c = RB.p orig /\ RB.pp c = RB.pp orig
        /\ RB.q c = RB.q orig /\ RB.w c = RB.w orig
        /\ (forall fuel net' tau,
              RB.getNewTau E fuel net' c tau
              = (t1 <- RB.catchUp net' c ;;
                 RB.preCheck E fuel net' (RB.set_preCalc false t1)
                   (RB.Preleap_TC_getNewTau E net' tau) [ptc_getNewTau tau]))
        /\ forall fuel net' tau t' tau' calls,
             RB.getNewTau E fuel net' c tau = Ok (t', tau', calls) ->
             exists k,
               calls = ptc_getNewTau tau
                       :: trials (RB.p orig) (RB.Preleap_TC_getNewTau E net' tau) (S k)
               /\ tau' = shrunk (RB.p orig) (RB.Preleap_TC_getNewTau E net' tau) k)
  /\ (forall E net orig,
        exists c,
          SB.copy E net orig = Ok c
          /\ SB.preCalc c = true
          /\ SB.p c = SB.p orig /\ SB.pp c = SB.pp orig
          /\ SB.q c = SB.q orig /\ SB.w c = SB.w orig
          /\ (forall fuel net' tau,
                SB.getNewTau E fuel net' c tau
                = (t1 <- SB.catchUp E net' c ;;
                   SB.preCheck E fuel net' (SB.set_preCalc false t1)
                     (SB.Preleap_TC_getNewTau E net' tau) [ptc_getNewTau tau]))
          /\ forall fuel net' tau t' tau' calls,
               SB.getNewTau E fuel net' c tau = Ok (t', tau', calls) ->
               exists k,
                 calls = ptc_getNewTau tau
                         :: trials (SB.p orig) (SB.Preleap_TC_getNewTau E net' tau) (S k)
                 /\ tau' = shrunk (SB.p orig) (SB.Preleap_TC_getNewTau E net' tau) k).
Proof.
  split.
  - intros E net orig. unfold RB.copy.
    match goal with |- exists c, RB.add_all net ?c0 = _ /\ _ =>
      destruct (rb_add_all_total net c0 eq_refl eq_refl) as (c & Hc & _ & _ & _ & Hcfg)
    end.
    exists c. split; [exact Hc|].
    destruct Hcfg as (a1 & a2 & a3 & a4 & a5 & _). simpl in *.
    repeat split; auto.
    { intros fuel net' tau. apply rb_getNewTau_first. exact a5. }
    intros fuel net' tau t' tau' calls H.
    destruct (rb_getNewTau_Ok E _ _ _ _ _ _ _ H) as (t1 & k & _ & _ & Htau & Hcalls & _).
    unfold rb_proposed in *. rewrite a5, a1 in *. exists k. auto.
  - intros E net orig. unfold SB.copy.
    match goal with |- exists c, SB.add_all E net ?c0 = _ /\ _ =>
      destruct (sb_add_all_total E net c0 eq_refl eq_refl eq_refl)
        as (c & Hc & _ & _ & _ & _ & Hcfg)
    end.
    exists c. split; [exact Hc|].
    destruct Hcfg as (a1 & a2 & a3 & a4 & a5 & _). simpl in *.
    repeat split; auto.
    { intros fuel net' tau. apply sb_getNewTau_first. exact a5. }
    intros fuel net' tau t' tau' calls H.
    destruct (sb_getNewTau_Ok E _ _ _ _ _ _ _ H) as (t1 & k & _ & _ & Htau & Hcalls & _).
    unfold sb_proposed in *. rewrite a5, a1 in *. exists k. auto.
Qed.

(** The copy of a controller that is past its first call asks [ptc] again,
    by [C10_copy_resets_first_call]. *)
Lemma C10_copy_resets_first_call_witness :
  exists c t' calls,
    RB.preCalc rb_used = false
    /\ RB.copy Scenario.net rb_used = Ok c
    /\ RB.preCalc c = true
    /\ RB.getNewTau Scenario.rb 5 Scenario.net c 7%float = Ok (t', 0.5%float, calls)
    /\ exists k, calls = ptc_getNewTau 7 :: trials 0.5 1 (S k).
Proof.
  destruct (proj1 C10_copy_resets_first_call Scenario.rb Scenario.net rb_used)
    as (c & Hc & Hpc & _ & _ & _ & _ & _ & Hget).
  assert (Hc' := Hc). vm_compute in Hc'. inversion Hc' as [Ec].
  exists c. eexists. eexists. split; [reflexivity|]. split; [exact Hc|].
  split; [exact Hpc|].
  match goal with |- ?G /\ _ =>
    assert (H : G) by (rewrite <- Ec; vm_compute; reflexivity)
  end.
  split; [exact H|].
  destruct (Hget _ _ _ _ _ _ H) as (k & Hcalls & _). exists k. exact Hcalls.
Defined.

(** ** The shrink sequence in binary64

    With p = 0.9 the trial values of the retry loop do not tend to zero: from
    tau = 1.0 they reach the positive subnormal number 2.5e-323 and stay
    there, because 2.5e-323 * 0.9 rounds back to 2.5e-323.  Whether the loop
    then returns is up to the checker alone. *)
Lemma shrink_by_09_stalls :
  shrunk 0.9 1 7100 = 2.5e-323%float
  /\ (2.5e-323 * 0.9)%float = 2.5e-323%float
  /\ (0 <? 2.5e-323)%float = true.
Proof. repeat split; vm_compute; reflexivity. Qed.

Lemma shrunk_fixed p tau k : (tau * p)%float = tau -> shrunk p tau k = tau.
Proof.
  intros H. induction k as [|k IH]; simpl; [reflexivity|]. rewrite H. exact IH.
Qed.

Lemma shrunk_add p tau j k : shrunk p tau (j + k) = shrunk p (shrunk p tau j) k.
Proof.
  revert tau. induction j as [|j IH]; intros tau; simpl; [reflexivity|]. apply IH.
Qed.

Lemma shrink_by_09_never_zero k :
  7100 <= k -> shrunk 0.9 1 k = 2.5e-323%float.
Proof.
  intros H. replace k with (7100 + (k - 7100)) by lia.
  rewrite shrunk_add. destruct shrink_by_09_stalls as (-> & Hfix & _).
  apply shrunk_fixed. exact Hfix.
Qed.

(** * Further properties of the two controllers *)

(** ** What the registry holds *)

(** The row [addRxn()] pushes onto [oldPop] for reaction [r], and the one it
    pushes onto [projPop]. *)
Definition rb_live_row (net : Network) (r : Reaction) : list float :=
  map (pop_of net) (rateSpecies r).

Definition rb_zero_row (r : Reaction) : list float :=
  repeat 0%float (length (rateSpecies r)).

(** The entries [addSpecies()] pushes onto [old_g] for the species from index
    [n] on. *)
Definition sb_live_g (E : SB.Collaborators) (g : SB.g_Getter) (net : Network) (n : nat)
  : list float :=
  map (SB.get_g E g net) (seq n (length (sp net) - n)).

Lemma wr_same {A : Type} (v : list A) (i : nat) (x : A) :
  nth_error v i = Some x -> wr v i x = Ok v.
Proof.
  revert i. induction v as [|h t IH]; intros [|i] H; simpl in *; try discriminate.
  - inversion H; reflexivity.
  - rewrite (IH i H). reflexivity.
Qed.

Lemma wr_middle {A : Type} (l1 l2 : list A) (x y : A) (i : nat) :
  length l1 = i -> wr (l1 ++ x :: l2) i y = Ok (l1 ++ y :: l2).
Proof.
  revert i. induction l1 as [|h t IH]; intros i H; simpl in *; subst i.
  - reflexivity.
  - rewrite (IH (length t) eq_refl). reflexivity.
Qed.

Lemma skipn_step {A : Type} (l : list A) (n : nat) (x : A) :
  nth_error l n = Some x -> skipn n l = x :: skipn (S n) l.
Proof.
  revert n. induction l as [|h t IH]; intros [|n] H; simpl in *; try discriminate.
  - inversion H; reflexivity.
  - apply IH. exact H.
Qed.

Lemma rb_addRxn_fill_exact net r :
  for_loop (length (rateSpecies r)) 0 (RB.addRxn_fill net r)
    (rb_zero_row r, rb_zero_row r)
  = Ok (rb_live_row net r, rb_zero_row r).
Proof.
  unfold rb_zero_row, rb_live_row. set (rs := rateSpecies r). set (n := length rs).
  pose (I := fun (i : nat) (rows : list float * list float) =>
    fst rows = map (pop_of net) (firstn i rs) ++ repeat 0%float (n - i)
    /\ snd rows = repeat 0%float n).
  destruct (for_loop_total I (RB.addRxn_fill net r) n 0 (repeat 0%float n, repeat 0%float n))
    as (rows & Hrows & Ho & Hp).
  - unfold I. simpl. rewrite Nat.sub_0_r. auto.
  - intros i [o pr] Hi (Ho & Hp). simpl in Ho, Hp. subst o pr.
    unfold RB.addRxn_fill. fold rs. simpl.
    destruct (rd_lt rs i) as (s & Hs); [fold n; lia|]. rewrite Hs. simpl.
    apply rd_Ok in Hs.
    replace (n - i) with (S (n - S i)) by lia. simpl repeat.
    rewrite (wr_middle _ _ _ (pop_of net s) i).
    2:{ rewrite length_map. apply firstn_length_le. fold n. lia. }
    simpl. rewrite (wr_same (repeat 0%float n) i 0%float).
    2:{ apply nth_error_repeat. lia. }
    simpl. eexists. split; [reflexivity|]. unfold I. cbn [fst snd]. split; [|reflexivity].
    rewrite (firstn_snoc _ _ _ Hs), map_app, <- app_assoc. reflexivity.
  - rewrite Hrows. simpl in Ho, Hp. destruct rows as [o pr]. simpl in *. subst o pr.
    rewrite Nat.sub_diag. simpl. rewrite app_nil_r.
    unfold n. rewrite firstn_all. reflexivity.
Qed.

(** [addRxn()] on a registry that is consistent and behind the network. *)
Lemma rb_addRxn_exact net t r :
  RB.registry_ok t ->
  nth_error (rxn net) (length (RB.oldPop t)) = Some r ->
  RB.addRxn net t
  = Ok (RB.set_projPop (RB.projPop t ++ [rb_zero_row r])
          (RB.set_oldPop (RB.oldPop t ++ [rb_live_row net r]) t)).
Proof.
  intros Hok Hr. unfold RB.addRxn.
  assert (Hlt : length (RB.oldPop t) < length (rxn net)).
  { apply nth_error_Some. congruence. }
  unfold RB.registry_ok in Hok.
  replace ((length (RB.oldPop t) <? length (rxn net))
           && (length (RB.projPop t) <? length (rxn net))
           && (length (RB.oldPop t) =? length (RB.projPop t))) with true.
  2:{ symmetry. rewrite !andb_true_iff, !Nat.ltb_lt, Nat.eqb_eq. lia. }
  apply rd_Ok in Hr. rewrite Hr. simpl.
  pose proof (rb_addRxn_fill_exact net r) as Hfill. unfold rb_zero_row in Hfill at 1 2.
  rewrite Hfill. reflexivity.
Qed.

Lemma rb_catchUp_loop_exact fuel net t :
  RB.registry_ok t ->
  length (RB.oldPop t) <= length (rxn net) ->
  length (rxn net) - length (RB.oldPop t) < fuel ->
  exists t',
    RB.catchUp_loop fuel net t = Ok t'
    /\ RB.oldPop t'
       = RB.oldPop t ++ map (rb_live_row net) (skipn (length (RB.oldPop t)) (rxn net))
    /\ RB.projPop t'
       = RB.projPop t ++ map rb_zero_row (skipn (length (RB.oldPop t)) (rxn net)).
Proof.
  revert t. induction fuel as [|fuel IH]; intros t Hok Hle Hf; [lia|].
  simpl. destruct (RB.behind net t) eqn:Hb.
  - assert (Hlt : length (RB.oldPop t) < length (rxn net)).
    { unfold RB.behind in Hb. apply andb_true_iff in Hb. destruct Hb as (Hb & _).
      apply negb_true_iff, Nat.eqb_neq in Hb. lia. }
    destruct (rd_lt (rxn net) _ Hlt) as (r & Hr). apply rd_Ok in Hr.
    rewrite (rb_addRxn_exact net t r Hok Hr). simpl.
    match goal with |- exists t', RB.catchUp_loop fuel net ?t1 = _ /\ _ =>
      destruct (IH t1) as (t' & Ht' & Ho & Hp)
    end.
    + unfold RB.registry_ok in *. simpl. rewrite !length_app. simpl. lia.
    + simpl. rewrite length_app. simpl. lia.
    + simpl. rewrite length_app. simpl. lia.
    + exists t'. split; [exact Ht'|]. simpl in Ho, Hp.
      rewrite length_app in Ho, Hp. simpl in Ho, Hp.
      rewrite Nat.add_1_r in Ho, Hp.
      rewrite (skipn_step _ _ _ Hr). simpl. rewrite Ho, Hp, <- !app_assoc. auto.
  - exists t. split; [reflexivity|].
    apply rb_behind_false in Hb. unfold RB.registry_ok in Hok.
    rewrite skipn_all2 by lia. simpl. rewrite !app_nil_r. auto.
Qed.

Lemma sb_addSpecies_exact E net t s :
  SB.registry_ok t ->
  nth_error (sp net) (length (SB.oldPop t)) = Some s ->
  SB.addSpecies E net t
  = Ok (SB.set_registry (SB.oldPop t ++ [pop_of net s])
          (SB.old_g t ++ [SB.get_g E (SB.gGet t) net (length (SB.oldPop t))])
          (SB.projPop t ++ [0%float]) t).
Proof.
  intros Hok Hs.
  destruct (sb_addSpecies_cases E net t) as [(_ & s' & Hs' & Heq)|(Hg & _)].
  - assert (s' = s) by congruence. subst s'. exact Heq.
  - exfalso. assert (sb_addSpecies_guard net t = true); [|congruence].
    apply sb_addSpecies_guard_true. split; [|exact Hok].
    apply nth_error_Some. congruence.
Qed.

Lemma sb_catchUp_loop_exact E fuel net t :
  SB.registry_ok t ->
  length (SB.oldPop t) <= length (sp net) ->
  length (sp net) - length (SB.oldPop t) < fuel ->
  exists t',
    SB.catchUp_loop E fuel net t = Ok t'
    /\ SB.oldPop t'
       = SB.oldPop t ++ map (pop_of net) (skipn (length (SB.oldPop t)) (sp net))
    /\ SB.old_g t' = SB.old_g t ++ sb_live_g E (SB.gGet t) net (length (SB.oldPop t))
    /\ SB.projPop t'
       = SB.projPop t ++ repeat 0%float (length (sp net) - length (SB.oldPop t)).
Proof.
  revert t. induction fuel as [|fuel IH]; intros t Hok Hle Hf; [lia|].
  simpl. destruct (SB.behind net t) eqn:Hb.
  - assert (Hlt : length (SB.oldPop t) < length (sp net)).
    { unfold SB.behind in Hb. apply andb_true_iff in Hb. destruct Hb as (Hb & _).
      apply andb_true_iff in Hb. destruct Hb as (Hb & _).
      apply negb_true_iff, Nat.eqb_neq in Hb. lia. }
    destruct (rd_lt (sp net) _ Hlt) as (s & Hs). apply rd_Ok in Hs.
    rewrite (sb_addSpecies_exact E net t s Hok Hs). simpl.
    match goal with |- exists t', SB.catchUp_loop E fuel net ?t1 = _ /\ _ =>
      destruct (IH t1) as (t' & Ht' & Ho & Hg & Hp)
    end.
    + destruct Hok as (H1 & H2). unfold SB.registry_ok. simpl.
      rewrite !length_app. simpl. lia.
    + simpl. rewrite length_app. simpl. lia.
    + simpl. rewrite length_app. simpl. lia.
    + exists t'. split; [exact Ht'|]. simpl in Ho, Hg, Hp.
      rewrite length_app in Ho, Hg, Hp. simpl in Ho, Hg, Hp.
      rewrite Nat.add_1_r in Ho, Hg, Hp.
      rewrite (skipn_step _ _ _ Hs). simpl. rewrite Ho, Hg, Hp, <- !app_assoc.
      unfold sb_live_g.
      replace (length (sp net) - length (SB.oldPop t))
        with (S (length (sp net) - S (length (SB.oldPop t)))) by lia.
      simpl. auto.
  - exists t. split; [reflexivity|].
    apply sb_behind_false in Hb. destruct Hok as (H1 & H2).
    assert (Heq : length (SB.oldPop t) = length (sp net)) by lia.
    rewrite skipn_all2 by lia. unfold sb_live_g. rewrite Heq, Nat.sub_diag. simpl.
    rewrite !app_nil_r. auto.
Qed.

(** X1: on a controller whose parallel arrays have equal length and are not
    longer than the live network, the catch-up returns; it keeps every entry
    the registry had and appends, for each reaction (species) the registry
    lacked and in the order of the network, the live populations to [oldPop]
    and zeros to [projPop] (and the current g-values to [old_g]); afterwards
    all arrays are as long as the network. *)
Theorem X1_catchUp_appends_live_values :
  (forall net t,
      RB.registry_ok t -> length (RB.oldPop t) <= length (rxn net) ->
      exists t',
        RB.catchUp net t = Ok t'
        /\ RB.oldPop t'
           = RB.oldPop t ++ map (rb_live_row net) (skipn (length (RB.oldPop t)) (rxn net))
        /\ RB.projPop t'
           = RB.projPop t ++ map rb_zero_row (skipn (length (RB.oldPop t)) (rxn net))
        /\ length (RB.oldPop t') = length (rxn net)
        /\ length (RB.projPop t') = length (rxn net))
  /\ (forall E net t,
        SB.registry_ok t -> length (SB.oldPop t) <= length (sp net) ->
        exists t',
          SB.catchUp E net t = Ok t'
          /\ SB.oldPop t'
             = SB.oldPop t ++ map (pop_of net) (skipn (length (SB.oldPop t)) (sp net))
          /\ SB.old_g t'
             = SB.old_g t ++ sb_live_g E (SB.gGet t) net (length (SB.oldPop t))
          /\ SB.projPop t'
             = SB.projPop t ++ repeat 0%float (length (sp net) - length (SB.oldPop t))
          /\ length (SB.oldPop t') = length (sp net)
          /\ length (SB.old_g t') = length (sp net)
          /\ length (SB.projPop t') = length (sp net)).
Proof.
  split.
  - intros net t Hok Hle.
    destruct (rb_catchUp_loop_exact (S (length (rxn net))) net t Hok Hle)
      as (t' & Ht' & Ho & Hp); [lia|].
    exists t'. split; [exact Ht'|]. split; [exact Ho|]. split; [exact Hp|].
    unfold RB.registry_ok in Hok.
    rewrite Ho, Hp, !length_app, !length_map, length_skipn. lia.
  - intros E net t Hok Hle.
    destruct (sb_catchUp_loop_exact E (S (length (sp net))) net t Hok Hle)
      as (t' & Ht' & Ho & Hg & Hp); [lia|].
    exists t'. split; [exact Ht'|]. split; [exact Ho|]. split; [exact Hg|].
    split; [exact Hp|]. destruct Hok as (H1 & H2).
    rewrite Ho, Hg, Hp. unfold sb_live_g.
    rewrite !length_app, !length_map, length_skipn, length_seq, repeat_length. lia.
Qed.

(** The controller of the scenario catches up with the grown network, by
    [X1_catchUp_appends_live_values]. *)
Lemma X1_catchUp_appends_live_values_witness :
  exists t t',
    Scenario.rb0 = Ok t
    /\ RB.catchUp net_grown t = Ok t'
    /\ RB.oldPop t' = [[100%float]; [100%float; 40%float]]
    /\ RB.projPop t' = [[0%float]; [0%float; 0%float]].
Proof.
  eexists.
  match goal with |- exists t', ?A /\ _ =>
    assert (H0 : A) by (vm_compute; reflexivity)
  end.
  match type of H0 with _ = Ok ?t0 =>
    destruct (proj1 X1_catchUp_appends_live_values net_grown t0)
      as (t' & Hc & Ho & Hp & _)
  end.
  - reflexivity.
  - simpl. lia.
  - exists t'. split; [exact H0|]. split; [exact Hc|]. split; [exact Ho | exact Hp].
Defined.

Lemma rb_add_all_exact net t :
  RB.oldPop t = [] -> RB.projPop t = [] ->
  exists t',
    RB.add_all net t = Ok t'
    /\ RB.oldPop t' = map (rb_live_row net) (rxn net)
    /\ RB.projPop t' = map rb_zero_row (rxn net)
    /\ RB.aCalc t' = RB.aCalc t /\ rb_same_config t t'.
Proof.
  intros Ho Hp. unfold RB.add_all.
  pose (I := fun (i : nat) (c : RB.eRungeKutta_TC_FG_rbPL) =>
    RB.oldPop c = map (rb_live_row net) (firstn i (rxn net))
    /\ RB.projPop c = map rb_zero_row (firstn i (rxn net))
    /\ RB.aCalc c = RB.aCalc t /\ rb_same_config t c).
  destruct (for_loop_total I (fun _ c => RB.addRxn net c) (length (rxn net)) 0 t)
    as (t' & Ht' & H1 & H2 & H3 & H4).
  - unfold I. rewrite Ho, Hp. simpl. auto using rb_same_config_refl.
  - intros i c Hi (H1 & H2 & H3 & H4).
    assert (Hlen : length (RB.oldPop c) = i).
    { rewrite H1, length_map. apply firstn_length_le. lia. }
    destruct (rd_lt (rxn net) i) as (r & Hr); [lia|]. apply rd_Ok in Hr.
    rewrite (rb_addRxn_exact net c r).
    + eexists. split; [reflexivity|]. unfold I. cbn [RB.oldPop RB.projPop RB.aCalc
        RB.set_oldPop RB.set_projPop].
      rewrite (firstn_snoc _ _ _ Hr), !map_app, H1, H2. simpl.
      refine (conj eq_refl (conj eq_refl (conj H3 H4))).
    + unfold RB.registry_ok. rewrite H1, H2, !length_map. reflexivity.
    + rewrite Hlen. exact Hr.
  - exists t'. simpl in *. rewrite firstn_all in H1, H2. auto.
Qed.

Lemma sb_add_all_exact E net t :
  SB.oldPop t = [] -> SB.old_g t = [] -> SB.projPop t = [] ->
  exists t',
    SB.add_all E net t = Ok t'
    /\ SB.oldPop t' = map (pop_of net) (sp net)
    /\ SB.old_g t' = sb_live_g E (SB.gGet t) net 0
    /\ SB.projPop t' = repeat 0%float (length (sp net))
    /\ SB.aCalc t' = SB.aCalc t /\ sb_same_config t t'.
Proof.
  intros Ho Hg Hp. unfold SB.add_all.
  pose (I := fun (i : nat) (c : SB.eRungeKutta_TC_FG_sbPL) =>
    SB.oldPop c = map (pop_of net) (firstn i (sp net))
    /\ SB.old_g c = map (SB.get_g E (SB.gGet t) net) (seq 0 i)
    /\ SB.projPop c = repeat 0%float i
    /\ SB.aCalc c = SB.aCalc t /\ sb_same_config t c).
  destruct (for_loop_total I (fun _ c => SB.addSpecies E net c) (length (sp net)) 0 t)
    as (t' & Ht' & H1 & H2 & H3 & H4 & H5).
  - unfold I. rewrite Ho, Hg, Hp. simpl. auto 6 using sb_same_config_refl.
  - intros i c Hi (H1 & H2 & H3 & H4 & H5).
    assert (Hlen : length (SB.oldPop c) = i).
    { rewrite H1, length_map. apply firstn_length_le. lia. }
    destruct (rd_lt (sp net) i) as (s & Hs); [lia|]. apply rd_Ok in Hs.
    rewrite (sb_addSpecies_exact E net c s).
    + eexists. split; [reflexivity|]. unfold I.
      cbn [SB.oldPop SB.old_g SB.projPop SB.aCalc SB.set_registry].
      rewrite Hlen, (firstn_snoc _ _ _ Hs), map_app, H1, H2, H3.
      rewrite seq_S, map_app. simpl.
      assert (Hgg : SB.gGet c = SB.gGet t) by apply H5. rewrite Hgg.
      refine (conj eq_refl (conj eq_refl (conj _ (conj H4 H5)))).
      clear. induction i as [|i IH]; simpl; [reflexivity|]. rewrite IH. reflexivity.
    + unfold SB.registry_ok. rewrite H1, H2, H3, !length_map, length_seq, repeat_length.
      rewrite firstn_length_le by lia. auto.
    + rewrite Hlen. exact Hs.
  - exists t'. simpl in *. rewrite firstn_all in H1. unfold sb_live_g.
    rewrite Nat.sub_0_r. auto 6.
Qed.

(** X2: the copy constructor always succeeds and copies none of the
    original's registry: whatever the original's [oldPop] and [projPop] (and
    [old_g]), the copy's baseline is the live population of the network at the
    time of the copy (with freshly computed g-values) and its projection is all
    zeros, while the effective-propensity calculator, [p], [pp], [q], [w], the
    checker and the corrector are the original's.  The other constructors, when
    they return, leave the same registry. *)
Theorem X2_constructors_snapshot_the_network :
  (forall net orig,
      exists c,
        RB.copy net orig = Ok c
        /\ RB.oldPop c = map (rb_live_row net) (rxn net)
        /\ RB.projPop c = map rb_zero_row (rxn net)
        /\ RB.aCalc c = RB.aCalc orig
        /\ RB.p c = RB.p orig /\ RB.pp c = RB.pp orig /\ RB.q c = RB.q orig
        /\ RB.w c = RB.w orig /\ RB.ch c = RB.ch orig /\ RB.bc c = RB.bc orig)
  /\ (forall E base eps p0 pp0 q0 w0 net t,
        RB.construct E base eps p0 pp0 q0 w0 net = Ok t ->
        RB.oldPop t = map (rb_live_row net) (rxn net)
        /\ RB.projPop t = map rb_zero_row (rxn net)
        /\ RB.aCalc t = fg_aCalc base)
  /\ (forall E net orig,
        exists c,
          SB.copy E net orig = Ok c
          /\ SB.oldPop c = map (pop_of net) (sp net)
          /\ SB.old_g c = sb_live_g E (SB.gGet orig) net 0
          /\ SB.projPop c = repeat 0%float (length (sp net))
          /\ SB.aCalc c = SB.aCalc orig
          /\ SB.p c = SB.p orig /\ SB.pp c = SB.pp orig /\ SB.q c = SB.q orig
          /\ SB.w c = SB.w orig /\ SB.ch c = SB.ch orig /\ SB.bc c = SB.bc orig)
  /\ (forall E base eps p0 pp0 q0 w0 net t,
        SB.construct E base eps p0 pp0 q0 w0 net = Ok t ->
        SB.oldPop t = map (pop_of net) (sp net)
        /\ SB.old_g t = sb_live_g E (SB.gGet t) net 0
        /\ SB.projPop t = repeat 0%float (length (sp net))
        /\ SB.aCalc t = fg_aCalc base).
Proof.
  repeat apply conj.
  - intros net orig. unfold RB.copy.
    match goal with |- exists c, RB.add_all net ?c0 = _ /\ _ =>
      destruct (rb_add_all_exact net c0 eq_refl eq_refl) as (c & Hc & Ho & Hp & Ha & Hcfg)
    end.
    exists c. destruct Hcfg as (a1 & a2 & a3 & a4 & _ & _ & a7 & a8). simpl in *.
    repeat split; assumption.
  - intros E base eps p0 pp0 q0 w0 net t H. unfold RB.construct in H.
    destruct (pp0 <? p0)%float; [discriminate|].
    destruct (q0 <? 1)%float; [discriminate|].
    destruct ((w0 <=? 0)%float || (1 <=? w0)%float); [discriminate|].
    ok_inv H. ok_inv H.
    match type of H with RB.add_all net ?c0 = _ =>
      destruct (rb_add_all_exact net c0 eq_refl eq_refl) as (c & Hc & Ho & Hp & Hac & _)
    end.
    assert (c = t) by congruence. subst c. auto.
  - intros E net orig. unfold SB.copy.
    match goal with |- exists c, SB.add_all E net ?c0 = _ /\ _ =>
      destruct (sb_add_all_exact E net c0 eq_refl eq_refl eq_refl)
        as (c & Hc & Ho & Hg & Hp & Ha & Hcfg)
    end.
    exists c. destruct Hcfg as (a1 & a2 & a3 & a4 & _ & _ & a7 & a8 & _). simpl in *.
    repeat split; assumption.
  - intros E base eps p0 pp0 q0 w0 net t H. unfold SB.construct in H.
    destruct (pp0 <? p0)%float; [discriminate|].
    destruct (q0 <? 1)%float; [discriminate|].
    destruct ((w0 <=? 0)%float || (1 <=? w0)%float); [discriminate|].
    ok_inv H. ok_inv H. ok_inv H.
    match type of H with SB.add_all E net ?c0 = _ =>
      destruct (sb_add_all_exact E net c0 eq_refl eq_refl eq_refl)
        as (c & Hc & Ho & Hg & Hp & Hac & Hcfg)
    end.
    assert (c = t) by congruence. subst c.
    destruct Hcfg as (_ & _ & _ & _ & _ & _ & _ & _ & Hgg). simpl in *.
    rewrite Hgg. auto.
Qed.

(** Copying the used controller of the scenario onto the network after the
    leap gives baseline 93, not the original's 100, by
    [X2_constructors_snapshot_the_network]. *)
Lemma X2_constructors_snapshot_the_network_witness :
  exists c,
    RB.oldPop rb_used = [[100%float]]
    /\ RB.copy net_after_leap rb_used = Ok c
    /\ RB.oldPop c = [[93%float]]
    /\ RB.projPop c = [[0%float]].
Proof.
  destruct (proj1 X2_constructors_snapshot_the_network net_after_leap rb_used)
    as (c & Hc & Ho & Hp & _).
  exists c. split; [reflexivity|]. split; [exact Hc|]. split; [exact Ho | exact Hp].
Defined.

(** ** Where the process can exit *)

(** The call does not end in [exit()]. *)
Definition never_exits {A : Type} (m : Outcome A) : Prop :=
  match m with
  | Exit _ _ => False
  | _ => True
  end.

(** A network from which every reaction and species has been removed. *)
Definition net_emptied : Network :=
  {| memory := fun _ => {| population := 0 |}; sp := []; rxn := [] |}.

Lemma bind_never_exits {A B : Type} (m : Outcome A) (k : A -> Outcome B) :
  never_exits m -> (forall a, m = Ok a -> never_exits (k a)) -> never_exits (bind m k).
Proof. destruct m; simpl; auto. Qed.

Lemma rd_never_exits {A : Type} (v : list A) i : never_exits (rd v i).
Proof. unfold rd. destruct (nth_error v i); exact I. Qed.

Lemma wr_never_exits {A : Type} (v : list A) i x : never_exits (wr v i x).
Proof. destruct (wr_no_exit v i x) as [(v' & ->)| ->]; exact I. Qed.

Lemma rd2_never_exits {A : Type} (m : list (list A)) i j : never_exits (rd2 m i j).
Proof.
  unfold rd2. apply bind_never_exits; intros; apply rd_never_exits.
Qed.

Lemma wr2_never_exits {A : Type} (m : list (list A)) i j x : never_exits (wr2 m i j x).
Proof.
  unfold wr2. apply bind_never_exits; [apply rd_never_exits|]. intros row _.
  apply bind_never_exits; intros; apply wr_never_exits.
Qed.

Lemma for_loop_never_exits {S : Type} (body : nat -> S -> Outcome S) n :
  (forall i s, never_exits (body i s)) ->
  forall lo s, never_exits (for_loop n lo body s).
Proof.
  intros Hb. induction n as [|n IH]; intros lo s; simpl; [exact I|].
  apply bind_never_exits; auto.
Qed.

Ltac never_exits_step :=
  first [ apply rd_never_exits | apply wr_never_exits | apply rd2_never_exits
        | apply wr2_never_exits | exact I
        | apply bind_never_exits; [|intros ? _] ].

Lemma calc_dX_never_exits ac tau : never_exits (calc_dX ac tau).
Proof.
  unfold calc_dX. apply for_loop_never_exits. intros j arrs.
  unfold dX_step, dX_entry. repeat never_exits_step.
  apply for_loop_never_exits. intros v acc. unfold accumulate.
  repeat never_exits_step.
Qed.

Lemma rb_trial_never_exits E net t tau : never_exits (RB.trial E net t tau).
Proof.
  unfold RB.trial. apply bind_never_exits; [apply calc_dX_never_exits|]. intros dX _.
  apply bind_never_exits; [|intros; exact I].
  unfold RB.project. apply for_loop_never_exits. intros v proj.
  unfold RB.project_row. apply bind_never_exits; [apply rd_never_exits|]. intros r _.
  apply for_loop_never_exits. intros j cur. unfold RB.project_entry.
  repeat never_exits_step.
Qed.

Lemma sb_trial_never_exits E net t tau : never_exits (SB.trial E net t tau).
Proof.
  unfold SB.trial. apply bind_never_exits; [apply calc_dX_never_exits|]. intros dX _.
  apply bind_never_exits; [|intros; exact I].
  unfold SB.project. apply for_loop_never_exits. intros j cur.
  unfold SB.project_entry. repeat never_exits_step.
Qed.

Lemma rb_preCheck_never_exits E fuel net t tau calls :
  never_exits (RB.preCheck E fuel net t tau calls).
Proof.
  revert t tau calls. induction fuel as [|fuel IH]; intros t tau calls; simpl; [exact I|].
  apply bind_never_exits; [apply rb_trial_never_exits|]. intros [t1 ok] _.
  destruct ok; simpl; [exact I | apply IH].
Qed.

Lemma sb_preCheck_never_exits E fuel net t tau calls :
  never_exits (SB.preCheck E fuel net t tau calls).
Proof.
  revert t tau calls. induction fuel as [|fuel IH]; intros t tau calls; simpl; [exact I|].
  apply bind_never_exits; [apply sb_trial_never_exits|]. intros [t1 ok] _.
  destruct ok; simpl; [exact I | apply IH].
Qed.

Lemma rb_after_catchUp_never_exits E fuel net t tau t1 :
  RB.catchUp net t = Ok t1 -> never_exits (RB.getNewTau E fuel net t tau).
Proof.
  intros H. unfold RB.getNewTau. rewrite H. simpl.
  apply bind_never_exits; [|intros; apply rb_preCheck_never_exits].
  unfold RB.firstTau. destruct (RB.preCalc t1); [exact I|].
  destruct (RB.substantially t1) as [[|]|]; exact I.
Qed.

Lemma sb_after_catchUp_never_exits E fuel net t tau t1 :
  SB.catchUp E net t = Ok t1 -> never_exits (SB.getNewTau E fuel net t tau).
Proof.
  intros H. unfold SB.getNewTau. rewrite H. simpl.
  apply bind_never_exits; [|intros; apply sb_preCheck_never_exits].
  unfold SB.firstTau. destruct (SB.preCalc t1); [exact I|].
  destruct (SB.substantially t1) as [[|]|]; exact I.
Qed.

Lemma rb_catchUp_shrunk net t :
  RB.registry_ok t -> length (rxn net) < length (RB.oldPop t) ->
  RB.catchUp net t
  = Exit 1 (no_rxns_to_add (length (RB.oldPop t)) (length (RB.projPop t))
              (length (rxn net))).
Proof.
  intros Hok Hlt. unfold RB.registry_ok in Hok. unfold RB.catchUp. simpl.
  replace (RB.behind net t) with true.
  2:{ symmetry. unfold RB.behind.
      rewrite andb_true_iff, !negb_true_iff, !Nat.eqb_neq. lia. }
  destruct (rb_addRxn_cases net t) as [(Hg & _)|(_ & ->)]; [|reflexivity].
  apply rb_addRxn_guard_true in Hg. lia.
Qed.

Lemma sb_catchUp_shrunk E net t :
  SB.registry_ok t -> length (sp net) < length (SB.oldPop t) ->
  SB.catchUp E net t
  = Exit 1 (no_species_to_add (length (SB.oldPop t)) (length (SB.old_g t))
              (length (SB.projPop t)) (length (sp net))).
Proof.
  intros (H1 & H2) Hlt. unfold SB.catchUp. simpl.
  replace (SB.behind net t) with true.
  2:{ symmetry. unfold SB.behind.
      rewrite !andb_true_iff, !negb_true_iff, !Nat.eqb_neq. lia. }
  destruct (sb_addSpecies_cases E net t) as [(Hg & _)|(_ & ->)]; [|reflexivity].
  apply sb_addSpecies_guard_true in Hg. lia.
Qed.

(** X3: for a controller whose parallel arrays have equal length, [check()]
    and [getNewTau()] end in [exit(1)] exactly when the live network has
    fewer reactions (species) than the registry has rows, with the "no rxns
    (species) to add" diagnostic carrying the three (four) sizes; otherwise
    [check()] returns and [getNewTau()] does not exit: the retry loop has no
    exit of its own. *)
Theorem X3_exit_iff_network_shrank :
  (forall E fuel net t tau,
      RB.registry_ok t ->
      (length (rxn net) < length (RB.oldPop t) ->
       RB.check E net t
       = Exit 1 (no_rxns_to_add (length (RB.oldPop t)) (length (RB.projPop t))
                   (length (rxn net)))
       /\ RB.getNewTau E fuel net t tau
          = Exit 1 (no_rxns_to_add (length (RB.oldPop t)) (length (RB.projPop t))
                      (length (rxn net))))
      /\ (length (RB.oldPop t) <= length (rxn net) ->
          (exists ok t' calls, RB.check E net t = Ok (ok, t', calls))
          /\ never_exits (RB.getNewTau E fuel net t tau)))
  /\ (forall E fuel net t tau,
        SB.registry_ok t ->
        (length (sp net) < length (SB.oldPop t) ->
         SB.check E net t
         = Exit 1 (no_species_to_add (length (SB.oldPop t)) (length (SB.old_g t))
                     (length (SB.projPop t)) (length (sp net)))
         /\ SB.getNewTau E fuel net t tau
            = Exit 1 (no_species_to_add (length (SB.oldPop t)) (length (SB.old_g t))
                        (length (SB.projPop t)) (length (sp net))))
        /\ (length (SB.oldPop t) <= length (sp net) ->
            (exists ok t' calls, SB.check E net t = Ok (ok, t', calls))
            /\ never_exits (SB.getNewTau E fuel net t tau))).
Proof.
  split.
  - intros E fuel net t tau Hok. split.
    + intros Hlt. unfold RB.check, RB.getNewTau.
      rewrite (rb_catchUp_shrunk net t Hok Hlt). auto.
    + intros Hle.
      destruct (rb_catchUp_loop_exact (S (length (rxn net))) net t Hok Hle)
        as (t1 & Hc & _); [lia|].
      split; [|exact (rb_after_catchUp_never_exits E fuel net t tau t1 Hc)].
      unfold RB.check. unfold RB.catchUp. rewrite Hc. simpl.
      destruct (RB.RBChecker_check E (RB.ch t1) net (RB.w t1) (a_eff (RB.aCalc t1))
                  (RB.oldPop t1) true); eexists; eexists; eexists; reflexivity.
  - intros E fuel net t tau Hok. split.
    + intros Hlt. unfold SB.check, SB.getNewTau.
      rewrite (sb_catchUp_shrunk E net t Hok Hlt). auto.
    + intros Hle.
      destruct (sb_catchUp_loop_exact E (S (length (sp net))) net t Hok Hle)
        as (t1 & Hc & _); [lia|].
      split; [|exact (sb_after_catchUp_never_exits E fuel net t tau t1 Hc)].
      unfold SB.check. unfold SB.catchUp. rewrite Hc. simpl.
      destruct (SB.SBChecker_check E (SB.ch t1) net (SB.w t1) (X_eff (SB.aCalc t1))
                  (SB.oldPop t1) (SB.old_g t1) true); eexists; eexists; eexists; reflexivity.
Qed.

(** Against a network emptied of its one reaction, the used controller of the
    scenario exits from both calls, by [X3_exit_iff_network_shrank]. *)
Lemma X3_exit_iff_network_shrank_witness :
  RB.check Scenario.rb net_emptied rb_used = Exit 1 (no_rxns_to_add 1 1 0)
  /\ RB.getNewTau Scenario.rb 5 net_emptied rb_used 1%float
     = Exit 1 (no_rxns_to_add 1 1 0).
Proof.
  apply (proj1 (proj1 X3_exit_iff_network_shrank Scenario.rb 5 net_emptied rb_used
                  1%float eq_refl)).
  simpl. lia.
Defined.

(** ** What [getNewTau] hands over to the firing step *)

(** [fireRxns(k, classif, tau)]: the call is handed on to the firing generator
    [fg], code of another translation unit, together with [aCalc->a_eff]. *)
Definition rb_fireRxns {R : Type}
  (fg_fireRxns : list float -> list Z -> float -> list float -> R)
  (this : RB.eRungeKutta_TC_FG_rbPL) (k : list float) (classif : list Z) (tau : float)
  : R :=
  fg_fireRxns k classif tau (a_eff (RB.aCalc this)).

Definition sb_fireRxns {R : Type}
  (fg_fireRxns : list float -> list Z -> float -> list float -> R)
  (this : SB.eRungeKutta_TC_FG_sbPL) (k : list float) (classif : list Z) (tau : float)
  : R :=
  fg_fireRxns k classif tau (a_eff (SB.aCalc this)).

(** The controller after [k] passes of the retry loop that were all
    rejected, starting at trial value [tau]; [None] if one of them was accepted
    or did not complete. *)
Fixpoint rb_rejected (E : RB.Collaborators) (net : Network) (k : nat)
  (t : RB.eRungeKutta_TC_FG_rbPL) (tau : float) : option RB.eRungeKutta_TC_FG_rbPL :=
  match k with
  | O => Some t
  | S k' =>
      match RB.trial E net t tau with
      | Ok (t1, false) => rb_rejected E net k' t1 (tau * RB.p t1)%float
      | _ => None
      end
  end.

Fixpoint sb_rejected (E : SB.Collaborators) (net : Network) (k : nat)
  (t : SB.eRungeKutta_TC_FG_sbPL) (tau : float) : option SB.eRungeKutta_TC_FG_sbPL :=
  match k with
  | O => Some t
  | S k' =>
      match SB.trial E net t tau with
      | Ok (t1, false) => sb_rejected E net k' t1 (tau * SB.p t1)%float
      | _ => None
      end
  end.

(** X4: when [getNewTau] returns, the controller holds the state of the
    accepted trial: [aCalc] is what [calc_aEff] produced for the returned tau,
    [projPop] holds the projection for the returned tau (baseline + mean +
    deviation, entry by entry) and passes the checker at scale 1.0 with
    [postcheck = false]; [fireRxns] for that tau therefore hands the firing
    generator the effective propensities computed for it. *)
Theorem X4_getNewTau_leaves_accepted_trial :
  (forall E fuel net t tau t' tau' calls,
      RB.getNewTau E fuel net t tau = Ok (t', tau', calls) ->
      exists ac0,
        RB.aCalc t' = RB.calc_aEff E net tau' ac0
        /\ RB.RBChecker_check E (RB.ch t') net 1 (a_eff (RB.aCalc t')) (RB.projPop t')
             false = true
        /\ (forall v r j,
              v < length (RB.projPop t') -> nth_error (rxn net) v = Some r ->
              j < length (rateSpecies r) ->
              exists S_j o,
                rd2 (rateSp (RB.aCalc t')) v j = Ok S_j
                /\ rd2 (RB.oldPop t') v j = Ok o
                /\ rd2 (RB.projPop t') v j
                   = Ok (o + mean_of (RB.aCalc t') tau' S_j
                           + sdev_of (RB.aCalc t') tau' S_j)%float)
        /\ forall (R : Type) (fg : list float -> list Z -> float -> list float -> R)
                  k classif,
             rb_fireRxns fg t' k classif tau'
             = fg k classif tau' (a_eff (RB.calc_aEff E net tau' ac0)))
  /\ (forall E fuel net t tau t' tau' calls,
        SB.getNewTau E fuel net t tau = Ok (t', tau', calls) ->
        exists ac0,
          SB.aCalc t' = SB.calc_aEff E net tau' ac0
          /\ SB.SBChecker_check E (SB.ch t') net 1 (X_eff (SB.aCalc t')) (SB.projPop t')
               (SB.old_g t') false = true
          /\ (forall j, j < length (SB.projPop t') ->
                exists o,
                  nth_error (SB.oldPop t') j = Some o
                  /\ nth_error (SB.projPop t') j
                     = Some (o + mean_of (SB.aCalc t') tau' j
                               + sdev_of (SB.aCalc t') tau' j)%float)
          /\ forall (R : Type) (fg : list float -> list Z -> float -> list float -> R)
                    k classif,
               sb_fireRxns fg t' k classif tau'
               = fg k classif tau' (a_eff (SB.calc_aEff E net tau' ac0))).
Proof.
  split.
  - intros E fuel net t tau t' tau' calls H. unfold RB.getNewTau in H.
    ok_inv H. ok_inv H.
    destruct (rb_preCheck_Ok E _ _ _ _ _ _ _ _ H) as (k & _ & _ & _ & _ & _ & _ & t0 & Ht0).
    destruct (rb_trial_Ok E _ _ _ _ _ Ht0) as (Hac & Ho & Hl & Hcfg & Hok & Hproj).
    exists (RB.aCalc t0). split; [exact Hac|].
    assert (Hch : RB.ch t' = RB.ch t0) by apply Hcfg.
    split; [rewrite Hch; symmetry; exact Hok|]. split.
    + intros v r j Hv Hr Hj. rewrite Hl in Hv. rewrite Ho. apply (Hproj v r j Hv Hr Hj).
    + intros R fg k0 classif. unfold rb_fireRxns. rewrite Hac. reflexivity.
  - intros E fuel net t tau t' tau' calls H. unfold SB.getNewTau in H.
    ok_inv H. ok_inv H.
    destruct (sb_preCheck_Ok E _ _ _ _ _ _ _ _ H)
      as (k & _ & _ & _ & _ & _ & _ & _ & t0 & Ht0).
    destruct (sb_trial_Ok E _ _ _ _ _ Ht0) as (Hac & Ho & Hg & Hl & Hcfg & Hok & Hproj).
    exists (SB.aCalc t0). split; [exact Hac|].
    assert (Hch : SB.ch t' = SB.ch t0) by apply Hcfg.
    split; [rewrite Hch, Hg; symmetry; exact Hok|]. split.
    + intros j Hj. rewrite Hl in Hj. rewrite Ho. apply (Hproj j Hj).
    + intros R fg k0 classif. unfold sb_fireRxns. rewrite Hac. reflexivity.
Qed.

(** In the scenario of section 8.6 the controller returned with tau = 0.5
    passes the checker, by [X4_getNewTau_leaves_accepted_trial]. *)
Lemma X4_getNewTau_leaves_accepted_trial_witness :
  exists t t' calls,
    Scenario.rb0 = Ok t
    /\ RB.getNewTau Scenario.rb 5 Scenario.net t 7%float = Ok (t', 0.5%float, calls)
    /\ RB.RBChecker_check Scenario.rb (RB.ch t') Scenario.net 1 (a_eff (RB.aCalc t'))
         (RB.projPop t') false = true.
Proof.
  eexists. eexists. eexists.
  match goal with |- ?A /\ ?G /\ _ =>
    assert (H0 : A) by (vm_compute; reflexivity);
    assert (H : G) by (vm_compute; reflexivity)
  end.
  split; [exact H0|]. split; [exact H|].
  destruct (proj1 X4_getNewTau_leaves_accepted_trial Scenario.rb _ _ _ _ _ _ _ H)
    as (ac0 & _ & Hpass & _).
  exact Hpass.
Defined.

Lemma rb_preCheck_first_accepted E fuel net t tau calls t' tau' calls' :
  RB.preCheck E fuel net t tau calls = Ok (t', tau', calls') ->
  exists k s,
    k < fuel /\ rb_rejected E net k t tau = Some s
    /\ RB.trial E net s tau' = Ok (t', true)
    /\ tau' = shrunk (RB.p t) tau k
    /\ calls' = calls ++ trials (RB.p t) tau (S k).
Proof.
  revert t tau calls. induction fuel as [|fuel IH]; intros t tau calls H; simpl in H;
    [discriminate|].
  destruct (RB.trial E net t tau) as [[t1 ok]| | |] eqn:Ht; simpl in H; try discriminate.
  destruct ok.
  - inversion H; subst; clear H. exists 0, t. simpl. repeat split; auto. lia.
  - destruct (rb_trial_Ok E _ _ _ _ _ Ht) as (_ & _ & _ & Hcfg & _).
    assert (Hp : RB.p t1 = RB.p t) by apply Hcfg.
    apply IH in H. destruct H as (k & s & Hk & Hrej & Hacc & Htau & Hcalls).
    exists (S k), s. simpl. rewrite Ht. rewrite Hp in *.
    repeat split; auto; try lia. rewrite Hcalls, <- app_assoc. reflexivity.
Qed.

Lemma rb_preCheck_enough_fuel E net k : forall fuel t tau calls s t',
  rb_rejected E net k t tau = Some s ->
  RB.trial E net s (shrunk (RB.p t) tau k) = Ok (t', true) ->
  k < fuel ->
  RB.preCheck E fuel net t tau calls
  = Ok (t', shrunk (RB.p t) tau k, calls ++ trials (RB.p t) tau (S k)).
Proof.
  induction k as [|k IH]; intros fuel t tau calls s t' Hrej Hacc Hk;
    (destruct fuel as [|fuel]; [lia|]); simpl in *.
  - inversion Hrej; subst s. rewrite Hacc. reflexivity.
  - destruct (RB.trial E net t tau) as [[t1 ok]| | |] eqn:Ht; try discriminate.
    destruct ok; [discriminate|]. simpl.
    destruct (rb_trial_Ok E _ _ _ _ _ Ht) as (_ & _ & _ & Hcfg & _).
    assert (Hp : RB.p t1 = RB.p t) by apply Hcfg.
    rewrite (IH fuel t1 (tau * RB.p t1)%float _ s t' Hrej); rewrite Hp in *; auto; try lia.
    rewrite <- app_assoc. reflexivity.
Qed.

Lemma sb_preCheck_first_accepted E fuel net t tau calls t' tau' calls' :
  SB.preCheck E fuel net t tau calls = Ok (t', tau', calls') ->
  exists k s,
    k < fuel /\ sb_rejected E net k t tau = Some s
    /\ SB.trial E net s tau' = Ok (t', true)
    /\ tau' = shrunk (SB.p t) tau k
    /\ calls' = calls ++ trials (SB.p t) tau (S k).
Proof.
  revert t tau calls. induction fuel as [|fuel IH]; intros t tau calls H; simpl in H;
    [discriminate|].
  destruct (SB.trial E net t tau) as [[t1 ok]| | |] eqn:Ht; simpl in H; try discriminate.
  destruct ok.
  - inversion H; subst; clear H. exists 0, t. simpl. repeat split; auto. lia.
  - destruct (sb_trial_Ok E _ _ _ _ _ Ht) as (_ & _ & _ & _ & Hcfg & _).
    assert (Hp : SB.p t1 = SB.p t) by apply Hcfg.
    apply IH in H. destruct H as (k & s & Hk & Hrej & Hacc & Htau & Hcalls).
    exists (S k), s. simpl. rewrite Ht. rewrite Hp in *.
    repeat split; auto; try lia. rewrite Hcalls, <- app_assoc. reflexivity.
Qed.

Lemma sb_preCheck_enough_fuel E net k : forall fuel t tau calls s t',
  sb_rejected E net k t tau = Some s ->
  SB.trial E net s (shrunk (SB.p t) tau k) = Ok (t', true) ->
  k < fuel ->
  SB.preCheck E fuel net t tau calls
  = Ok (t', shrunk (SB.p t) tau k, calls ++ trials (SB.p t) tau (S k)).
Proof.
  induction k as [|k IH]; intros fuel t tau calls s t' Hrej Hacc Hk;
    (destruct fuel as [|fuel]; [lia|]); simpl in *.
  - inversion Hrej; subst s. rewrite Hacc. reflexivity.
  - destruct (SB.trial E net t tau) as [[t1 ok]| | |] eqn:Ht; try discriminate.
    destruct ok; [discriminate|]. simpl.
    destruct (sb_trial_Ok E _ _ _ _ _ Ht) as (_ & _ & _ & _ & Hcfg & _).
    assert (Hp : SB.p t1 = SB.p t) by apply Hcfg.
    rewrite (IH fuel t1 (tau * SB.p t1)%float _ s t' Hrej); rewrite Hp in *; auto; try lia.
    rewrite <- app_assoc. reflexivity.
Qed.

(** X5: the retry loop returns the first value of the sequence tau, tau*p,
    tau*p*p, ... that the checker accepts.  If it returns after [k] shrinks,
    the [k] trials before were all rejected and the trial at the returned tau
    was accepted; conversely, if the first [k] trials are rejected and the
    next one is accepted, the loop returns that tau after exactly [k + 1]
    calls of [calc_aEff] and of the checker, for any bound on the number of
    passes above [k]. *)
Theorem X5_retry_loop_returns_first_accepted :
  (forall E fuel net t tau calls t' tau' calls',
      RB.preCheck E fuel net t tau calls = Ok (t', tau', calls') ->
      exists k s,
        k < fuel /\ rb_rejected E net k t tau = Some s
        /\ RB.trial E net s tau' = Ok (t', true)
        /\ tau' = shrunk (RB.p t) tau k
        /\ calls' = calls ++ trials (RB.p t) tau (S k))
  /\ (forall E net k fuel t tau calls s t',
        rb_rejected E net k t tau = Some s ->
        RB.trial E net s (shrunk (RB.p t) tau k) = Ok (t', true) ->
        k < fuel ->
        RB.preCheck E fuel net t tau calls
        = Ok (t', shrunk (RB.p t) tau k, calls ++ trials (RB.p t) tau (S k)))
  /\ (forall E fuel net t tau calls t' tau' calls',
        SB.preCheck E fuel net t tau calls = Ok (t', tau', calls') ->
        exists k s,
          k < fuel /\ sb_rejected E net k t tau = Some s
          /\ SB.trial E net s tau' = Ok (t', true)
          /\ tau' = shrunk (SB.p t) tau k
          /\ calls' = calls ++ trials (SB.p t) tau (S k))
  /\ (forall E net k fuel t tau calls s t',
        sb_rejected E net k t tau = Some s ->
        SB.trial E net s (shrunk (SB.p t) tau k) = Ok (t', true) ->
        k < fuel ->
        SB.preCheck E fuel net t tau calls
        = Ok (t', shrunk (SB.p t) tau k, calls ++ trials (SB.p t) tau (S k))).
Proof.
  repeat apply conj.
  - intros. eapply rb_preCheck_first_accepted; eassumption.
  - intros. eapply rb_preCheck_enough_fuel; eassumption.
  - intros. eapply sb_preCheck_first_accepted; eassumption.
  - intros. eapply sb_preCheck_enough_fuel; eassumption.
Qed.

(** In the scenario of section 8.6 the trial at 1.0 is rejected and the one
    at 0.5 accepted; any bound above one pass gives tau = 0.5, by
    [X5_retry_loop_returns_first_accepted]. *)
Lemma X5_retry_loop_returns_first_accepted_witness :
  exists s t',
    rb_rejected Scenario.rb Scenario.net 1 rb_used 1%float = Some s
    /\ RB.trial Scenario.rb Scenario.net s 0.5%float = Ok (t', true)
    /\ RB.preCheck Scenario.rb 1000 Scenario.net rb_used 1%float []
       = Ok (t', 0.5%float, trials 0.5 1 2).
Proof.
  eexists. eexists.
  match goal with |- ?A /\ ?B /\ _ =>
    assert (Ha : A) by (vm_compute; reflexivity);
    assert (Hb : B) by (vm_compute; reflexivity)
  end.
  split; [exact Ha|]. split; [exact Hb|].
  apply (proj1 (proj2 X5_retry_loop_returns_first_accepted)
           Scenario.rb Scenario.net 1 1000 rb_used 1%float [] _ _ Ha Hb).
  lia.
Defined.

(** ** When [update()] returns *)

(** Every row of the baseline has room for the rate species of its
    reaction, as it has when [addRxn()] allocated it for that reaction. *)
Definition rb_rows_fit (net : Network) (old : list (list float)) : Prop :=
  forall v r row,
    nth_error (rxn net) v = Some r -> nth_error old v = Some row ->
    length (rateSpecies r) <= length row.

Lemma wr2_lt {A : Type} (m : list (list A)) i j x row :
  nth_error m i = Some row -> j < length row -> exists m', wr2 m i j x = Ok m'.
Proof.
  intros Hr Hj. unfold wr2. apply rd_Ok in Hr. rewrite Hr. simpl.
  destruct (wr_lt row j x Hj) as (row' & ->). simpl.
  apply wr_lt. apply rd_Ok in Hr. apply nth_error_Some. congruence.
Qed.

Lemma wr2_same {A : Type} (m : list (list A)) i j x :
  rd2 m i j = Ok x -> wr2 m i j x = Ok m.
Proof.
  unfold rd2, wr2. intros H. ok_inv H. rewrite Ha. simpl. apply rd_Ok in H, Ha.
  rewrite (wr_same _ _ _ H). simpl. apply wr_same. exact Ha.
Qed.

Lemma for_loop_id {S : Type} (body : nat -> S -> Outcome S) (s : S) n :
  forall lo, (forall i, lo <= i < lo + n -> body i s = Ok s) ->
             for_loop n lo body s = Ok s.
Proof.
  induction n as [|n IH]; intros lo H; simpl; [reflexivity|].
  rewrite H by lia. simpl. apply IH. intros i Hi. apply H. lia.
Qed.

Lemma rb_rows_fit_wr2 net m m' i j x :
  wr2 m i j x = Ok m' -> rb_rows_fit net m -> rb_rows_fit net m'.
Proof.
  intros H Hfit. apply wr2_Ok in H.
  destruct H as (_ & (row & row' & Hrow & Hrow' & Hl & _) & Hk).
  intros v r rw Hr Hrw. destruct (Nat.eq_dec v i) as [->|Hne].
  - assert (rw = row') by congruence. subst rw. rewrite Hl. eapply Hfit; eauto.
  - rewrite Hk in Hrw by exact Hne. eapply Hfit; eauto.
Qed.

Lemma rb_update_rows_total net old :
  rb_rows_fit net old -> length old <= length (rxn net) ->
  exists old', for_loop (length old) 0 (RB.update_row net) old = Ok old'
               /\ length old' = length old.
Proof.
  intros Hfit Hle.
  pose (I := fun (i : nat) (cur : list (list float)) =>
              length cur = length old /\ rb_rows_fit net cur).
  destruct (for_loop_total I (RB.update_row net) (length old) 0 old)
    as (old' & Hold' & Hl & _).
  - split; auto.
  - intros i cur Hi (Hl & Hf). unfold RB.update_row.
    destruct (rd_lt (rxn net) i) as (r & Hr); [lia|]. rewrite Hr. simpl.
    apply rd_Ok in Hr.
    pose (J := fun (j : nat) (c : list (list float)) =>
                length c = length old /\ rb_rows_fit net c).
    destruct (for_loop_total J (RB.update_entry net r i) (length (rateSpecies r)) 0 cur)
      as (c' & Hc' & HJ).
    + split; auto.
    + intros j c Hj (Hlc & Hfc). unfold RB.update_entry.
      destruct (rd_lt (rateSpecies r) j) as (s & ->); [lia|]. simpl.
      destruct (rd_lt c i) as (row & Hrow); [lia|]. apply rd_Ok in Hrow.
      destruct (wr2_lt c i j (pop_of net s) row Hrow) as (c1 & Hc1).
      { pose proof (Hfc i r row Hr Hrow). lia. }
      exists c1. split; [exact Hc1|]. split.
      * apply wr2_Ok in Hc1. destruct Hc1 as (-> & _). exact Hlc.
      * eapply rb_rows_fit_wr2; eauto.
    + exists c'. split; [exact Hc'|]. exact HJ.
  - exists old'. auto.
Qed.

Lemma wr_short {A : Type} (v : list A) i x : length v <= i -> wr v i x = Undefined.
Proof.
  revert i. induction v as [|h v IH]; intros i H; destruct i; simpl in *;
    try reflexivity; try lia.
  rewrite IH by lia. reflexivity.
Qed.

Lemma for_loop_undefined_at {S : Type} (Inv : nat -> S -> Prop)
  (body : nat -> S -> Outcome S) k n :
  forall lo s,
    lo <= k < lo + n -> Inv lo s ->
    (forall i t, lo <= i < k -> Inv i t ->
       exists t', body i t = Ok t' /\ Inv (Datatypes.S i) t') ->
    (forall t, Inv k t -> body k t = Undefined) ->
    for_loop n lo body s = Undefined.
Proof.
  induction n as [|n IH]; intros lo s Hk H0 Hstep Hat; [lia|]. simpl.
  destruct (Nat.eq_dec lo k) as [->|Hne].
  - rewrite (Hat s H0). reflexivity.
  - destruct (Hstep lo s) as (t' & -> & Hi); [lia|exact H0|]. simpl.
    apply IH; [lia|exact Hi| |exact Hat].
    intros i t Hi' HI. apply Hstep; [lia|exact HI].
Qed.

(** X6: on a controller whose baseline rows have room for the rate species of
    their reactions and whose baseline is not longer than the network (for the
    species-based controller: whose baseline is not longer than the network
    and not longer than [old_g]), [update()] returns exactly when [oldPop] and
    [projPop] (and [old_g]) are as long as the live network.  If the network
    has grown since the last catch-up it exits with "Sizes of 'oldPop' and
    'rxn' ('sp') vectors not equal"; if only a later array is off it names
    that array.  A species-based controller whose [old_g] is shorter than a
    baseline that fits the network does not get as far as the size checks:
    the loop writes [old_g[j]] past the end of the array. *)
Theorem X6_update_needs_synchronised_registry :
  (forall net t,
      rb_rows_fit net (RB.oldPop t) -> length (RB.oldPop t) <= length (rxn net) ->
      (length (RB.oldPop t) = length (rxn net) ->
       length (RB.projPop t) = length (rxn net) ->
       exists t', RB.update net t = Ok t')
      /\ (length (RB.oldPop t) < length (rxn net) ->
          RB.update net t = Exit 1 (sizes_not_equal "update" "oldPop" "rxn"))
      /\ (length (RB.oldPop t) = length (rxn net) ->
          length (RB.projPop t) <> length (rxn net) ->
          RB.update net t = Exit 1 (sizes_not_equal "update" "projPop" "rxn")))
  /\ (forall E net t,
        length (SB.oldPop t) <= length (SB.old_g t) ->
        length (SB.oldPop t) <= length (sp net) ->
        (length (SB.oldPop t) = length (sp net) ->
         length (SB.old_g t) = length (sp net) ->
         length (SB.projPop t) = length (sp net) ->
         exists t', SB.update E net t = Ok t')
        /\ (length (SB.oldPop t) < length (sp net) ->
            SB.update E net t = Exit 1 (sizes_not_equal "update" "oldPop" "sp"))
        /\ (length (SB.oldPop t) = length (sp net) ->
            length (SB.old_g t) <> length (sp net) ->
            SB.update E net t = Exit 1 (sizes_not_equal "update" "old_g" "sp"))
        /\ (length (SB.oldPop t) = length (sp net) ->
            length (SB.old_g t) = length (sp net) ->
            length (SB.projPop t) <> length (sp net) ->
            SB.update E net t = Exit 1 (sizes_not_equal "update" "projPop" "sp")))
  /\ (forall E net t,
        length (SB.old_g t) < length (SB.oldPop t) ->
        length (SB.oldPop t) <= length (sp net) ->
        SB.update E net t = Undefined).
Proof.
  split; [|split].
  - intros net t Hfit Hle.
    destruct (rb_update_rows_total net (RB.oldPop t) Hfit Hle) as (old' & Hold' & Hl).
    unfold RB.update. rewrite Hold'. simpl. rewrite Hl. repeat apply conj.
    + intros H1 H2. rewrite H1, H2, Nat.eqb_refl. simpl. eexists; reflexivity.
    + intros H1. replace (length (RB.oldPop t) =? length (rxn net)) with false;
        [reflexivity|]. symmetry. apply Nat.eqb_neq. lia.
    + intros H1 H2. rewrite H1, Nat.eqb_refl. simpl.
      replace (length (RB.projPop t) =? length (rxn net)) with false; [reflexivity|].
      symmetry. apply Nat.eqb_neq. exact H2.
  - intros E net t Hg Hle.
    pose (I := fun (i : nat) (arrs : list float * list float) =>
                length (fst arrs) = length (SB.oldPop t)
                /\ length (snd arrs) = length (SB.old_g t)).
    destruct (for_loop_total I (SB.update_entry E net (SB.gGet t)) (length (SB.oldPop t)) 0
                (SB.oldPop t, SB.old_g t)) as ([o g] & Harr & Ho & Hgl).
    + split; reflexivity.
    + intros i [co cg] Hi (H1 & H2). simpl in *. unfold SB.update_entry. simpl.
      destruct (rd_lt (sp net) i) as (s & ->); [lia|]. simpl.
      destruct (wr_lt co i (pop_of net s)) as (co' & Hco); [lia|]. rewrite Hco. simpl.
      destruct (wr_lt cg i (SB.get_g E (SB.gGet t) net i)) as (cg' & Hcg); [lia|].
      rewrite Hcg. simpl. eexists. split; [reflexivity|]. split; simpl.
      * apply wr_Ok in Hco. destruct Hco as (-> & _). exact H1.
      * apply wr_Ok in Hcg. destruct Hcg as (-> & _). exact H2.
    + simpl in Ho, Hgl. unfold SB.update. rewrite Harr. simpl. rewrite Ho, Hgl.
      repeat apply conj.
      * intros H1 H2 H3. rewrite H1, H2, H3, Nat.eqb_refl. simpl. eexists; reflexivity.
      * intros H1. replace (length (SB.oldPop t) =? length (sp net)) with false;
          [reflexivity|]. symmetry. apply Nat.eqb_neq. lia.
      * intros H1 H2. rewrite H1, Nat.eqb_refl. simpl.
        replace (length (SB.old_g t) =? length (sp net)) with false; [reflexivity|].
        symmetry. apply Nat.eqb_neq. exact H2.
      * intros H1 H2 H3. rewrite H1, H2, Nat.eqb_refl. simpl.
        replace (length (SB.projPop t) =? length (sp net)) with false; [reflexivity|].
        symmetry. apply Nat.eqb_neq. exact H3.
  - intros E net t Hg Hle. unfold SB.update.
    pose (Inv := fun (i : nat) (arrs : list float * list float) =>
                  length (fst arrs) = length (SB.oldPop t)
                  /\ length (snd arrs) = length (SB.old_g t)).
    rewrite (for_loop_undefined_at Inv (SB.update_entry E net (SB.gGet t))
               (length (SB.old_g t)) (length (SB.oldPop t)) 0
               (SB.oldPop t, SB.old_g t)); [reflexivity| lia | split; reflexivity | |].
    + intros i [co cg] Hi (H1 & H2). simpl in *. unfold SB.update_entry. simpl.
      destruct (rd_lt (sp net) i) as (s & ->); [lia|]. simpl.
      destruct (wr_lt co i (pop_of net s)) as (co' & Hco); [lia|]. rewrite Hco. simpl.
      destruct (wr_lt cg i (SB.get_g E (SB.gGet t) net i)) as (cg' & Hcg); [lia|].
      rewrite Hcg. simpl. eexists. split; [reflexivity|]. split; simpl.
      * apply wr_Ok in Hco. destruct Hco as (-> & _). exact H1.
      * apply wr_Ok in Hcg. destruct Hcg as (-> & _). exact H2.
    + intros [co cg] (H1 & H2). simpl in *. unfold SB.update_entry. simpl.
      destruct (rd_lt (sp net) (length (SB.old_g t))) as (s & ->); [lia|]. simpl.
      destruct (wr_lt co (length (SB.old_g t)) (pop_of net s)) as (co' & ->); [lia|].
      simpl. rewrite wr_short by lia. reflexivity.
Qed.

(** On the grown network, before any catch-up, [update()] on the used
    controller of the scenario exits; on a species-based controller of the
    scenario that has lost its [old_g], [update()] runs off the end of the
    array; both by [X6_update_needs_synchronised_registry]. *)
Lemma X6_update_needs_synchronised_registry_witness :
  RB.update net_grown rb_used = Exit 1 (sizes_not_equal "update" "oldPop" "rxn")
  /\ SB.update Scenario.sb Scenario.net
       {| SB.aCalc := fg_aCalc Scenario.base;
          SB.p := 0.5; SB.pp := 0.9; SB.q := 1.5; SB.w := 0.01;
          SB.preCalc := false; SB.substantially := Some true;
          SB.ch := {| SB.ch_eps := 0.1 |}; SB.bc := {| bc_p := 0.5 |};
          SB.gGet := SB.the_g_Getter;
          SB.oldPop := [100%float]; SB.old_g := []; SB.projPop := [0%float] |}
     = Undefined.
Proof.
  split.
  - refine (proj1 (proj2 (proj1 X6_update_needs_synchronised_registry net_grown rb_used
                            _ _)) _).
    + intros [|[|v]] r row Hr Hrow; simpl in *; try discriminate;
        inversion Hr; inversion Hrow; subst; simpl; lia.
    + simpl. lia.
    + simpl. lia.
  - apply (proj2 (proj2 X6_update_needs_synchronised_registry)); simpl; lia.
Defined.

Lemma rb_eta t : RB.set_oldPop (RB.oldPop t) t = t.
Proof. destruct t; reflexivity. Qed.

Lemma sb_eta t : SB.set_registry (SB.oldPop t) (SB.old_g t) (SB.projPop t) t = t.
Proof. destruct t; reflexivity. Qed.

(** X7: [update()] is idempotent: when it has returned, a second call
    against the same network returns the same controller. *)
Theorem X7_update_idempotent :
  (forall net t t', RB.update net t = Ok t' -> RB.update net t' = Ok t')
  /\ (forall E net t t', SB.update E net t = Ok t' -> SB.update E net t' = Ok t').
Proof.
  split.
  - intros net t t' H. apply rb_update_Ok in H.
    destruct H as (Hl & _ & Hlp & Hent & Hp & _).
    unfold RB.update.
    rewrite (for_loop_id (RB.update_row net) (RB.oldPop t')).
    + cbn [bind]. rewrite rb_eta, Hl, Hp, Hlp, Nat.eqb_refl. reflexivity.
    + intros v Hv. unfold RB.update_row.
      destruct (rd_lt (rxn net) v) as (r & Hr); [lia|]. rewrite Hr. simpl.
      apply rd_Ok in Hr. apply for_loop_id. intros j Hj. unfold RB.update_entry.
      destruct (rd_lt (rateSpecies r) j) as (s & Hs); [lia|]. rewrite Hs. simpl.
      apply rd_Ok in Hs. apply wr2_same. apply (Hent v r j s Hr Hs).
  - intros E net t t' H. apply sb_update_Ok in H.
    destruct H as (Hl & Hlg & _ & _ & Hlp & Hent & Hp & _ & Hcfg).
    assert (Hgg : SB.gGet t' = SB.gGet t) by apply Hcfg.
    unfold SB.update.
    rewrite (for_loop_id (SB.update_entry E net (SB.gGet t')) (SB.oldPop t', SB.old_g t')).
    + cbn [bind fst snd]. rewrite sb_eta, Hl, Hlg, Hp, Hlp, Nat.eqb_refl. reflexivity.
    + intros j Hj. unfold SB.update_entry. simpl.
      destruct (rd_lt (sp net) j) as (s & Hs); [lia|]. rewrite Hs. simpl.
      apply rd_Ok in Hs. destruct (Hent j s Hs) as (Ho & Hg).
      rewrite (wr_same _ _ _ Ho). simpl. rewrite Hgg, (wr_same _ _ _ Hg). reflexivity.
Qed.

(** After the leap from 100 to 93, a second [update()] changes nothing, by
    [X7_update_idempotent]. *)
Lemma X7_update_idempotent_witness :
  exists t',
    RB.update net_after_leap rb_used = Ok t'
    /\ RB.oldPop t' = [[93%float]]
    /\ RB.update net_after_leap t' = Ok t'.
Proof.
  eexists.
  match goal with |- ?A /\ _ => assert (H : A) by (vm_compute; reflexivity) end.
  split; [exact H|]. split; [reflexivity|].
  exact (proj1 X7_update_idempotent _ _ _ H).
Defined.

(** ** What [getNewTau] and [check] leave alone *)

Lemma rb_firstTau_frame E net t tau t1 tau1 pre :
  RB.firstTau E net t tau = Ok (t1, tau1, pre) ->
  RB.oldPop t1 = RB.oldPop t
  /\ RB.p t1 = RB.p t /\ RB.pp t1 = RB.pp t /\ RB.q t1 = RB.q t /\ RB.w t1 = RB.w t
  /\ RB.ch t1 = RB.ch t /\ RB.bc t1 = RB.bc t.
Proof.
  unfold RB.firstTau. destruct (RB.preCalc t).
  - intros H. inversion H; subst. simpl. repeat split.
  - destruct (RB.substantially t) as [[|]|]; intros H; inversion H; subst; repeat split.
Qed.

Lemma sb_firstTau_frame E net t tau t1 tau1 pre :
  SB.firstTau E net t tau = Ok (t1, tau1, pre) ->
  SB.oldPop t1 = SB.oldPop t /\ SB.old_g t1 = SB.old_g t
  /\ SB.p t1 = SB.p t /\ SB.pp t1 = SB.pp t /\ SB.q t1 = SB.q t /\ SB.w t1 = SB.w t
  /\ SB.ch t1 = SB.ch t /\ SB.bc t1 = SB.bc t /\ SB.gGet t1 = SB.gGet t.
Proof.
  unfold SB.firstTau. destruct (SB.preCalc t).
  - intros H. inversion H; subst. simpl. repeat split.
  - destruct (SB.substantially t) as [[|]|]; intros H; inversion H; subst; repeat split.
Qed.

(** X8: [getNewTau] and [check] never change an entry the baseline already
    has (they can only append rows for new reactions or species), nor [p],
    [pp], [q], [w], the checker or the corrector; [check] leaves the
    effective-propensity calculator alone as well.  Only [update] rewrites the
    baseline. *)
Theorem X8_baseline_and_parameters_are_kept :
  (forall E fuel net t tau t' tau' calls,
      RB.getNewTau E fuel net t tau = Ok (t', tau', calls) ->
      firstn (length (RB.oldPop t)) (RB.oldPop t') = RB.oldPop t
      /\ RB.p t' = RB.p t /\ RB.pp t' = RB.pp t /\ RB.q t' = RB.q t /\ RB.w t' = RB.w t
      /\ RB.ch t' = RB.ch t /\ RB.bc t' = RB.bc t)
  /\ (forall E net t ok t' calls,
        RB.check E net t = Ok (ok, t', calls) ->
        firstn (length (RB.oldPop t)) (RB.oldPop t') = RB.oldPop t
        /\ RB.aCalc t' = RB.aCalc t
        /\ RB.p t' = RB.p t /\ RB.pp t' = RB.pp t /\ RB.q t' = RB.q t /\ RB.w t' = RB.w t
        /\ RB.ch t' = RB.ch t /\ RB.bc t' = RB.bc t)
  /\ (forall E fuel net t tau t' tau' calls,
        SB.getNewTau E fuel net t tau = Ok (t', tau', calls) ->
        firstn (length (SB.oldPop t)) (SB.oldPop t') = SB.oldPop t
        /\ SB.p t' = SB.p t /\ SB.pp t' = SB.pp t /\ SB.q t' = SB.q t /\ SB.w t' = SB.w t
        /\ SB.ch t' = SB.ch t /\ SB.bc t' = SB.bc t /\ SB.gGet t' = SB.gGet t)
  /\ (forall E net t ok t' calls,
        SB.check E net t = Ok (ok, t', calls) ->
        firstn (length (SB.oldPop t)) (SB.oldPop t') = SB.oldPop t
        /\ SB.aCalc t' = SB.aCalc t
        /\ SB.p t' = SB.p t /\ SB.pp t' = SB.pp t /\ SB.q t' = SB.q t /\ SB.w t' = SB.w t
        /\ SB.ch t' = SB.ch t /\ SB.bc t' = SB.bc t /\ SB.gGet t' = SB.gGet t).
Proof.
  repeat apply conj.
  - intros E fuel net t tau t' tau' calls H. unfold RB.getNewTau in H.
    ok_inv H. rename a into t1. ok_inv H. destruct a as [[t2 tau1] pre]. simpl in H.
    destruct (rb_catchUp_loop_Ok _ _ _ _ Ha)
      as (_ & _ & _ & _ & (c1 & c2 & c3 & c4 & _ & _ & c7 & c8) & Hpre).
    destruct (rb_firstTau_frame _ _ _ _ _ _ _ Ha0) as (Ho & f1 & f2 & f3 & f4 & f5 & f6).
    destruct (rb_preCheck_Ok E _ _ _ _ _ _ _ _ H)
      as (k & _ & _ & _ & Ho' & _ & (d1 & d2 & d3 & d4 & _ & _ & d7 & d8) & _).
    rewrite Ho', Ho. split; [exact Hpre|]. repeat split; congruence.
  - intros E net t ok t' calls H.
    destruct (rb_check_Ok E _ _ _ _ _ H) as (t1 & Hc & -> & _).
    destruct (rb_catchUp_loop_Ok _ _ _ _ Hc)
      as (_ & _ & _ & Hac & (c1 & c2 & c3 & c4 & _ & _ & c7 & c8) & Hpre).
    simpl. repeat split; assumption.
  - intros E fuel net t tau t' tau' calls H. unfold SB.getNewTau in H.
    ok_inv H. rename a into t1. ok_inv H. destruct a as [[t2 tau1] pre]. simpl in H.
    destruct (sb_catchUp_loop_Ok _ _ _ _ _ Ha)
      as (_ & _ & _ & (c1 & c2 & c3 & c4 & _ & _ & c7 & c8 & c9) & Hpre).
    destruct (sb_firstTau_frame _ _ _ _ _ _ _ Ha0)
      as (Ho & _ & f1 & f2 & f3 & f4 & f5 & f6 & f7).
    destruct (sb_preCheck_Ok E _ _ _ _ _ _ _ _ H)
      as (k & _ & _ & _ & Ho' & _ & _ & (d1 & d2 & d3 & d4 & _ & _ & d7 & d8 & d9) & _).
    rewrite Ho', Ho. split; [exact Hpre|]. repeat split; congruence.
  - intros E net t ok t' calls H.
    destruct (sb_check_Ok E _ _ _ _ _ H) as (t1 & Hc & -> & _).
    destruct (sb_catchUp_loop_Ok _ _ _ _ _ Hc)
      as (_ & _ & Hac & (c1 & c2 & c3 & c4 & _ & _ & c7 & c8 & c9) & Hpre).
    simpl. repeat split; assumption.
Qed.

(** [check] on the grown network appends a row and keeps the baseline row
    the scenario's controller had, by [X8_baseline_and_parameters_are_kept]. *)
Lemma X8_baseline_and_parameters_are_kept_witness :
  exists ok t' calls,
    RB.check Scenario.rb net_grown rb_used = Ok (ok, t', calls)
    /\ length (RB.oldPop t') = 2
    /\ firstn 1 (RB.oldPop t') = [[100%float]]
    /\ RB.q t' = 1.5%float.
Proof.
  eexists. eexists. eexists.
  match goal with |- ?A /\ _ => assert (H : A) by (vm_compute; reflexivity) end.
  split; [exact H|]. split; [reflexivity|].
  destruct (proj1 (proj2 X8_baseline_and_parameters_are_kept) Scenario.rb _ _ _ _ _ H)
    as (Hpre & _ & _ & _ & Hq & _).
  split; [exact Hpre | exact Hq].
Defined.

(** ** NaN parameters *)

Lemma nan_not_below (x : float) : (nan <? x)%float = false.
Proof.
  rewrite FloatAxioms.ltb_spec. change (Prim2SF nan) with S754_nan. reflexivity.
Qed.

(** X9: a NaN passes every check of the constructors: [pp < p], [q < 1.0],
    [w <= 0.0] and [w >= 1.0] are all false on NaN, so with pp, q and w all NaN
    construction succeeds whenever the collaborators' constructors do, and the
    controller holds a [w] that is not in (0,1) and a [q] that is not >= 1. *)
Theorem X9_nan_passes_validation :
  (forall E base eps p net c b,
      RB.new_RBChecker E eps net = Ok c ->
      RB.new_BinomialCorrector_RK E p net = Ok b ->
      exists t,
        RB.construct E base eps p nan nan nan net = Ok t
        /\ RB.pp t = nan /\ RB.q t = nan /\ RB.w t = nan
        /\ (0 <? RB.w t)%float = false /\ (1 <=? RB.q t)%float = false)
  /\ (forall E base eps p net c b g,
        SB.new_SBChecker E eps net = Ok c ->
        SB.new_BinomialCorrector_RK E p net = Ok b ->
        SB.new_g_Getter E net = Ok g ->
        exists t,
          SB.construct E base eps p nan nan nan net = Ok t
          /\ SB.pp t = nan /\ SB.q t = nan /\ SB.w t = nan
          /\ (0 <? SB.w t)%float = false /\ (1 <=? SB.q t)%float = false).
Proof.
  split.
  - intros E base eps p net c b Hc Hb. unfold RB.construct.
    rewrite !nan_not_below.
    change ((nan <=? 0)%float || (1 <=? nan)%float) with false. cbv iota.
    rewrite Hc, Hb. simpl.
    match goal with |- exists t, RB.add_all net ?c0 = _ /\ _ =>
      destruct (rb_add_all_total net c0 eq_refl eq_refl) as (t & Ht & _ & _ & _ & Hcfg)
    end.
    exists t. destruct Hcfg as (_ & a2 & a3 & a4 & _). simpl in *.
    rewrite a2, a3, a4. repeat split; auto.
  - intros E base eps p net c b g Hc Hb Hg. unfold SB.construct.
    rewrite !nan_not_below.
    change ((nan <=? 0)%float || (1 <=? nan)%float) with false. cbv iota.
    rewrite Hc, Hb, Hg. simpl.
    match goal with |- exists t, SB.add_all E net ?c0 = _ /\ _ =>
      destruct (sb_add_all_total E net c0 eq_refl eq_refl eq_refl)
        as (t & Ht & _ & _ & _ & _ & Hcfg)
    end.
    exists t. destruct Hcfg as (_ & a2 & a3 & a4 & _). simpl in *.
    rewrite a2, a3, a4. repeat split; auto.
Qed.

(** With the collaborators of the scenario, which accept eps = 0.1 and
    p = 0.5, construction with NaN for pp, q and w succeeds, by
    [X9_nan_passes_validation]. *)
Lemma X9_nan_passes_validation_witness :
  exists t,
    RB.construct Scenario.rb Scenario.base 0.1 0.5 nan nan nan Scenario.net = Ok t
    /\ RB.pp t = nan /\ RB.q t = nan /\ RB.w t = nan
    /\ (0 <? RB.w t)%float = false /\ (1 <=? RB.q t)%float = false.
Proof.
  apply (proj1 X9_nan_passes_validation Scenario.rb Scenario.base 0.1%float 0.5%float
           Scenario.net {| RB.ch_eps := 0.1 |} {| bc_p := 0.5 |}); reflexivity.
Defined.

(** ** One cycle of the driver: [check], [update], [getNewTau] *)

(** X10: after [check()] and [update()] on a controller past its first call,
    [substantially] holds the result of the checker at scale [w] on the
    caught-up baseline with postcheck set, [check()] returned that result or,
    when it was false, the checker's result at scale 1.0, and the next
    [getNewTau] is the catch-up followed by the retry loop started from the
    incoming tau times [q] if the check at scale [w] passed and times [pp]
    otherwise, with no call on [ptc].  A step that [check()] rejected
    (returned false) is treated like a barely accepted one: the factor is
    [pp]. *)
Theorem X10_check_update_getNewTau :
  (forall E net t ok t1 c1 net2 t2 fuel net3 tau,
      RB.preCalc t = false ->
      RB.check E net t = Ok (ok, t1, c1) ->
      RB.update net2 t1 = Ok t2 ->
      exists t0 s,
        RB.catchUp net t = Ok t0
        /\ s = RB.RBChecker_check E (RB.ch t) net (RB.w t) (a_eff (RB.aCalc t))
                 (RB.oldPop t0) true
        /\ ok = (s || RB.RBChecker_check E (RB.ch t) net 1 (a_eff (RB.aCalc t))
                        (RB.oldPop t0) true)
        /\ RB.substantially t1 = Some s
        /\ RB.substantially t2 = Some s
        /\ (ok = false -> s = false) /\ (s = true -> ok = true)
        /\ RB.getNewTau E fuel net3 t2 tau
           = (t3 <- RB.catchUp net3 t2 ;;
              RB.preCheck E fuel net3 t3 (tau * (if s then RB.q t else RB.pp t))%float []))
  /\ (forall E net t ok t1 c1 net2 t2 fuel net3 tau,
        SB.preCalc t = false ->
        SB.check E net t = Ok (ok, t1, c1) ->
        SB.update E net2 t1 = Ok t2 ->
        exists t0 s,
          SB.catchUp E net t = Ok t0
          /\ s = SB.SBChecker_check E (SB.ch t) net (SB.w t) (X_eff (SB.aCalc t))
                   (SB.oldPop t0) (SB.old_g t0) true
          /\ ok = (s || SB.SBChecker_check E (SB.ch t) net 1 (X_eff (SB.aCalc t))
                          (SB.oldPop t0) (SB.old_g t0) true)
          /\ SB.substantially t1 = Some s
          /\ SB.substantially t2 = Some s
          /\ (ok = false -> s = false) /\ (s = true -> ok = true)
          /\ SB.getNewTau E fuel net3 t2 tau
             = (t3 <- SB.catchUp E net3 t2 ;;
                SB.preCheck E fuel net3 t3 (tau * (if s then SB.q t else SB.pp t))%float [])).
Proof.
  split.
  - intros E net t ok t1 c1 net2 t2 fuel net3 tau Hpc Hcheck Hupd.
    destruct (rb_check_Ok E _ _ _ _ _ Hcheck) as (t0 & Hc & Ht1 & Hcase).
    destruct (rb_catchUp_loop_Ok _ _ _ _ Hc)
      as (_ & _ & _ & cA & (_ & c2 & c3 & c4 & c5 & _ & c7 & _) & _).
    destruct (rb_update_Ok _ _ _ Hupd)
      as (_ & _ & _ & _ & _ & _ & (_ & u2 & u3 & _ & u5 & u6 & _)).
    rewrite cA, c4, c7 in Ht1, Hcase.
    exists t0, (RB.RBChecker_check E (RB.ch t) net (RB.w t) (a_eff (RB.aCalc t))
                  (RB.oldPop t0) true).
    subst t1. simpl in *.
    split; [exact Hc|]. split; [reflexivity|]. split; [|split; [reflexivity|]].
    { destruct Hcase as [(Hs & Hok' & _)|(Hs & Hok' & _)]; rewrite Hs; simpl; assumption. }
    split; [exact u6|]. split; [|split].
    + intros Hok. destruct Hcase as [(Hs & Hok' & _)|(Hs & _)]; [congruence | exact Hs].
    + intros Hs. destruct Hcase as [(_ & Hok' & _)|(Hs' & _)]; [exact Hok' | congruence].
    + rewrite (rb_getNewTau_later E fuel net3 t2 tau _ (eq_trans u5 (eq_trans c5 Hpc)) u6).
      rewrite u2, u3, c2, c3. reflexivity.
  - intros E net t ok t1 c1 net2 t2 fuel net3 tau Hpc Hcheck Hupd.
    destruct (sb_check_Ok E _ _ _ _ _ Hcheck) as (t0 & Hc & Ht1 & Hcase).
    destruct (sb_catchUp_loop_Ok _ _ _ _ _ Hc)
      as (_ & _ & cA & (_ & c2 & c3 & c4 & c5 & _ & c7 & _) & _).
    destruct (sb_update_Ok _ _ _ _ Hupd)
      as (_ & _ & _ & _ & _ & _ & _ & _ & (_ & u2 & u3 & _ & u5 & u6 & _)).
    rewrite cA, c4, c7 in Ht1, Hcase.
    exists t0, (SB.SBChecker_check E (SB.ch t) net (SB.w t) (X_eff (SB.aCalc t))
                  (SB.oldPop t0) (SB.old_g t0) true).
    subst t1. simpl in *.
    split; [exact Hc|]. split; [reflexivity|]. split; [|split; [reflexivity|]].
    { destruct Hcase as [(Hs & Hok' & _)|(Hs & Hok' & _)]; rewrite Hs; simpl; assumption. }
    split; [exact u6|]. split; [|split].
    + intros Hok. destruct Hcase as [(Hs & Hok' & _)|(Hs & _)]; [congruence | exact Hs].
    + intros Hs. destruct Hcase as [(_ & Hok' & _)|(Hs' & _)]; [exact Hok' | congruence].
    + rewrite (sb_getNewTau_later E fuel net3 t2 tau _ (eq_trans u5 (eq_trans c5 Hpc)) u6).
      rewrite u2, u3, c2, c3. reflexivity.
Qed.

(** After the leap from 100 to 93 the check at scale [w] = 0.01 fails (7 is
    above 0.01 * 0.1 * 93) and the one at scale 1.0 passes: the step of the
    scenario is barely accepted, and the next [getNewTau] starts from
    tau * pp, by [X10_check_update_getNewTau]. *)
Lemma X10_check_update_getNewTau_witness :
  exists t1 c1 t2 t0 s,
    RB.check Scenario.rb net_after_leap rb_used = Ok (true, t1, c1)
    /\ RB.update net_after_leap t1 = Ok t2
    /\ RB.catchUp net_after_leap rb_used = Ok t0
    /\ s = Scenario.rb_check (RB.ch rb_used) net_after_leap 0.01%float [10%float]
             (RB.oldPop t0) true
    /\ s = false
    /\ RB.substantially t2 = Some s
    /\ RB.getNewTau Scenario.rb 5 net_after_leap t2 0.5%float
       = (t3 <- RB.catchUp net_after_leap t2 ;;
          RB.preCheck Scenario.rb 5 net_after_leap t3 (0.5 * 0.9)%float []).
Proof.
  eexists. eexists. eexists.
  match goal with |- exists t0 s, ?A /\ ?B /\ _ =>
    assert (Ha : A) by (vm_compute; reflexivity);
    assert (Hb : B) by (vm_compute; reflexivity)
  end.
  destruct (proj1 X10_check_update_getNewTau Scenario.rb _ rb_used _ _ _ _ _
              5 net_after_leap 0.5%float eq_refl Ha Hb)
    as (t0 & s & Hc & Hs & _ & _ & Hsub & _ & _ & Hget).
  exists t0, s. split; [exact Ha|]. split; [exact Hb|]. split; [exact Hc|].
  split; [exact Hs|].
  assert (Es : s = false) by (vm_compute in Hsub; congruence).
  split; [exact Es|]. split; [exact Hsub|]. rewrite Hget, Es. reflexivity.
Defined.

(** ** Bounds of the projection *)

(** The indices the loops over [mean_dX] and [sdev_dX] use are in range:
    for every [j] below [X_eff.size()], [spInRxn[j]] exists and for each of its
    entries [v] the coefficient [stoich[j][v]] exists and the reaction index
    [spInRxn[j][v]] is below [a_eff.size()]. *)
Definition dX_in_bounds (ac : aEff_Calculator) : Prop :=
  forall j, j < length (X_eff ac) ->
    exists spj,
      nth_error (spInRxn ac) j = Some spj
      /\ forall v R_v, nth_error spj v = Some R_v ->
           R_v < length (a_eff ac) /\ exists z, rd2 (stoich ac) j v = Ok z.

Lemma for_loop_each {S : Type} (body : nat -> S -> Outcome S) n :
  forall lo s s',
    for_loop n lo body s = Ok s' ->
    forall i, lo <= i < lo + n -> exists a b, body i a = Ok b.
Proof.
  induction n as [|n IH]; intros lo s s' H i Hi; [lia|]. simpl in H. ok_inv H.
  destruct (Nat.eq_dec i lo) as [->|Hne].
  - exists s, a. exact Ha.
  - apply (IH (Datatypes.S lo) a s' H). lia.
Qed.

Lemma calc_dX_total ac tau :
  dX_in_bounds ac ->
  exists mean_dX sdev_dX,
    calc_dX ac tau = Ok (mean_dX, sdev_dX)
    /\ length mean_dX = length (X_eff ac) /\ length sdev_dX = length (X_eff ac).
Proof.
  intros Hb. unfold calc_dX. set (n := length (X_eff ac)).
  pose (Inv := fun (i : nat) (arrs : list float * list float) =>
              length (fst arrs) = n /\ length (snd arrs) = n).
  destruct (for_loop_total Inv (dX_step ac tau) n 0 (repeat 0%float n, repeat 0%float n))
    as ([m s] & Hloop & Hm & Hs).
  - unfold Inv. simpl. rewrite !repeat_length. auto.
  - intros j [m s] Hj (Hm & Hs). simpl in Hm, Hs.
    destruct (Hb j) as (spj & Hspj & Hent); [fold n; lia|].
    unfold dX_step, dX_entry. apply rd_Ok in Hspj. rewrite Hspj. simpl.
    apply rd_Ok in Hspj.
    destruct (for_loop_total (fun _ _ => True) (accumulate ac j) (length spj) 0
                (0%float, 0%float)) as (acc & Hacc & _); [exact I | |].
    { intros v a Hv _. unfold accumulate.
      destruct (rd_lt spj v) as (R_v & HR); [lia|]. apply rd_Ok in HR.
      destruct (Hent v R_v HR) as (HRlt & z & Hz). rewrite Hz. simpl.
      unfold rd2. apply rd_Ok in Hspj. rewrite Hspj. simpl.
      apply rd_Ok in HR. rewrite HR. simpl.
      destruct (rd_lt (a_eff ac) R_v HRlt) as (x & ->). simpl.
      eexists. split; [reflexivity | exact I]. }
    rewrite Hacc. simpl.
    match goal with |- exists t', (x <- wr m j ?e ;; _) = _ /\ _ =>
      destruct (wr_lt m j e) as (m' & Hm'); [lia|]
    end.
    rewrite Hm'. simpl.
    match goal with |- exists t', (x <- wr s j ?e ;; _) = _ /\ _ =>
      destruct (wr_lt s j e) as (s' & Hs'); [lia|]
    end.
    rewrite Hs'. simpl. eexists. split; [reflexivity|]. unfold Inv. simpl.
    apply wr_Ok in Hm', Hs'. destruct Hm' as (-> & _). destruct Hs' as (-> & _). auto.
  - exists m, s. simpl in Hm, Hs. auto.
Qed.

Lemma calc_dX_Ok_in_bounds ac tau r : calc_dX ac tau = Ok r -> dX_in_bounds ac.
Proof.
  intros Hr j Hj. unfold calc_dX in Hr.
  destruct (for_loop_each _ _ _ _ _ Hr j) as (a & b & Hstep); [lia|].
  unfold dX_step in Hstep. apply bind_Ok in Hstep. destruct Hstep as (e & He & _).
  unfold dX_entry in He. apply bind_Ok in He. destruct He as (spj & Hspj & He).
  apply bind_Ok in He. destruct He as (acc & Hacc & _).
  apply rd_Ok in Hspj. exists spj. split; [exact Hspj|].
  intros v R_v HR.
  destruct (for_loop_each _ _ _ _ _ Hacc v) as (x & y & Hv).
  { split; [lia|]. simpl. apply nth_error_Some. congruence. }
  unfold accumulate in Hv. apply bind_Ok in Hv. destruct Hv as (z & Hz & Hv).
  apply bind_Ok in Hv. destruct Hv as (R' & HR' & Hv).
  apply bind_Ok in Hv. destruct Hv as (av & Hav & _).
  assert (R' = R_v).
  { unfold rd2 in HR'. apply rd_Ok in Hspj. rewrite Hspj in HR'. simpl in HR'.
    apply rd_Ok in HR'. congruence. }
  subst R'. split.
  - apply rd_Ok in Hav. apply nth_error_Some. congruence.
  - exists z. exact Hz.
Qed.

(** X11: the computation of the projected changes reads inside its arrays,
    and so returns, exactly when the index tables of the effective-propensity
    calculator are in bounds; it then fills one entry of [mean_dX] and of
    [sdev_dX] per entry of [X_eff]. *)
Theorem X11_calc_dX_returns_iff_in_bounds ac tau :
  (dX_in_bounds ac ->
   exists mean_dX sdev_dX,
     calc_dX ac tau = Ok (mean_dX, sdev_dX)
     /\ length mean_dX = length (X_eff ac) /\ length sdev_dX = length (X_eff ac))
  /\ ((exists r, calc_dX ac tau = Ok r) -> dX_in_bounds ac).
Proof.
  split.
  - apply calc_dX_total.
  - intros (r & Hr). exact (calc_dX_Ok_in_bounds ac tau r Hr).
Qed.

(** The tables of the scenario are in bounds, so the projected changes are
    computed, by [X11_calc_dX_returns_iff_in_bounds]. *)
Lemma X11_calc_dX_returns_iff_in_bounds_witness :
  exists mean_dX sdev_dX,
    calc_dX (fg_aCalc Scenario.base) 0.5%float = Ok (mean_dX, sdev_dX)
    /\ length mean_dX = 1 /\ length sdev_dX = 1.
Proof.
  apply (proj1 (X11_calc_dX_returns_iff_in_bounds (fg_aCalc Scenario.base) 0.5%float)).
  intros [|j] Hj; simpl in Hj; [|lia].
  exists [0]. split; [reflexivity|].
  intros [|[|v]] R_v HR; simpl in HR; try discriminate.
  inversion HR; subst. split; [simpl; lia|]. exists 1%float. reflexivity.
Defined.

(** ** Bounds of a trial *)

(** Two arrays of rows with the same number of rows and the same row
    lengths. *)
Definition same_shape (a b : list (list float)) : Prop :=
  map (@length float) a = map (@length float) b.

(** The indices the loops over [projPop[][]] use are in range, given
    [mean_dX] and [sdev_dX] of [n] entries: every row of [projPop] has a
    reaction, and for every rate species of that reaction the species index
    [rateSp[v][j]] exists and is below [n], and [oldPop[v][j]] and
    [projPop[v][j]] exist. *)
Definition rb_project_in_bounds (net : Network) (ac : aEff_Calculator)
  (old proj : list (list float)) (n : nat) : Prop :=
  forall v, v < length proj ->
    exists r,
      nth_error (rxn net) v = Some r
      /\ forall j, j < length (rateSpecies r) ->
           (exists S_j, rd2 (rateSp ac) v j = Ok S_j /\ S_j < n)
           /\ (exists o, rd2 old v j = Ok o)
           /\ (exists x, rd2 proj v j = Ok x).

Lemma for_loop_each_inv {S : Type} (I : nat -> S -> Prop)
  (body : nat -> S -> Outcome S) n :
  forall lo s s',
    for_loop n lo body s = Ok s' ->
    I lo s ->
    (forall i t t', lo <= i < lo + n -> I i t -> body i t = Ok t' -> I (Datatypes.S i) t') ->
    forall i, lo <= i < lo + n -> exists a b, I i a /\ body i a = Ok b.
Proof.
  induction n as [|n IH]; intros lo s s' H H0 Hstep i Hi; [lia|]. simpl in H.
  apply bind_Ok in H. destruct H as (s1 & Hs1 & H).
  destruct (Nat.eq_dec i lo) as [->|Hne].
  - exists s, s1. auto.
  - apply (IH (Datatypes.S lo) s1 s' H); [| |lia].
    + apply (Hstep lo s s1); auto. lia.
    + intros k t t' Hk. apply Hstep. lia.
Qed.

Lemma same_shape_refl a : same_shape a a.
Proof. reflexivity. Qed.

Lemma same_shape_row a b v row :
  same_shape a b -> nth_error b v = Some row ->
  exists row', nth_error a v = Some row' /\ length row' = length row.
Proof.
  unfold same_shape. intros H Hrow.
  assert (Hn : nth_error (map (@length float) a) v = Some (length row)).
  { rewrite H, nth_error_map, Hrow. reflexivity. }
  rewrite nth_error_map in Hn. destruct (nth_error a v) as [row'|]; [|discriminate].
  exists row'. simpl in Hn. inversion Hn. auto.
Qed.

Lemma same_shape_wr2 m m' i j x b :
  wr2 m i j x = Ok m' -> same_shape m b -> same_shape m' b.
Proof.
  unfold same_shape. intros H Hs. rewrite <- Hs. apply wr2_Ok in H.
  destruct H as (Hl & (row & row' & Hrow & Hrow' & Hlr & _) & Hk).
  apply nth_error_eq_ext. intros k. rewrite !nth_error_map.
  destruct (Nat.eq_dec k i) as [->|Hne].
  - rewrite Hrow, Hrow'. simpl. congruence.
  - rewrite Hk by exact Hne. reflexivity.
Qed.

Lemma same_shape_length a b : same_shape a b -> length a = length b.
Proof.
  unfold same_shape. intros H. apply (f_equal (@length nat)) in H.
  rewrite !length_map in H. exact H.
Qed.

Lemma rd2_shape a b v j x :
  same_shape a b -> rd2 b v j = Ok x -> exists y, rd2 a v j = Ok y.
Proof.
  intros Hs H. unfold rd2 in H. apply bind_Ok in H. destruct H as (row & Hrow & Hx).
  apply rd_Ok in Hrow, Hx.
  destruct (same_shape_row a b v row Hs Hrow) as (row' & Hrow' & Hl).
  unfold rd2. apply rd_Ok in Hrow'. rewrite Hrow'. simpl. apply rd_lt.
  rewrite Hl. apply nth_error_Some. congruence.
Qed.

Lemma rb_project_total net ac old mean_dX sdev_dX proj :
  rb_project_in_bounds net ac old proj (length mean_dX) ->
  length sdev_dX = length mean_dX ->
  exists proj', RB.project net ac old mean_dX sdev_dX proj = Ok proj'.
Proof.
  intros Hb Hls. unfold RB.project.
  destruct (for_loop_total (fun _ cur => same_shape cur proj)
              (RB.project_row net ac old mean_dX sdev_dX) (length proj) 0 proj)
    as (proj' & Hp & _).
  - apply same_shape_refl.
  - intros v cur Hv Hs. destruct (Hb v) as (r & Hr & Hent); [lia|].
    unfold RB.project_row. apply rd_Ok in Hr. rewrite Hr. simpl.
    destruct (for_loop_total (fun _ c => same_shape c proj)
                (RB.project_entry ac old mean_dX sdev_dX v) (length (rateSpecies r)) 0 cur)
      as (c' & Hc' & Hs'); [exact Hs | |].
    + intros j c Hj Hsc. destruct (Hent j) as ((S_j & HS & HSlt) & (o & Ho) & (x & Hx));
        [lia|].
      unfold RB.project_entry. rewrite HS, Ho. simpl.
      destruct (rd_lt mean_dX S_j HSlt) as (m & ->). simpl.
      destruct (rd_lt sdev_dX S_j) as (s & ->); [lia|]. simpl.
      destruct (rd2_shape c proj v j x Hsc Hx) as (y & Hy).
      unfold rd2 in Hy. apply bind_Ok in Hy. destruct Hy as (row & Hrow & Hyj).
      apply rd_Ok in Hrow, Hyj.
      destruct (wr2_lt c v j (o + m + s)%float row Hrow) as (c1 & Hc1).
      { apply nth_error_Some. congruence. }
      exists c1. split; [exact Hc1|]. eapply same_shape_wr2; eauto.
    + exists c'. split; [exact Hc' | exact Hs'].
  - exists proj'. exact Hp.
Qed.

Lemma rb_project_Ok_in_bounds net ac old mean_dX sdev_dX proj proj' :
  RB.project net ac old mean_dX sdev_dX proj = Ok proj' ->
  rb_project_in_bounds net ac old proj (length mean_dX).
Proof.
  unfold RB.project. intros H v Hv.
  destruct (for_loop_each_inv (fun _ cur => same_shape cur proj) _ _ _ _ _ H
              (same_shape_refl proj)) with (i := v) as (cur & nxt & Hs & Hrow); [|lia|].
  { intros i t t' _ Hst Hb. unfold RB.project_row in Hb.
    apply bind_Ok in Hb. destruct Hb as (r & _ & Hb).
    refine (for_loop_inv (fun _ c => same_shape c proj) _ _ _ _ _ Hb Hst _).
    intros j c c' _ Hc Hstep. unfold RB.project_entry in Hstep.
    apply bind_Ok in Hstep. destruct Hstep as (S_j & _ & Hstep).
    apply bind_Ok in Hstep. destruct Hstep as (o & _ & Hstep).
    apply bind_Ok in Hstep. destruct Hstep as (m & _ & Hstep).
    apply bind_Ok in Hstep. destruct Hstep as (s & _ & Hstep).
    eapply same_shape_wr2; eauto. }
  unfold RB.project_row in Hrow. apply bind_Ok in Hrow. destruct Hrow as (r & Hr & Hrow).
  apply rd_Ok in Hr. exists r. split; [exact Hr|]. intros j Hj.
  destruct (for_loop_each_inv (fun _ c => same_shape c proj) _ _ _ _ _ Hrow Hs)
    with (i := j) as (c & c' & Hsc & Hent); [|lia|].
  { intros i t t' _ Hst Hstep. unfold RB.project_entry in Hstep.
    apply bind_Ok in Hstep. destruct Hstep as (S_j & _ & Hstep).
    apply bind_Ok in Hstep. destruct Hstep as (o & _ & Hstep).
    apply bind_Ok in Hstep. destruct Hstep as (m & _ & Hstep).
    apply bind_Ok in Hstep. destruct Hstep as (s & _ & Hstep).
    eapply same_shape_wr2; eauto. }
  unfold RB.project_entry in Hent.
  apply bind_Ok in Hent. destruct Hent as (S_j & HS & Hent).
  apply bind_Ok in Hent. destruct Hent as (o & Ho & Hent).
  apply bind_Ok in Hent. destruct Hent as (m & Hm & Hent).
  apply bind_Ok in Hent. destruct Hent as (s & _ & Hent).
  split; [|split].
  - exists S_j. split; [exact HS|]. apply rd_Ok in Hm. apply nth_error_Some. congruence.
  - exists o. exact Ho.
  - apply wr2_Ok in Hent.
    destruct Hent as (_ & (row & row' & Hrow1 & _ & Hlr & Hj' & _) & _).
    assert (Hsym : same_shape proj c) by (unfold same_shape in *; congruence).
    assert (Hjlt : j < length row).
    { rewrite <- Hlr. apply nth_error_Some. congruence. }
    destruct (rd_lt row j Hjlt) as (y & Hy).
    apply (rd2_shape proj c v j y Hsym).
    unfold rd2. apply rd_Ok in Hrow1. rewrite Hrow1. simpl. exact Hy.
Qed.

Lemma sb_project_total old mean_dX sdev_dX proj :
  length proj <= length old -> length proj <= length mean_dX ->
  length sdev_dX = length mean_dX ->
  exists proj', SB.project old mean_dX sdev_dX proj = Ok proj'.
Proof.
  intros H1 H2 H3. unfold SB.project.
  destruct (for_loop_total (fun _ cur => length cur = length proj)
              (SB.project_entry old mean_dX sdev_dX) (length proj) 0 proj)
    as (proj' & Hp & _); [reflexivity | |exists proj'; exact Hp].
  intros j cur Hj Hl. unfold SB.project_entry.
  destruct (rd_lt old j) as (o & ->); [lia|]. simpl.
  destruct (rd_lt mean_dX j) as (m & ->); [lia|]. simpl.
  destruct (rd_lt sdev_dX j) as (s & ->); [lia|]. simpl.
  destruct (wr_lt cur j (o + m + s)%float) as (c' & Hc'); [lia|].
  exists c'. split; [exact Hc'|]. apply wr_Ok in Hc'. destruct Hc' as (-> & _). exact Hl.
Qed.

Lemma sb_project_Ok_in_bounds old mean_dX sdev_dX proj proj' :
  SB.project old mean_dX sdev_dX proj = Ok proj' ->
  length proj <= length old /\ length proj <= length mean_dX.
Proof.
  unfold SB.project. intros H.
  destruct (length proj) as [|n] eqn:Hn; [lia|].
  destruct (for_loop_each _ _ _ _ _ H n) as (a & b & Hstep); [lia|].
  unfold SB.project_entry in Hstep.
  apply bind_Ok in Hstep. destruct Hstep as (o & Ho & Hstep).
  apply bind_Ok in Hstep. destruct Hstep as (m & Hm & _).
  apply rd_Ok in Ho, Hm.
  assert (n < length old) by (apply nth_error_Some; congruence).
  assert (n < length mean_dX) by (apply nth_error_Some; congruence).
  lia.
Qed.

(** X12: a pass of the retry loop reads and writes inside its arrays, and so
    completes, exactly when the index tables of the effective-propensity
    calculator (as [calc_aEff] leaves them) are in bounds and the registry fits
    them: reaction-based, every row of [projPop] has a reaction whose rate
    species have entries in [rateSp], [oldPop] and [projPop] and species
    indices below [X_eff.size()]; species-based, [projPop] is no longer than
    [oldPop] and than [X_eff].  A registry that has caught up with a grown
    network while the calculator has not is outside these bounds. *)
Theorem X12_trial_completes_iff_in_bounds :
  (forall E net t tau,
      (exists r, RB.trial E net t tau = Ok r)
      <-> (dX_in_bounds (RB.calc_aEff E net tau (RB.aCalc t))
           /\ rb_project_in_bounds net (RB.calc_aEff E net tau (RB.aCalc t))
                (RB.oldPop t) (RB.projPop t)
                (length (X_eff (RB.calc_aEff E net tau (RB.aCalc t))))))
  /\ (forall E net t tau,
        (exists r, SB.trial E net t tau = Ok r)
        <-> (dX_in_bounds (SB.calc_aEff E net tau (SB.aCalc t))
             /\ length (SB.projPop t) <= length (SB.oldPop t)
             /\ length (SB.projPop t)
                <= length (X_eff (SB.calc_aEff E net tau (SB.aCalc t))))).
Proof.
  split.
  - intros E net t tau. unfold RB.trial. simpl.
    set (ac := RB.calc_aEff E net tau (RB.aCalc t)). split.
    + intros (r & H). apply bind_Ok in H. destruct H as ([m s] & Hd & H).
      apply bind_Ok in H. destruct H as (proj & Hp & _). simpl in Hp.
      split; [exact (calc_dX_Ok_in_bounds _ _ _ Hd)|].
      apply calc_dX_Ok in Hd. destruct Hd as (Hlm & _). rewrite <- Hlm.
      exact (rb_project_Ok_in_bounds _ _ _ _ _ _ _ Hp).
    + intros (Hd & Hp).
      destruct (calc_dX_total ac tau Hd) as (m & s & Hc & Hlm & Hls).
      rewrite Hc. simpl. rewrite <- Hlm in Hp.
      destruct (rb_project_total net ac (RB.oldPop t) m s (RB.projPop t) Hp) as (proj & ->);
        [congruence|].
      simpl. eexists. reflexivity.
  - intros E net t tau. unfold SB.trial. simpl.
    set (ac := SB.calc_aEff E net tau (SB.aCalc t)). split.
    + intros (r & H). apply bind_Ok in H. destruct H as ([m s] & Hd & H).
      apply bind_Ok in H. destruct H as (proj & Hp & _). simpl in Hp.
      split; [exact (calc_dX_Ok_in_bounds _ _ _ Hd)|].
      apply calc_dX_Ok in Hd. destruct Hd as (Hlm & _). rewrite <- Hlm.
      exact (sb_project_Ok_in_bounds _ _ _ _ _ Hp).
    + intros (Hd & H1 & H2).
      destruct (calc_dX_total ac tau Hd) as (m & s & Hc & Hlm & Hls).
      rewrite Hc. simpl.
      destruct (sb_project_total (SB.oldPop t) m s (SB.projPop t)) as (proj & ->);
        try lia.
      simpl. eexists. reflexivity.
Qed.

(** The species-based controller of the scenario, caught up with the grown
    network while the calculator still has one species. *)
Definition sb_grown : SB.eRungeKutta_TC_FG_sbPL :=
  {| SB.aCalc := fg_aCalc Scenario.base;
     SB.p := 0.5; SB.pp := 0.9; SB.q := 1.5; SB.w := 0.01;
     SB.preCalc := false; SB.substantially := Some true;
     SB.ch := {| SB.ch_eps := 0.1 |}; SB.bc := {| bc_p := 0.5 |};
     SB.gGet := SB.the_g_Getter;
     SB.oldPop := [100%float; 40%float]; SB.old_g := [1%float; 1%float];
     SB.projPop := [0%float; 0%float] |}.

(** The tables and the registry of the scenario are in bounds, so the pass
    at tau = 0.5 completes, by [X12_trial_completes_iff_in_bounds]; with two
    species in the registry and one in [X_eff] it does not. *)
Lemma X12_trial_completes_iff_in_bounds_witness :
  (exists r, RB.trial Scenario.rb Scenario.net rb_used 0.5%float = Ok r)
  /\ SB.trial Scenario.sb net_grown sb_grown 0.5%float = Undefined.
Proof.
  split; [|vm_compute; reflexivity].
  apply (proj2 (proj1 X12_trial_completes_iff_in_bounds Scenario.rb Scenario.net rb_used
                  0.5%float)).
  split.
  - intros [|j] Hj; simpl in Hj; [|lia].
    exists [0]. split; [reflexivity|].
    intros [|[|v]] R_v HR; simpl in HR; try discriminate.
    inversion HR; subst. split; [simpl; lia|]. exists 1%float. reflexivity.
  - intros [|v] Hv; simpl in Hv; [|lia].
    exists {| rateSpecies := [0] |}. split; [reflexivity|].
    intros [|j] Hj; simpl in Hj; [|lia].
    split; [|split].
    + exists 0. split; [reflexivity | simpl; lia].
    + exists 100%float. reflexivity.
    + exists 107.23606797749979%float. reflexivity.
Defined.

(** * Termination of the retry loop *)

(** ** C9: when the retry loop returns *)

(** One species at population 0 that the one reaction, of constant propensity
    10, produces. *)
Definition net_empty_pool : Network :=
  {| memory := fun _ => {| population := 0 |};
     sp := [0];
     rxn := [ {| rateSpecies := [0] |} ] |}.

Definition base_empty_pool : eRungeKutta_FG :=
  {| fg_aCalc :=
       {| a_eff := [10%float]; X_eff := [0%float]; spInRxn := [[0]];
          stoich := [[1%float]]; rateSp := [[0]] |} |}.

Lemma rb_preCheck_short E net k : forall t tau s fuel calls,
  rb_rejected E net k t tau = Some s -> fuel <= k ->
  RB.preCheck E fuel net t tau calls = OutOfFuel.
Proof.
  induction k as [|k IH]; intros t tau s fuel calls Hrej Hle;
    destruct fuel as [|fuel]; try reflexivity; try lia.
  simpl in *. destruct (RB.trial E net t tau) as [[t1 ok]| | |]; try discriminate.
  destruct ok; [discriminate|]. simpl. eapply IH; [exact Hrej | lia].
Qed.

Lemma rb_preCheck_skip E net k : forall t tau s fuel calls,
  rb_rejected E net k t tau = Some s ->
  exists calls',
    RB.preCheck E (k + fuel) net t tau calls
    = RB.preCheck E fuel net s (shrunk (RB.p t) tau k) calls'.
Proof.
  induction k as [|k IH]; intros t tau s fuel calls Hrej; simpl in *.
  - inversion Hrej; subst. exists calls. reflexivity.
  - destruct (RB.trial E net t tau) as [[t1 ok]| | |] eqn:Ht; try discriminate.
    destruct ok; [discriminate|]. simpl.
    destruct (rb_trial_Ok E _ _ _ _ _ Ht) as (_ & _ & _ & Hcfg & _).
    assert (Hp : RB.p t1 = RB.p t) by apply Hcfg.
    destruct (IH t1 (tau * RB.p t1)%float s fuel
                (calls ++ [aCalc_calc_aEff tau; ch_check 1 false]) Hrej) as (c' & Hc').
    exists c'. rewrite Hc', Hp. reflexivity.
Qed.

(** A rejected trial that leaves the controller and tau as they were is
    rejected ever after. *)
Lemma rb_preCheck_stalled E net s tau :
  RB.trial E net s tau = Ok (s, false) -> (tau * RB.p s)%float = tau ->
  forall fuel calls, RB.preCheck E fuel net s tau calls = OutOfFuel.
Proof.
  intros Ht Hfix fuel. induction fuel as [|fuel IH]; intros calls; simpl; [reflexivity|].
  rewrite Ht. simpl. rewrite Hfix. apply IH.
Qed.

Lemma rb_preCheck_diverges E net k t tau s :
  rb_rejected E net k t tau = Some s ->
  RB.trial E net s (shrunk (RB.p t) tau k) = Ok (s, false) ->
  (shrunk (RB.p t) tau k * RB.p s)%float = shrunk (RB.p t) tau k ->
  forall fuel calls, RB.preCheck E fuel net t tau calls = OutOfFuel.
Proof.
  intros Hrej Ht Hfix fuel calls. destruct (le_lt_dec fuel k) as [Hle|Hlt].
  - eapply rb_preCheck_short; eassumption.
  - replace fuel with (k + (fuel - k)) by lia.
    destruct (rb_preCheck_skip E net k t tau s (fuel - k) calls Hrej) as (c' & ->).
    apply rb_preCheck_stalled; assumption.
Qed.

Lemma sb_preCheck_short E net k : forall t tau s fuel calls,
  sb_rejected E net k t tau = Some s -> fuel <= k ->
  SB.preCheck E fuel net t tau calls = OutOfFuel.
Proof.
  induction k as [|k IH]; intros t tau s fuel calls Hrej Hle;
    destruct fuel as [|fuel]; try reflexivity; try lia.
  simpl in *. destruct (SB.trial E net t tau) as [[t1 ok]| | |]; try discriminate.
  destruct ok; [discriminate|]. simpl. eapply IH; [exact Hrej | lia].
Qed.

Lemma sb_preCheck_skip E net k : forall t tau s fuel calls,
  sb_rejected E net k t tau = Some s ->
  exists calls',
    SB.preCheck E (k + fuel) net t tau calls
    = SB.preCheck E fuel net s (shrunk (SB.p t) tau k) calls'.
Proof.
  induction k as [|k IH]; intros t tau s fuel calls Hrej; simpl in *.
  - inversion Hrej; subst. exists calls. reflexivity.
  - destruct (SB.trial E net t tau) as [[t1 ok]| | |] eqn:Ht; try discriminate.
    destruct ok; [discriminate|]. simpl.
    destruct (sb_trial_Ok E _ _ _ _ _ Ht) as (_ & _ & _ & _ & Hcfg & _).
    assert (Hp : SB.p t1 = SB.p t) by apply Hcfg.
    destruct (IH t1 (tau * SB.p t1)%float s fuel
                (calls ++ [aCalc_calc_aEff tau; ch_check 1 false]) Hrej) as (c' & Hc').
    exists c'. rewrite Hc', Hp. reflexivity.
Qed.

Lemma sb_preCheck_stalled E net s tau :
  SB.trial E net s tau = Ok (s, false) -> (tau * SB.p s)%float = tau ->
  forall fuel calls, SB.preCheck E fuel net s tau calls = OutOfFuel.
Proof.
  intros Ht Hfix fuel. induction fuel as [|fuel IH]; intros calls; simpl; [reflexivity|].
  rewrite Ht. simpl. rewrite Hfix. apply IH.
Qed.

Lemma sb_preCheck_diverges E net k t tau s :
  sb_rejected E net k t tau = Some s ->
  SB.trial E net s (shrunk (SB.p t) tau k) = Ok (s, false) ->
  (shrunk (SB.p t) tau k * SB.p s)%float = shrunk (SB.p t) tau k ->
  forall fuel calls, SB.preCheck E fuel net t tau calls = OutOfFuel.
Proof.
  intros Hrej Ht Hfix fuel calls. destruct (le_lt_dec fuel k) as [Hle|Hlt].
  - eapply sb_preCheck_short; eassumption.
  - replace fuel with (k + (fuel - k)) by lia.
    destruct (sb_preCheck_skip E net k t tau s (fuel - k) calls Hrej) as (c' & ->).
    apply sb_preCheck_stalled; assumption.
Qed.

(** C9, as stated, fails: with initial tau = 1.0, eps = 0.1, p = pp = 0.9, a
    constant propensity of 10 and the relative bound of section 8.6 on a
    species at population 0, every trial is rejected (the projection
    10 tau + sqrt(10 tau) is above 0.1 * 0), and tau does not tend to zero in
    binary64: after 7100 shrinks it is 2.5e-323, and 2.5e-323 * 0.9 rounds
    back to 2.5e-323.  [getNewTau] does not return within any number of
    passes, for either controller. *)
Lemma C9_retry_loop_need_not_terminate :
  (0 <? 1)%float = true /\ (0 <? 0.1)%float = true
  /\ (0 <? 0.9)%float = true /\ (0.9 <? 1)%float = true
  /\ (exists t,
        RB.construct Scenario.rb base_empty_pool 0.1 0.9 0.9 1.5 0.01 net_empty_pool
        = Ok t
        /\ forall fuel,
             RB.getNewTau Scenario.rb fuel net_empty_pool t 1%float = OutOfFuel)
  /\ (exists t,
        SB.construct Scenario.sb base_empty_pool 0.1 0.9 0.9 1.5 0.01 net_empty_pool
        = Ok t
        /\ forall fuel,
             SB.getNewTau Scenario.sb fuel net_empty_pool t 1%float = OutOfFuel).
Proof.
  repeat (split; [vm_compute; reflexivity|]). split.
  - eexists. split; [vm_compute; reflexivity|].
    intros fuel. unfold RB.getNewTau.
    match goal with |- context [RB.catchUp ?n ?t] =>
      let r := eval vm_compute in (RB.catchUp n t) in
      replace (RB.catchUp n t) with r by (vm_compute; reflexivity)
    end.
    cbn [bind RB.firstTau RB.preCalc fst snd].
    match goal with |- RB.preCheck ?E _ ?n ?t ?tau ?c = _ =>
      let r := eval vm_compute in (rb_rejected E n 7100 t tau) in
      match r with
      | Some ?s => apply (rb_preCheck_diverges E n 7100 t tau s)
      end
    end; vm_compute; reflexivity.
  - eexists. split; [vm_compute; reflexivity|].
    intros fuel. unfold SB.getNewTau.
    match goal with |- context [SB.catchUp ?E ?n ?t] =>
      let r := eval vm_compute in (SB.catchUp E n t) in
      replace (SB.catchUp E n t) with r by (vm_compute; reflexivity)
    end.
    cbn [bind SB.firstTau SB.preCalc fst snd].
    match goal with |- SB.preCheck ?E _ ?n ?t ?tau ?c = _ =>
      let r := eval vm_compute in (sb_rejected E n 7100 t tau) in
      match r with
      | Some ?s => apply (sb_preCheck_diverges E n 7100 t tau s)
      end
    end; vm_compute; reflexivity.
Qed.

(** C9, amended: the retry loop has no bound on its passes and returns exactly
    when some trial of the sequence tau, tau * p, tau * p * p, ... is accepted
    after the trials before it were rejected: it then returns that trial's
    tau and controller, after one call of [calc_aEff] and of the checker (at
    scale 1.0, postcheck clear) per trial, whatever the bound on the number of
    passes above the number of rejected trials.  A rejected trial is followed
    by the trial at tau * p and is never surfaced as an error: the loop does
    not exit, and neither does [getNewTau] once the catch-up is through. *)
Theorem C9_retry_loop_returns_iff_accepted :
  (forall E net t tau calls,
      ((exists fuel t' tau' calls',
           RB.preCheck E fuel net t tau calls = Ok (t', tau', calls'))
       <-> (exists k s t',
              rb_rejected E net k t tau = Some s
              /\ RB.trial E net s (shrunk (RB.p t) tau k) = Ok (t', true)))
      /\ (forall k s t' fuel,
            rb_rejected E net k t tau = Some s ->
            RB.trial E net s (shrunk (RB.p t) tau k) = Ok (t', true) ->
            k < fuel ->
            RB.preCheck E fuel net t tau calls
            = Ok (t', shrunk (RB.p t) tau k, calls ++ trials (RB.p t) tau (S k)))
      /\ (forall t1 fuel,
            RB.trial E net t tau = Ok (t1, false) ->
            RB.preCheck E (S fuel) net t tau calls
            = RB.preCheck E fuel net t1 (tau * RB.p t)%float
                (calls ++ [aCalc_calc_aEff tau; ch_check 1 false]))
      /\ (forall fuel, never_exits (RB.preCheck E fuel net t tau calls))
      /\ (forall fuel t0,
            RB.catchUp net t = Ok t0 -> never_exits (RB.getNewTau E fuel net t tau)))
  /\ (forall E net t tau calls,
        ((exists fuel t' tau' calls',
             SB.preCheck E fuel net t tau calls = Ok (t', tau', calls'))
         <-> (exists k s t',
                sb_rejected E net k t tau = Some s
                /\ SB.trial E net s (shrunk (SB.p t) tau k) = Ok (t', true)))
        /\ (forall k s t' fuel,
              sb_rejected E net k t tau = Some s ->
              SB.trial E net s (shrunk (SB.p t) tau k) = Ok (t', true) ->
              k < fuel ->
              SB.preCheck E fuel net t tau calls
              = Ok (t', shrunk (SB.p t) tau k, calls ++ trials (SB.p t) tau (S k)))
        /\ (forall t1 fuel,
              SB.trial E net t tau = Ok (t1, false) ->
              SB.preCheck E (S fuel) net t tau calls
              = SB.preCheck E fuel net t1 (tau * SB.p t)%float
                  (calls ++ [aCalc_calc_aEff tau; ch_check 1 false]))
        /\ (forall fuel, never_exits (SB.preCheck E fuel net t tau calls))
        /\ (forall fuel t0,
              SB.catchUp E net t = Ok t0 ->
              never_exits (SB.getNewTau E fuel net t tau))).
Proof.
  split.
  - intros E net t tau calls. repeat apply conj.
    + intros (fuel & t' & tau' & calls' & H).
      destruct (rb_preCheck_first_accepted E _ _ _ _ _ _ _ _ H)
        as (k & s & _ & Hrej & Hacc & -> & _).
      exists k, s, t'. split; assumption.
    + intros (k & s & t' & Hrej & Hacc). exists (S k). eexists. eexists. eexists.
      apply (rb_preCheck_enough_fuel E net k (S k) t tau calls s t' Hrej Hacc). lia.
    + intros k s t' fuel Hrej Hacc Hk.
      apply (rb_preCheck_enough_fuel E net k fuel t tau calls s t' Hrej Hacc Hk).
    + intros t1 fuel Ht.
      destruct (rb_trial_Ok E _ _ _ _ _ Ht) as (_ & _ & _ & Hcfg & _).
      assert (Hp : RB.p t1 = RB.p t) by apply Hcfg.
      simpl. rewrite Ht. simpl. rewrite Hp. reflexivity.
    + intros fuel. apply rb_preCheck_never_exits.
    + intros fuel t0 Hc. exact (rb_after_catchUp_never_exits E fuel net t tau t0 Hc).
  - intros E net t tau calls. repeat apply conj.
    + intros (fuel & t' & tau' & calls' & H).
      destruct (sb_preCheck_first_accepted E _ _ _ _ _ _ _ _ H)
        as (k & s & _ & Hrej & Hacc & -> & _).
      exists k, s, t'. split; assumption.
    + intros (k & s & t' & Hrej & Hacc). exists (S k). eexists. eexists. eexists.
      apply (sb_preCheck_enough_fuel E net k (S k) t tau calls s t' Hrej Hacc). lia.
    + intros k s t' fuel Hrej Hacc Hk.
      apply (sb_preCheck_enough_fuel E net k fuel t tau calls s t' Hrej Hacc Hk).
    + intros t1 fuel Ht.
      destruct (sb_trial_Ok E _ _ _ _ _ Ht) as (_ & _ & _ & _ & Hcfg & _).
      assert (Hp : SB.p t1 = SB.p t) by apply Hcfg.
      simpl. rewrite Ht. simpl. rewrite Hp. reflexivity.
    + intros fuel. apply sb_preCheck_never_exits.
    + intros fuel t0 Hc. exact (sb_after_catchUp_never_exits E fuel net t tau t0 Hc).
Qed.

(** In the scenario of section 8.6, at population 100, the trial at 1.0 is
    rejected and the one at 0.5 accepted, so the loop returns, with tau = 0.5
    under any bound above one pass, by [C9_retry_loop_returns_iff_accepted]. *)
Lemma C9_retry_loop_returns_iff_accepted_witness :
  exists s t1,
    rb_rejected Scenario.rb Scenario.net 1 rb_used 1%float = Some s
    /\ RB.trial Scenario.rb Scenario.net s 0.5%float = Ok (t1, true)
    /\ (exists fuel t' tau' calls',
          RB.preCheck Scenario.rb fuel Scenario.net rb_used 1%float []
          = Ok (t', tau', calls'))
    /\ RB.preCheck Scenario.rb 50 Scenario.net rb_used 1%float []
       = Ok (t1, 0.5%float, trials 0.5 1 2).
Proof.
  eexists. eexists.
  match goal with |- ?A /\ ?B /\ _ =>
    assert (Ha : A) by (vm_compute; reflexivity);
    assert (Hb : B) by (vm_compute; reflexivity)
  end.
  split; [exact Ha|]. split; [exact Hb|].
  destruct (proj1 C9_retry_loop_returns_iff_accepted Scenario.rb Scenario.net rb_used
              1%float []) as (Hiff & Hret & _).
  split.
  - apply (proj2 Hiff). eexists. eexists. eexists. split; [exact Ha | exact Hb].
  - apply (Hret 1 _ _ 50 Ha Hb). lia.
Defined.

(** * The sign of the deviation *)

From Stdlib Require Import Reals Lra.

(** ** The projected changes over an arithmetic

    [mean_dX] and [sdev_dX] are computed with [+], [*], [sqrt], unary [-] and
    [<] on [double].  The same loops are written here over any type with these
    operations, to be read over binary64, where they are [calc_dX], and over
    the real numbers, the arithmetic that binary64 rounds. *)

Record Arithmetic (T : Type) : Type := {
  ar_zero : T;
  ar_add : T -> T -> T;
  ar_mul : T -> T -> T;
  ar_sqrt : T -> T;
  ar_opp : T -> T;
  ar_ltb : T -> T -> bool
}.

Arguments ar_zero {T} _.
Arguments ar_add {T} _ _ _.
Arguments ar_mul {T} _ _ _.
Arguments ar_sqrt {T} _ _.
Arguments ar_opp {T} _ _.
Arguments ar_ltb {T} _ _ _.

(** The operations of [double]. *)
Definition binary64 : Arithmetic float :=
  {| ar_zero := 0%float; ar_add := PrimFloat.add; ar_mul := PrimFloat.mul;
     ar_sqrt := PrimFloat.sqrt; ar_opp := PrimFloat.opp; ar_ltb := PrimFloat.ltb |}.


Section Projection.

Context {T : Type} (F : Arithmetic T).
Context (a_eff : list T) (stoich : list (list T)) (spInRxn : list (list nat)).

Definition accumulate_over (j v : nat) (acc : T * T) : Outcome (T * T) :=
  z_vj <- rd2 stoich j v ;;
  R_v <- rd2 spInRxn j v ;;
  a <- rd a_eff R_v ;;
  Ok (ar_add F (fst acc) (ar_mul F z_vj a),
      ar_add F (snd acc) (ar_mul F (ar_mul F z_vj z_vj) a)).

Definition dX_entry_over (tau : T) (j : nat) : Outcome (T * T) :=
  spj <- rd spInRxn j ;;
  acc <- for_loop (length spj) 0 (accumulate_over j) (ar_zero F, ar_zero F) ;;
  let mean := ar_mul F (fst acc) tau in
  let sdev := ar_mul F (snd acc) tau in
  let sdev := ar_sqrt F sdev in
  let sdev := if ar_ltb F mean (ar_zero F) then ar_opp F sdev else sdev in
  Ok (mean, sdev).

Definition dX_step_over (tau : T) (j : nat) (arrs : list T * list T)
  : Outcome (list T * list T) :=
  e <- dX_entry_over tau j ;;
  mean_dX <- wr (fst arrs) j (fst e) ;;
  sdev_dX <- wr (snd arrs) j (snd e) ;;
  Ok (mean_dX, sdev_dX).

(** [n] is [X_eff.size()]. *)
Definition calc_dX_over (n : nat) (tau : T) : Outcome (list T * list T) :=
  for_loop n 0 (dX_step_over tau) (repeat (ar_zero F) n, repeat (ar_zero F) n).


End Projection.

(** Over binary64 the loops are those of [calc_dX]. *)
Lemma calc_dX_over_binary64 ac tau :
  calc_dX ac tau
  = calc_dX_over binary64 (a_eff ac) (stoich ac) (spInRxn ac) (length (X_eff ac)) tau.
Proof. reflexivity. Qed.

(** ** Exact arithmetic *)



(** ** Binary64 on a grid of inputs *)











(** ** C6: the sign of the deviation *)


